(** * Verification of the probabilistic-inference programs

    Shallow embedding of [uncertainty/pagerank/pagerank.py] and
    [uncertainty/heredity/heredity.py].

    Numbers: Python's [int] and [float] values are embedded as exact
    rationals ([Q]); equalities between computed probabilities are stated
    with [==] ([Qeq]).  Every Python division is either guarded by the
    program (the divisor is provably non-zero at that point) or modelled
    with an explicit [ZeroDivisionError].  A rational never underflows or
    overflows; where that matters for a statement (a long product of
    probabilities, the inverse of a small total), the statement carries an
    explicit bound that keeps the double-precision value in range.

    Containers: a Python [dict] is an association list in insertion order
    (the iterative solver updates the rank dictionary in place while it
    walks the corpus, so the order of keys matters); a Python [set] is a
    duplicate-free list.  Python walks a set in an order of its own; the
    embedding walks the list, and a subset of the names is always held in
    the order of the names, so that equal sets are equal lists.

    Randomness: the sampler takes the stream of the generator's draws as
    an argument. *)

From Stdlib Require Import List String QArith Qabs Qround Lia Lqa Bool Arith.
From Stdlib Require Import Permutation ZArith.
Import ListNotations.

Open Scope string_scope.
Open Scope list_scope.
Open Scope Q_scope.

(** ** Python runtime: exceptions, dictionaries, sets *)

Module Py.

(** The built-in exceptions the two programs can raise, and
    [ContradictoryEvidenceError], the error kind the specification names in
    its error-handling section; no statement of either program raises it. *)
Inductive exn : Type :=
| KeyError
| IndexError
| ValueError
| ZeroDivisionError
| ContradictoryEvidenceError.

Inductive result (A : Type) : Type :=
| Ok (a : A)
| Raise (e : exn).

Arguments Ok {A} a.
Arguments Raise {A} e.

Definition bind {A B : Type} (r : result A) (k : A -> result B) : result B :=
  match r with
  | Ok a => k a
  | Raise e => Raise e
  end.

Notation "x <- c ;; k" := (bind c (fun x => k))
  (at level 61, c at next level, right associativity).

(** A [for] loop whose body may raise. *)
Fixpoint for_each {A S : Type} (body : S -> A -> result S) (xs : list A)
  (s : S) : result S :=
  match xs with
  | [] => Ok s
  | x :: xs' => s' <- body s x ;; for_each body xs' s'
  end.

Definition dict (V : Type) : Type := list (string * V).

Definition keys {V : Type} (d : dict V) : list string := map fst d.

Definition values {V : Type} (d : dict V) : list V := map snd d.

(** [d[k]]: raises [KeyError] on a missing key. *)
Fixpoint get {V : Type} (d : dict V) (k : string) : result V :=
  match d with
  | [] => Raise KeyError
  | (k', v) :: d' => if String.eqb k k' then Ok v else get d' k
  end.

(** [d[k] = v] and [d.update({k: v})]: overwrite in place, or append a new
    key at the end. *)
Fixpoint set {V : Type} (k : string) (v : V) (d : dict V) : dict V :=
  match d with
  | [] => [(k, v)]
  | (k', v') :: d' =>
      if String.eqb k k' then (k', v) :: d' else (k', v') :: set k v d'
  end.

(** [x in s] for a set or a list of names. *)
Fixpoint mem (x : string) (s : list string) : bool :=
  match s with
  | [] => false
  | y :: s' => if String.eqb x y then true else mem x s'
  end.

(** [s.add(x)]. *)
Definition set_add (x : string) (s : list string) : list string :=
  if mem x s then s else s ++ [x].

(** [len(c)] as a number. *)
Definition len {A : Type} (l : list A) : Q := inject_Z (Z.of_nat (List.length l)).

(** The dictionary that maps every key of [ks] to [f k]. *)
Definition tabulate {V : Type} (f : string -> V) (ks : list string) : dict V :=
  map (fun k => (k, f k)) ks.

Fixpoint Qsum (l : list Q) : Q :=
  match l with
  | [] => 0
  | x :: l' => x + Qsum l'
  end.

Fixpoint Qprod (l : list Q) : Q :=
  match l with
  | [] => 1
  | x :: l' => x * Qprod l'
  end.

End Py.

Import Py.

(** ** pagerank.py *)

Module Pagerank.

Definition corpus_t : Type := dict (list string).

Definition DAMPING : Q := 85 # 100.
Definition SAMPLES : nat := 10000.

(** [transition_model(corpus, page, damping_factor)].  The body reads the
    module constant [DAMPING]; the parameter [damping_factor] is not used. *)
Definition transition_model (corpus : corpus_t) (page : string)
  (damping_factor : Q) : result (dict Q) :=
  let model := fold_left (fun m new_page => set new_page 0 m) (keys corpus) [] in
  links <- get corpus page ;;
  let num := List.length links in
  if negb (Nat.eqb num 0) then
    let model :=
      fold_left (fun m new_page => set new_page (DAMPING / len links) m)
        links model in
    let length := len corpus in
    for_each (fun m new_page =>
                v <- get m new_page ;;
                Ok (set new_page (v + (1 - DAMPING) / length) m))
      (keys corpus) model
  else
    let length := len corpus in
    Ok (fold_left (fun m new_page => set new_page (1 / length) m)
          (keys corpus) model).

(** The distribution [transition_model] returns for a page whose links are
    [links], in closed form (see [transition_model_closed]). *)
Definition model_of (corpus : corpus_t) (links : list string) : dict Q :=
  tabulate (fun x =>
              if Nat.eqb (List.length links) 0 then 1 / len corpus
              else (if mem x links then DAMPING / len links else 0)
                   + (1 - DAMPING) / len corpus)
    (keys corpus).

(** *** Randomness

    The generator is a stream of draws of [random.random()]; the sampler
    threads the position in the stream. *)
Definition rng : Type := nat -> Q.

(** [random.choice(seq)]: [seq[floor(random() * len(seq))]]. *)
Definition random_choice {A : Type} (seq : list A) (u : Q) : result A :=
  match seq with
  | [] => Raise IndexError
  | a :: _ =>
      let i := Z.to_nat (Qfloor (u * len seq)) in
      Ok (nth (Nat.min i (List.length seq - 1)) seq a)
  end.

(** [itertools.accumulate(weights)]. *)
Fixpoint accumulate (acc : Q) (ws : list Q) : list Q :=
  match ws with
  | [] => []
  | w :: ws' => (acc + w) :: accumulate (acc + w) ws'
  end.

(** [bisect.bisect(cum, x, 0, hi)]: the first position below [hi] whose
    cumulative weight exceeds [x], else [hi]. *)
Fixpoint bisect (cum : list Q) (x : Q) (hi : nat) : nat :=
  match hi, cum with
  | O, _ => O
  | _, [] => O
  | S hi', c :: cum' =>
      if Qlt_le_dec x c then O else S (bisect cum' x hi')
  end.

(** [random.choices(population, weights=prob, k=1)[0]]. *)
Definition random_choices (population : list string) (weights : list Q)
  (u : Q) : result string :=
  let cum_weights := accumulate 0 weights in
  if negb (Nat.eqb (List.length cum_weights) (List.length population)) then Raise ValueError
  else
    match population with
    | [] => Raise IndexError
    | a :: _ =>
        let total := last cum_weights 0 in
        if Qle_bool total 0 then Raise ValueError
        else
          let hi := (List.length population - 1)%nat in
          Ok (nth (bisect cum_weights (u * total) hi) population a)
    end.

(** The loop [for i in range(n-1)] of [sample_pagerank]; the state is the
    current page and the visit counts. *)
Definition sample_step (corpus : corpus_t) (damping_factor : Q)
  (pageList : list string) (r : rng)
  (st : string * dict Q) (i : nat) : result (string * dict Q) :=
  let '(page, page_rank) := st in
  model <- transition_model corpus page damping_factor ;;
  prob <- for_each (fun prob page2 => v <- get model page2 ;; Ok (prob ++ [v]))
            pageList [] ;;
  page <- random_choices pageList prob (r (S i)) ;;
  c <- get page_rank page ;;
  Ok (page, set page (c + 1) page_rank).

(** [sample_pagerank(corpus, damping_factor, n)]. *)
Definition sample_pagerank (corpus : corpus_t) (damping_factor : Q) (n : nat)
  (r : rng) : result (dict Q) :=
  let page_rank := fold_left (fun m page => set page 0 m) (keys corpus) [] in
  let pageList := fold_left (fun l page => l ++ [page]) (keys corpus) [] in
  item <- random_choice corpus (r O) ;;
  let page := fst item in
  c <- get page_rank page ;;
  let page_rank := set page (c + 1) page_rank in
  st <- for_each (sample_step corpus damping_factor pageList r)
          (seq 0 (n - 1)) (page, page_rank) ;;
  let page_rank := snd st in
  for_each (fun m page =>
              c <- get m page ;;
              if Nat.eqb n 0 then Raise ZeroDivisionError
              else Ok (set page (c / inject_Z (Z.of_nat n)) m))
    (keys page_rank) page_rank.

(** *** The iterative solver *)

(** The inverted link relation built at the start of [iterate_pagerank]. *)
Definition build_page_link (corpus : corpus_t) : result (dict (list string)) :=
  let page_link := fold_left (fun m page => set page [] m) (keys corpus) [] in
  for_each (fun pl page =>
              links <- get corpus page ;;
              for_each (fun pl page2 =>
                          s <- get pl page2 ;;
                          Ok (set page2 (set_add page s) pl))
                links pl)
    (keys corpus) page_link.

(** The inner loop [for parent_page in page_link[page]]. *)
Definition parent_sum (corpus : corpus_t) (n : Q) (page_rank : dict Q)
  (parents : list string) : result Q :=
  for_each (fun s parent_page =>
              links <- get corpus parent_page ;;
              let num_links := List.length links in
              r <- get page_rank parent_page ;;
              if negb (Nat.eqb num_links 0) then Ok (s + r / len links)
              else Ok (s + r / n))
    parents 0.

(** The value of [new_rank] for [page], read from the current [page_rank]. *)
Definition new_rank_of (corpus : corpus_t) (page_link : dict (list string))
  (damping_factor n : Q) (page_rank : dict Q) (page : string) : result Q :=
  let new_rank := (1 - damping_factor) / n in
  parents <- get page_link page ;;
  s <- parent_sum corpus n page_rank parents ;;
  Ok (new_rank + damping_factor * s).

(** One iteration of [for page in corpus] inside the [while] loop: the state
    is the flag [ok] and the rank dictionary, which is overwritten in place. *)
Definition sweep_step (corpus : corpus_t) (page_link : dict (list string))
  (damping_factor n : Q) (st : bool * dict Q) (page : string)
  : result (bool * dict Q) :=
  let '(ok, page_rank) := st in
  new_rank <- new_rank_of corpus page_link damping_factor n page_rank page ;;
  old <- get page_rank page ;;
  let ok := if Qlt_le_dec (1 # 1000) (Qabs (old - new_rank)) then false else ok in
  Ok (ok, set page new_rank page_rank).

(** One pass of the body of [while ok == False]. *)
Definition sweep (corpus : corpus_t) (page_link : dict (list string))
  (damping_factor n : Q) (page_rank : dict Q) : result (bool * dict Q) :=
  for_each (sweep_step corpus page_link damping_factor n) (keys corpus)
    (true, page_rank).

(** The [while] loop, bounded by [fuel] sweeps; [None] is fuel exhaustion. *)
Fixpoint iterate_loop (fuel : nat) (corpus : corpus_t)
  (page_link : dict (list string)) (damping_factor n : Q) (page_rank : dict Q)
  : option (result (dict Q)) :=
  match fuel with
  | O => None
  | S fuel' =>
      match sweep corpus page_link damping_factor n page_rank with
      | Raise e => Some (Raise e)
      | Ok (ok, page_rank') =>
          if ok then Some (Ok page_rank')
          else iterate_loop fuel' corpus page_link damping_factor n page_rank'
      end
  end.

(** [iterate_pagerank(corpus, damping_factor)]. *)
Definition iterate_pagerank (fuel : nat) (corpus : corpus_t)
  (damping_factor : Q) : option (result (dict Q)) :=
  let n := len corpus in
  let page_rank := fold_left (fun m page => set page (1 / n) m) (keys corpus) [] in
  match build_page_link corpus with
  | Raise e => Some (Raise e)
  | Ok page_link => iterate_loop fuel corpus page_link damping_factor n page_rank
  end.

(** The corpus invariant: keys are unique, link sets are duplicate-free and
    every link target is a key. *)
Definition wf_corpus (corpus : corpus_t) : Prop :=
  NoDup (keys corpus) /\
  forall p ls, In (p, ls) corpus ->
    NoDup ls /\ forall q, In q ls -> In q (keys corpus).

(** Every recorded parent really links to the page. *)
Definition parents_link (corpus : corpus_t) (pl : dict (list string)) : Prop :=
  forall q parents p, get pl q = Ok parents -> In p parents ->
    exists links, get corpus p = Ok links /\ In q links.

(** The part of the inverse relation built once the pages [pre] have been
    walked. *)
Definition inverted_upto (corpus : corpus_t) (pre : list string)
  (pl : dict (list string)) : Prop :=
  keys pl = keys corpus /\
  (forall q parents, get pl q = Ok parents -> NoDup parents) /\
  (forall p links q parents, In p pre -> get corpus p = Ok links ->
     In q links -> get pl q = Ok parents -> In p parents).

(** The parent sum without the zero-out-degree branch. *)
Definition parent_sum_linked (corpus : corpus_t) (page_rank : dict Q)
  (parents : list string) : result Q :=
  for_each (fun s parent_page =>
              links <- get corpus parent_page ;;
              r <- get page_rank parent_page ;;
              Ok (s + r / len links))
    parents 0.

(** *** The specification's update rule

    The new rank the specification prescribes for [q], read from a frozen
    [snapshot]: every page that links to [q] contributes its rank divided by
    its out-degree, and every page without outgoing links contributes its
    rank divided by the corpus size. *)
Definition spec_new_rank (corpus : corpus_t) (d n : Q) (snapshot : dict Q)
  (q : string) : result Q :=
  linked <- for_each (fun s '(p, links) =>
                        if mem q links then
                          r <- get snapshot p ;; Ok (s + r / len links)
                        else Ok s)
              corpus 0 ;;
  dangling <- for_each (fun s '(p, links) =>
                          if Nat.eqb (List.length links) 0 then
                            r <- get snapshot p ;; Ok (s + r / n)
                          else Ok s)
                corpus 0 ;;
  Ok ((1 - d) / n + d * (linked + dangling)).

(** The double-buffered reference: one sweep that reads only [snapshot] and
    writes a separate buffer, and the loop built on it. *)
Definition sync_sweep (corpus : corpus_t) (page_link : dict (list string))
  (damping_factor n : Q) (snapshot : dict Q) : result (bool * dict Q) :=
  for_each (fun '(ok, buffer) page =>
              new_rank <- new_rank_of corpus page_link damping_factor n
                            snapshot page ;;
              old <- get snapshot page ;;
              let ok :=
                if Qlt_le_dec (1 # 1000) (Qabs (old - new_rank)) then false
                else ok in
              Ok (ok, set page new_rank buffer))
    (keys corpus) (true, snapshot).

Fixpoint sync_iterate_loop (fuel : nat) (corpus : corpus_t)
  (page_link : dict (list string)) (damping_factor n : Q) (page_rank : dict Q)
  : option (result (dict Q)) :=
  match fuel with
  | O => None
  | S fuel' =>
      match sync_sweep corpus page_link damping_factor n page_rank with
      | Raise e => Some (Raise e)
      | Ok (ok, page_rank') =>
          if ok then Some (Ok page_rank')
          else sync_iterate_loop fuel' corpus page_link damping_factor n
                 page_rank'
      end
  end.

Definition sync_iterate_pagerank (fuel : nat) (corpus : corpus_t)
  (damping_factor : Q) : option (result (dict Q)) :=
  let n := len corpus in
  let page_rank := fold_left (fun m page => set page (1 / n) m) (keys corpus) [] in
  match build_page_link corpus with
  | Raise e => Some (Raise e)
  | Ok page_link =>
      sync_iterate_loop fuel corpus page_link damping_factor n page_rank
  end.

Definition ex_chain : corpus_t :=
  [("1.html", ["2.html"]); ("2.html", [])].

Definition ex_pair : corpus_t :=
  [("1.html", ["2.html"]); ("2.html", ["1.html"])].

Definition ex_three : corpus_t :=
  [("1.html", ["2.html"]); ("2.html", ["1.html"; "3.html"]);
   ("3.html", ["1.html"])].

(** The initial ranks and the inverted links of [ex_chain]. *)
Definition ex_chain_rank0 : dict Q := [("1.html", 1 # 2); ("2.html", 1 # 2)].

Definition ex_chain_links : dict (list string) :=
  [("1.html", []); ("2.html", ["1.html"])].

(** [ex_three] with its keys inserted in the opposite order. *)
Definition ex_three_rev : corpus_t :=
  [("3.html", ["1.html"]); ("2.html", ["1.html"; "3.html"]);
   ("1.html", ["2.html"])].

(** *** The crawler

    [os.listdir], the file reads and [re.findall] are the environment of
    [crawl]: the directory is given as the list of its entries in listing
    order, each with the list of [href] values [re.findall] returns for its
    contents.  An entry whose name ends in [.html] is therefore a file that
    [open] and [read] accept; an entry of that name that is a directory, or
    a file that cannot be read or decoded, stops the program with the error
    of [open] or [read] and is not part of this model.  Entries with another
    name are never opened, so what is listed for them plays no role. *)

(** [filename.endswith(suffix)]. *)
Definition endswith (s suffix : string) : bool :=
  let n := String.length s in
  let m := String.length suffix in
  if Nat.leb m n then String.eqb (substring (n - m) m s) suffix else false.

(** [set(links)]. *)
Definition to_set (links : list string) : list string :=
  fold_left (fun s x => set_add x s) links [].

(** The first loop of [crawl]. *)
Definition crawl_extract (listing : list (string * list string)) : corpus_t :=
  fold_left (fun pages '(filename, links) =>
               if negb (endswith filename ".html") then pages
               else set filename
                      (filter (fun x => negb (String.eqb x filename))
                         (to_set links))
                      pages)
    listing [].

(** What the first loop stores for a file: [set(links) - {filename}]. *)
Definition cleaned (filename : string) (links : list string) : list string :=
  filter (fun x => negb (String.eqb x filename)) (to_set links).

(** The second loop of [crawl]: [for filename in pages] with
    [pages[filename]] is read as a walk over the items; the keys of [pages]
    do not change during the loop. *)
Definition crawl_restrict (pages : corpus_t) : corpus_t :=
  map (fun '(filename, links) =>
         (filename, filter (fun link => mem link (keys pages)) links))
    pages.

(** [crawl(directory)]. *)
Definition crawl (listing : list (string * list string)) : corpus_t :=
  crawl_restrict (crawl_extract listing).

(** A rational that is a natural number: a visit count. *)
Definition is_count (v : Q) : Prop :=
  exists k : nat, v == inject_Z (Z.of_nat k).

Definition ex_listing : list (string * list string) :=
  [("1.html", ["2.html"; "1.html"; "2.html"; "http://example.org/"]);
   ("notes.txt", ["1.html"]);
   ("2.html", ["3.html"])].

End Pagerank.

(** ** heredity.py *)

Module Heredity.

(** [PROBS["gene"]], [PROBS["trait"]] and [PROBS["mutation"]]; the keys used
    by the program are the constants 0, 1, 2 and [True], [False]. *)
Definition PROBS_gene (g : nat) : Q :=
  match g with
  | 2%nat => 1 # 100
  | 1%nat => 3 # 100
  | _ => 96 # 100
  end.

Definition PROBS_trait (g : nat) (t : bool) : Q :=
  match g, t with
  | 2%nat, true => 65 # 100
  | 2%nat, false => 35 # 100
  | 1%nat, true => 56 # 100
  | 1%nat, false => 44 # 100
  | _, true => 1 # 100
  | _, false => 99 # 100
  end.

Definition PROBS_mutation : Q := 1 # 100.

(** One row of the CSV as stored by [load_data]. *)
Record person_t : Type := mkPerson {
  name : string;
  mother : option string;
  father : option string;
  trait : option bool
}.

Definition people_t : Type := dict person_t.

(** [probabilities[person]]: the three gene accumulators and the two trait
    accumulators. *)
Record dist : Type := mkDist {
  gene0 : Q;
  gene1 : Q;
  gene2 : Q;
  trait_true : Q;
  trait_false : Q
}.

Definition probabilities_t : Type := dict dist.

(** [itertools.combinations(s, r)], in its lexicographic order. *)
Fixpoint combinations {A : Type} (s : list A) (r : nat) : list (list A) :=
  match s, r with
  | _, O => [[]]
  | [], S _ => []
  | x :: s', S r' => map (cons x) (combinations s' r') ++ combinations s' r
  end.

(** [powerset(s)]: the combinations of every size from 0 to [len(s)]. *)
Definition powerset {A : Type} (s : list A) : list (list A) :=
  flat_map (combinations s) (seq 0 (List.length s + 1)).

(** [names - one_gene]. *)
Definition set_diff (s t : list string) : list string :=
  filter (fun x => negb (mem x t)) s.

(** [mother in one_gene] where [mother] may be [None]. *)
Definition opt_mem (o : option string) (s : list string) : bool :=
  match o with
  | Some x => mem x s
  | None => false
  end.

(** The gene count the program reads off the two sets. *)
Definition gene_in (one_gene two_genes : list string) (person : string) : nat :=
  if mem person one_gene then 1%nat
  else if mem person two_genes then 2%nat
  else 0%nat.

(** The body of the loop of [joint_probability] for one person: the value of
    [prob].  [for person in people] with [people[person]] is read as a walk
    over the items of the dictionary. *)
Definition person_prob (one_gene two_genes have_trait : list string)
  (person : string) (rec : person_t) : Q :=
  let prob_gene :=
    match mother rec with
    | Some _ =>
        let pm :=
          if opt_mem (mother rec) one_gene then (1 # 2) - PROBS_mutation
          else if opt_mem (mother rec) two_genes then 1 - PROBS_mutation
          else PROBS_mutation in
        let pnm := 1 - pm in
        let pf :=
          if opt_mem (father rec) one_gene then (1 # 2) - PROBS_mutation
          else if opt_mem (father rec) two_genes then 1 - PROBS_mutation
          else PROBS_mutation in
        let pnf := 1 - pf in
        if mem person one_gene then pm * pnf + pf * pnm
        else if mem person two_genes then pm * pf
        else pnm * pnf
    | None =>
        if mem person one_gene then PROBS_gene 1
        else if mem person two_genes then PROBS_gene 2
        else PROBS_gene 0
    end in
  let gene := gene_in one_gene two_genes person in
  let trait := mem person have_trait in
  let prob_trait := PROBS_trait gene trait in
  prob_gene * prob_trait.

(** [joint_probability(people, one_gene, two_genes, have_trait)]. *)
Definition joint_probability (people : people_t)
  (one_gene two_genes have_trait : list string) : Q :=
  fold_left (fun final_prob '(person, rec) =>
               final_prob * person_prob one_gene two_genes have_trait person rec)
    people 1.

Definition add_gene (gene : nat) (p : Q) (d : dist) : dist :=
  match gene with
  | 0%nat => mkDist (gene0 d + p) (gene1 d) (gene2 d) (trait_true d) (trait_false d)
  | 1%nat => mkDist (gene0 d) (gene1 d + p) (gene2 d) (trait_true d) (trait_false d)
  | _ => mkDist (gene0 d) (gene1 d) (gene2 d + p) (trait_true d) (trait_false d)
  end.

Definition add_trait (t : bool) (p : Q) (d : dist) : dist :=
  if t then mkDist (gene0 d) (gene1 d) (gene2 d) (trait_true d + p) (trait_false d)
  else mkDist (gene0 d) (gene1 d) (gene2 d) (trait_true d) (trait_false d + p).

(** [update(probabilities, one_gene, two_genes, have_trait, p)]. *)
Definition update (probabilities : probabilities_t)
  (one_gene two_genes have_trait : list string) (p : Q) : probabilities_t :=
  map (fun '(person, d) =>
         let gene := gene_in one_gene two_genes person in
         let d := add_gene gene p d in
         let trait := mem person have_trait in
         (person, add_trait trait p d))
    probabilities.

(** [1 / prob_sum]. *)
Definition inverse (prob_sum : Q) : result Q :=
  if Qeq_bool prob_sum 0 then Raise ZeroDivisionError else Ok (1 / prob_sum).

Definition normalize_dist (d : dist) : result dist :=
  let prob_sum := 0 + gene0 d + gene1 d + gene2 d in
  constant <- inverse prob_sum ;;
  let g0 := gene0 d * constant in
  let g1 := gene1 d * constant in
  let g2 := gene2 d * constant in
  let prob_sum := trait_false d + trait_true d in
  constant <- inverse prob_sum ;;
  Ok (mkDist g0 g1 g2 (trait_true d * constant) (trait_false d * constant)).

(** [normalize(probabilities)]: the first person whose sum is zero stops the
    loop with [ZeroDivisionError]. *)
Fixpoint normalize (probabilities : probabilities_t) : result probabilities_t :=
  match probabilities with
  | [] => Ok []
  | (person, d) :: rest =>
      d' <- normalize_dist d ;;
      rest' <- normalize rest ;;
      Ok ((person, d') :: rest')
  end.

(** [fails_evidence] in [main]. *)
Definition fails_evidence (people : people_t) (have_trait : list string) : bool :=
  existsb (fun '(person, rec) =>
             match trait rec with
             | Some t => negb (Bool.eqb t (mem person have_trait))
             | None => false
             end)
    people.

(** The initial value of [probabilities] in [main]. *)
Definition zero_dist : dist := mkDist 0 0 0 0 0.

Definition init_probabilities (people : people_t) : probabilities_t :=
  map (fun '(person, _) => (person, zero_dist)) people.

(** The three nested loops of [main], as written. *)
Definition main_loop (people : people_t) : probabilities_t :=
  let names := keys people in
  fold_left (fun probabilities have_trait =>
      if fails_evidence people have_trait then probabilities
      else
        fold_left (fun probabilities one_gene =>
            fold_left (fun probabilities two_genes =>
                let p := joint_probability people one_gene two_genes have_trait in
                update probabilities one_gene two_genes have_trait p)
              (powerset (set_diff names one_gene)) probabilities)
          (powerset names) probabilities)
    (powerset names) (init_probabilities people).

(** [main], up to printing: the normalized table. *)
Definition main (people : people_t) : result probabilities_t :=
  normalize (main_loop people).

(** *** Worlds *)

(** A world as the loops of [main] hold it:
    [(have_trait, one_gene, two_genes)]. *)
Definition world : Type := (list string * list string * list string)%type.

(** The gene partitions visited by the two inner loops, in order. *)
Definition gene_partitions (names : list string)
  : list (list string * list string) :=
  flat_map (fun one_gene =>
              map (fun two_genes => (one_gene, two_genes))
                (powerset (set_diff names one_gene)))
    (powerset names).

(** The worlds that reach [update], in the order the loops visit them. *)
Definition worlds (people : people_t) : list world :=
  let names := keys people in
  flat_map (fun have_trait =>
              if fails_evidence people have_trait then []
              else map (fun '(one_gene, two_genes) =>
                          (have_trait, one_gene, two_genes))
                     (gene_partitions names))
    (powerset names).

Definition joint (people : people_t) (w : world) : Q :=
  let '(have_trait, one_gene, two_genes) := w in
  joint_probability people one_gene two_genes have_trait.

Definition world_gene (w : world) (person : string) : nat :=
  let '(_, one_gene, two_genes) := w in gene_in one_gene two_genes person.

Definition world_trait (w : world) (person : string) : bool :=
  let '(have_trait, _, _) := w in mem person have_trait.

(** The world that represents a gene assignment [g] and a trait assignment
    [t] over [names]. *)
Definition world_of (names : list string) (g : string -> nat)
  (t : string -> bool) : world :=
  (filter t names,
   filter (fun x => Nat.eqb (g x) 1) names,
   filter (fun x => Nat.eqb (g x) 2) names).

(** A trait assignment agrees with the recorded evidence. *)
Definition consistent (people : people_t) (t : string -> bool) : Prop :=
  forall person rec b, In (person, rec) people -> trait rec = Some b ->
    t person = b.

(** The mass a list of worlds puts in a person's gene bucket [k], and in a
    trait bucket [b]: each world counts once, in the bucket it assigns. *)
Definition gene_mass (people : people_t) (ws : list world) (person : string)
  (k : nat) : Q :=
  fold_left (fun acc w =>
               if Nat.eqb (world_gene w person) k then acc + joint people w
               else acc)
    ws 0.

Definition trait_mass (people : people_t) (ws : list world) (person : string)
  (b : bool) : Q :=
  fold_left (fun acc w =>
               if Bool.eqb (world_trait w person) b then acc + joint people w
               else acc)
    ws 0.

Definition gene_acc (d : dist) (k : nat) : Q :=
  match k with
  | 0%nat => gene0 d
  | 1%nat => gene1 d
  | _ => gene2 d
  end.

Definition trait_acc (d : dist) (b : bool) : Q :=
  if b then trait_true d else trait_false d.

(** What the body of the innermost loop does with one world. *)
Definition record (people : people_t) (probabilities : probabilities_t)
  (w : world) : probabilities_t :=
  let '(have_trait, one_gene, two_genes) := w in
  update probabilities one_gene two_genes have_trait
    (joint_probability people one_gene two_genes have_trait).

Definition world_eq_dec (w w' : world) : {w = w'} + {w <> w'}.
Proof.
  repeat decide equality; apply string_dec.
Defined.

(** The subsets of a list by the usual recursion: with or without the
    head. *)
Fixpoint subseqs {A : Type} (l : list A) : list (list A) :=
  match l with
  | [] => [[]]
  | x :: l' => map (cons x) (subseqs l') ++ subseqs l'
  end.

(** *** Worlds person by person

    The same worlds built one person at a time: every person independently
    takes a gene count in {0,1,2} and a trait value allowed by the
    evidence. *)
Definition trait_choices (evidence : option bool) : list bool :=
  match evidence with
  | Some b => [b]
  | None => [true; false]
  end.

Definition choices (evidence : option bool) : list (nat * bool) :=
  flat_map (fun g => map (fun t => (g, t)) (trait_choices evidence))
    [0%nat; 1%nat; 2%nat].

Definition extend (x : string) (c : nat * bool) (w : world) : world :=
  let '(g, t) := c in
  let '(have_trait, one_gene, two_genes) := w in
  (if t then x :: have_trait else have_trait,
   if Nat.eqb g 1 then x :: one_gene else one_gene,
   if Nat.eqb g 2 then x :: two_genes else two_genes).

Fixpoint canon (people : people_t) : list world :=
  match people with
  | [] => [([], [], [])]
  | (x, rec) :: rest =>
      flat_map (fun w => map (fun c => extend x c w) (choices (trait rec)))
        (canon rest)
  end.

(** The product over all persons of a factor that depends on the person
    and on what the world assigns to that person. *)
Fixpoint world_prod (h : string -> nat -> bool -> Q) (people : people_t)
  (w : world) : Q :=
  match people with
  | [] => 1
  | (x, _) :: rest => h x (world_gene w x) (world_trait w x) * world_prod h rest w
  end.

(** The sum of a factor over the choices open to one person, and the
    product of these sums over the population. *)
Definition choice_sum (h : string -> nat -> bool -> Q) (x : string)
  (evidence : option bool) : Q :=
  Qsum (map (fun c => h x (fst c) (snd c)) (choices evidence)).

Fixpoint person_sums (h : string -> nat -> bool -> Q) (people : people_t) : Q :=
  match people with
  | [] => 1
  | (x, rec) :: rest => choice_sum h x (trait rec) * person_sums h rest
  end.

(** The prior times the trait likelihood: the factor of a person without
    recorded parents. *)
Definition founder_factor (g : nat) (t : bool) : Q :=
  PROBS_gene g * PROBS_trait g t.

(** The same factor, kept only where person [p] has gene count [k]. *)
Definition founder_factor_at (p : string) (k : nat) (q : string) (g : nat)
  (t : bool) : Q :=
  if String.eqb q p && negb (Nat.eqb g k) then 0 else founder_factor g t.

(** The mass of everybody but [p]. *)
Fixpoint others (p : string) (people : people_t) : Q :=
  match people with
  | [] => 1
  | (x, rec) :: rest =>
      (if String.eqb x p then 1
       else choice_sum (fun _ => founder_factor) x (trait rec))
      * others p rest
  end.

(** The likelihood of a person's own evidence given the gene count. *)
Definition likelihood (evidence : option bool) (g : nat) : Q :=
  match evidence with
  | Some b => PROBS_trait g b
  | None => 1
  end.

(** Bayes' rule for one person: the prior re-weighted by the likelihood of
    the person's own evidence. *)
Definition bayes (evidence : option bool) (k : nat) : Q :=
  PROBS_gene k * likelihood evidence k
  / (PROBS_gene 0 * likelihood evidence 0
     + PROBS_gene 1 * likelihood evidence 1
     + PROBS_gene 2 * likelihood evidence 2).

(** *** The specification's reading of the joint probability *)

(** [pass(g)]: the probability that a parent with [g] copies transmits the
    gene. *)
Definition pass (g : nat) : Q :=
  match g with
  | 2%nat => 1 - PROBS_mutation
  | 1%nat => (1 # 2) - PROBS_mutation
  | _ => PROBS_mutation
  end.

Definition spec_gene_factor (g : string -> nat) (person : string)
  (rec : person_t) : Q :=
  match mother rec, father rec with
  | Some m, Some f =>
      let pm := pass (g m) in
      let pf := pass (g f) in
      match g person with
      | 2%nat => pm * pf
      | 1%nat => pm * (1 - pf) + pf * (1 - pm)
      | _ => (1 - pm) * (1 - pf)
      end
  | _, _ => PROBS_gene (g person)
  end.

Definition spec_trait_factor (g : string -> nat) (t : string -> bool)
  (person : string) : Q :=
  PROBS_trait (g person) (t person).

Fixpoint spec_joint (people : people_t) (g : string -> nat)
  (t : string -> bool) : Q :=
  match people with
  | [] => 1
  | (person, rec) :: rest =>
      (spec_gene_factor g person rec * spec_trait_factor g t person)
      * spec_joint rest g t
  end.

(** Parents are recorded in pairs: both or neither. *)
Definition parents_paired (people : people_t) : Prop :=
  forall person rec, In (person, rec) people ->
    (mother rec = None <-> father rec = None).

(** No person has recorded parents. *)
Definition founders_only (people : people_t) : Prop :=
  forall person rec, In (person, rec) people ->
    mother rec = None /\ father rec = None.

Definition founder (n : string) (t : option bool) : string * person_t :=
  (n, mkPerson n None None t).

Definition ex_harry_true : people_t := [founder "Harry" (Some true)].

Definition ex_founders : people_t :=
  [founder "Harry" None; founder "James" (Some true)].

(** The assignments of the world [({"James"}, {"Harry"}, {"James"})]. *)
Definition ex_g (p : string) : nat :=
  if String.eqb p "Harry" then 1%nat
  else if String.eqb p "James" then 2%nat
  else 0%nat.

Definition ex_t (p : string) : bool := String.eqb p "James".

Definition ex_family : people_t :=
  [ ("Harry", mkPerson "Harry" (Some "Lily") (Some "James") None);
    founder "James" (Some true);
    founder "Lily" (Some false) ].

(** *** Loading the data

    [csv.DictReader] and the file are the environment of [load_data]: the
    file is given as the list of its rows, each with the four fields the
    program reads. *)
Record row_t : Type := mkRow {
  row_name : string;
  row_mother : string;
  row_father : string;
  row_trait : string
}.

(** [s or None]. *)
Definition or_none (s : string) : option string :=
  if String.eqb s "" then None else Some s.

Definition parse_trait (s : string) : option bool :=
  if String.eqb s "1" then Some true
  else if String.eqb s "0" then Some false
  else None.

Definition to_person (row : row_t) : person_t :=
  mkPerson (row_name row) (or_none (row_mother row))
    (or_none (row_father row)) (parse_trait (row_trait row)).

(** [load_data(filename)]. *)
Definition load_data (rows : list row_t) : people_t :=
  fold_left (fun data row => set (row_name row) (to_person row) data) rows [].

(** Every value of a person's tables is non-negative. *)
Definition nonneg_dist (d : dist) : Prop :=
  0 <= gene0 d /\ 0 <= gene1 d /\ 0 <= gene2 d /\
  0 <= trait_true d /\ 0 <= trait_false d.

Definition ex_rows : list row_t :=
  [mkRow "Harry" "Lily" "James" "";
   mkRow "James" "" "" "1";
   mkRow "Lily" "" "" "0"].

End Heredity.

(** * Properties *)

(** ** Dictionaries, sets and loops *)

Module PyFacts.

Lemma mem_In (x : string) (s : list string) : mem x s = true <-> In x s.
Proof.
  induction s as [|y s IH]; simpl.
  - split; [discriminate | tauto].
  - destruct (String.eqb_spec x y) as [->|Hne].
    + split; auto.
    + rewrite IH. split; [auto | intros [H|H]; [congruence | exact H]].
Qed.

Lemma mem_false (x : string) (s : list string) : mem x s = false <-> ~ In x s.
Proof.
  rewrite <- mem_In. destruct (mem x s); split; congruence.
Qed.

Lemma get_set_same {V : Type} (d : dict V) (k : string) (v : V) :
  get (set k v d) k = Ok v.
Proof.
  induction d as [|[k' v'] d IH]; simpl.
  - now rewrite String.eqb_refl.
  - destruct (String.eqb_spec k k') as [->|Hne]; simpl.
    + now rewrite String.eqb_refl.
    + destruct (String.eqb_spec k k'); [contradiction | exact IH].
Qed.

Lemma get_set_other {V : Type} (d : dict V) (k k' : string) (v : V) :
  k <> k' -> get (set k v d) k' = get d k'.
Proof.
  intros Hne. induction d as [|[k0 v0] d IH]; simpl.
  - destruct (String.eqb_spec k' k); [congruence | reflexivity].
  - destruct (String.eqb_spec k k0) as [->|Hk]; simpl.
    + destruct (String.eqb_spec k' k0); [congruence | reflexivity].
    + destruct (String.eqb_spec k' k0); [reflexivity | exact IH].
Qed.

Lemma keys_set_in {V : Type} (d : dict V) (k : string) (v : V) :
  In k (keys d) -> keys (set k v d) = keys d.
Proof.
  induction d as [|[k' v'] d IH]; simpl; [tauto|].
  intros H. destruct (String.eqb_spec k k') as [->|Hne]; simpl; [reflexivity|].
  f_equal. apply IH. destruct H; [congruence | assumption].
Qed.

Lemma keys_set_notin {V : Type} (d : dict V) (k : string) (v : V) :
  ~ In k (keys d) -> keys (set k v d) = keys d ++ [k].
Proof.
  induction d as [|[k' v'] d IH]; simpl; [reflexivity|].
  intros H. destruct (String.eqb_spec k k') as [->|Hne]; simpl.
  - exfalso. apply H. now left.
  - f_equal. apply IH. tauto.
Qed.

Lemma get_ok_in_keys {V : Type} (d : dict V) (k : string) (v : V) :
  get d k = Ok v -> In k (keys d).
Proof.
  induction d as [|[k' v'] d IH]; simpl; [discriminate|].
  destruct (String.eqb_spec k k') as [->|Hne]; auto.
Qed.

Lemma in_keys_get {V : Type} (d : dict V) (k : string) :
  In k (keys d) -> exists v, get d k = Ok v.
Proof.
  induction d as [|[k' v'] d IH]; simpl; [tauto|].
  intros H. destruct (String.eqb_spec k k') as [->|Hne].
  - now exists v'.
  - apply IH. destruct H; [congruence | assumption].
Qed.

Lemma get_ok_in {V : Type} (d : dict V) (k : string) (v : V) :
  get d k = Ok v -> In (k, v) d.
Proof.
  induction d as [|[k' v'] d IH]; simpl; [discriminate|].
  destruct (String.eqb_spec k k') as [->|Hne].
  - intros [= ->]. now left.
  - auto.
Qed.

Lemma in_get_nodup {V : Type} (d : dict V) (k : string) (v : V) :
  NoDup (keys d) -> In (k, v) d -> get d k = Ok v.
Proof.
  induction d as [|[k' v'] d IH]; simpl; [tauto|].
  intros Hnd [H|H].
  - injection H as -> ->. now rewrite String.eqb_refl.
  - inversion Hnd as [|? ? Hnot Hnd']; subst.
    destruct (String.eqb_spec k k') as [->|Hne].
    + exfalso. apply Hnot. change (In (fst (k', v)) (map fst d)).
      now apply in_map.
    + now apply IH.
Qed.

Lemma keys_tabulate {V : Type} (f : string -> V) (ks : list string) :
  keys (tabulate f ks) = ks.
Proof.
  unfold keys, tabulate. rewrite map_map. simpl. apply map_id.
Qed.

Lemma tabulate_ext {V : Type} (f g : string -> V) (ks : list string) :
  (forall k, In k ks -> f k = g k) -> tabulate f ks = tabulate g ks.
Proof.
  intros H. unfold tabulate. apply map_ext_in. intros k Hk. now rewrite H.
Qed.

Lemma get_tabulate {V : Type} (f : string -> V) (ks : list string) (k : string) :
  In k ks -> get (tabulate f ks) k = Ok (f k).
Proof.
  induction ks as [|k' ks IH]; simpl; [tauto|].
  intros H. destruct (String.eqb_spec k k') as [->|Hne]; [reflexivity|].
  apply IH. destruct H; [congruence | assumption].
Qed.

Lemma set_tabulate {V : Type} (f : string -> V) (ks : list string)
  (k : string) (v : V) :
  NoDup ks -> In k ks ->
  set k v (tabulate f ks)
  = tabulate (fun x => if String.eqb x k then v else f x) ks.
Proof.
  induction ks as [|k' ks IH]; simpl; [tauto|].
  intros Hnd Hin. inversion Hnd as [|? ? Hnot Hnd']; subst.
  destruct (String.eqb_spec k k') as [->|Hne].
  - rewrite String.eqb_refl. f_equal.
    apply tabulate_ext. intros x Hx.
    destruct (String.eqb_spec x k'); [congruence | reflexivity].
  - destruct (String.eqb_spec k' k); [congruence|].
    f_equal. apply IH; [assumption|]. destruct Hin; [congruence | assumption].
Qed.

Lemma fold_set_fresh {V : Type} (f : string -> V) (ks : list string)
  (d : dict V) :
  NoDup ks -> (forall k, In k ks -> ~ In k (keys d)) ->
  fold_left (fun m k => set k (f k) m) ks d = d ++ tabulate f ks.
Proof.
  revert d. induction ks as [|k ks IH]; intros d Hnd Hfresh; simpl.
  - now rewrite app_nil_r.
  - inversion Hnd as [|? ? Hnot Hnd']; subst.
    rewrite IH; [| assumption |].
    + assert (Hset : set k (f k) d = d ++ [(k, f k)]).
      { assert (Hk : ~ In k (keys d)) by (apply Hfresh; now left).
        clear -Hk. induction d as [|[k' v'] d IHd]; simpl; [reflexivity|].
        simpl in Hk. destruct (String.eqb_spec k k') as [->|Hne]; [tauto|].
        f_equal. apply IHd. tauto. }
      rewrite Hset, <- app_assoc. reflexivity.
    + intros x Hx Hin.
      destruct (String.eqb_spec x k) as [->|Hne]; [contradiction|].
      assert (Hk : ~ In k (keys d)) by (apply Hfresh; now left).
      rewrite keys_set_notin in Hin by assumption.
      apply in_app_or in Hin. destruct Hin as [Hin|[Hin|[]]]; [|congruence].
      apply (Hfresh x); [now right | assumption].
Qed.

Lemma fold_set_init {V : Type} (f : string -> V) (ks : list string) :
  NoDup ks -> fold_left (fun m k => set k (f k) m) ks [] = tabulate f ks.
Proof.
  intros Hnd. rewrite fold_set_fresh; auto.
Qed.

Lemma fold_set_tabulate {V : Type} (f : string -> V) (c : V)
  (ks ls : list string) :
  NoDup ks -> incl ls ks ->
  fold_left (fun m k => set k c m) ls (tabulate f ks)
  = tabulate (fun x => if mem x ls then c else f x) ks.
Proof.
  intros Hnd. revert f. induction ls as [|l ls IH]; intros f Hincl; simpl.
  - reflexivity.
  - rewrite set_tabulate; [| assumption | apply Hincl; now left].
    rewrite IH by (intros x Hx; apply Hincl; now right).
    apply tabulate_ext. intros x Hx.
    destruct (String.eqb_spec x l); [|reflexivity].
    now destruct (mem x ls).
Qed.

Lemma for_each_app {A S : Type} (body : S -> A -> result S)
  (xs ys : list A) (s : S) :
  for_each body (xs ++ ys) s = (s' <- for_each body xs s ;; for_each body ys s').
Proof.
  revert s. induction xs as [|x xs IH]; intros s; simpl; [reflexivity|].
  destruct (body s x); simpl; [apply IH | reflexivity].
Qed.

Lemma for_each_ext {A S : Type} (f g : S -> A -> result S) (xs : list A)
  (s : S) :
  (forall s x, In x xs -> f s x = g s x) -> for_each f xs s = for_each g xs s.
Proof.
  revert s. induction xs as [|x xs IH]; intros s H; simpl; [reflexivity|].
  rewrite H by now left. destruct (g s x); simpl; [|reflexivity].
  apply IH. intros. apply H. now right.
Qed.

(** Loop invariants: preservation, and progress with preservation. *)
Lemma for_each_inv {A S : Type} (P : S -> Prop) (body : S -> A -> result S)
  (xs : list A) (s s1 : S) :
  (forall s x s', In x xs -> P s -> body s x = Ok s' -> P s') ->
  P s -> for_each body xs s = Ok s1 -> P s1.
Proof.
  revert s. induction xs as [|x xs IH]; intros s Hstep HP; simpl.
  - intros [= <-]. exact HP.
  - destruct (body s x) as [s'|e] eqn:Hb; simpl; [|discriminate].
    apply IH.
    + intros. eapply Hstep; eauto. now right.
    + eapply Hstep; eauto. now left.
Qed.

Lemma for_each_total {A S : Type} (P : S -> Prop) (body : S -> A -> result S)
  (xs : list A) (s : S) :
  (forall s x, In x xs -> P s -> exists s', body s x = Ok s' /\ P s') ->
  P s -> exists s1, for_each body xs s = Ok s1 /\ P s1.
Proof.
  revert s. induction xs as [|x xs IH]; intros s Hstep HP; simpl.
  - now exists s.
  - destruct (Hstep s x) as [s' [Hb HP']]; [now left | assumption |].
    rewrite Hb. simpl. apply IH; [|assumption].
    intros. apply Hstep; [now right | assumption].
Qed.

Lemma len_cons {A : Type} (x : A) (l : list A) : len (x :: l) == 1 + len l.
Proof.
  unfold len. simpl List.length. rewrite Nat2Z.inj_succ.
  unfold Z.succ. rewrite inject_Z_plus. ring.
Qed.

Lemma len_nonneg {A : Type} (l : list A) : 0 <= len l.
Proof.
  unfold len. change 0 with (inject_Z 0). rewrite <- Zle_Qle. lia.
Qed.

Lemma len_pos {A : Type} (l : list A) : l <> [] -> 0 < len l.
Proof.
  destruct l as [|a l]; [congruence|]. intros _.
  pose proof (len_nonneg l) as H. pose proof (len_cons a l) as H'. lra.
Qed.

Lemma len_eq {A B : Type} (l : list A) (l' : list B) :
  List.length l = List.length l' -> len l = len l'.
Proof. unfold len. now intros ->. Qed.

Lemma Qsum_app (l l' : list Q) : Qsum (l ++ l') == Qsum l + Qsum l'.
Proof.
  induction l as [|x l IH]; simpl; [ring | rewrite IH; ring].
Qed.

Lemma Qsum_const_filter {A : Type} (p : A -> bool) (c b : Q) (l : list A) :
  Qsum (map (fun x => (if p x then c else 0) + b) l)
  == c * len (filter p l) + b * len l.
Proof.
  induction l as [|x l IH]; simpl.
  - unfold len. simpl. ring.
  - rewrite IH. pose proof (len_cons x l) as Hl.
    destruct (p x).
    + pose proof (len_cons x (filter p l)) as Hf. rewrite Hl, Hf. ring.
    + rewrite Hl. ring.
Qed.

Lemma filter_mem_length (ks ls : list string) :
  NoDup ks -> NoDup ls -> incl ls ks ->
  List.length (filter (fun x => mem x ls) ks) = List.length ls.
Proof.
  intros Hk Hl Hincl. apply Permutation_length, NoDup_Permutation.
  - now apply NoDup_filter.
  - assumption.
  - intros x. rewrite filter_In, mem_In. split; [tauto|]. intros H. split; auto.
Qed.

Lemma Qsum_perm (l l' : list Q) : Permutation l l' -> Qsum l == Qsum l'.
Proof.
  induction 1; simpl; try lra.
Qed.

Lemma Qsum_map_ext {A : Type} (f g : A -> Q) (l : list A) :
  (forall x, In x l -> f x == g x) -> Qsum (map f l) == Qsum (map g l).
Proof.
  induction l as [|x l IH]; intros H; simpl; [reflexivity|].
  rewrite (H x) by now left. rewrite IH; [reflexivity|].
  intros y Hy. apply H. now right.
Qed.

Lemma Qsum_flat_map {A B : Type} (F : B -> Q) (f : A -> list B) (l : list A) :
  Qsum (map F (flat_map f l)) == Qsum (map (fun a => Qsum (map F (f a))) l).
Proof.
  induction l as [|x l IH]; simpl; [reflexivity|].
  rewrite map_app, Qsum_app, IH. reflexivity.
Qed.

Lemma Qsum_scale_r {A : Type} (c : Q) (f : A -> Q) (l : list A) :
  Qsum (map (fun x => f x * c) l) == Qsum (map f l) * c.
Proof.
  induction l as [|x l IH]; simpl; [ring | rewrite IH; ring].
Qed.

Lemma Qsum_scale_l {A : Type} (c : Q) (f : A -> Q) (l : list A) :
  Qsum (map (fun x => c * f x) l) == c * Qsum (map f l).
Proof.
  induction l as [|x l IH]; simpl; [ring | rewrite IH; ring].
Qed.

Lemma NoDup_app_disjoint {A : Type} (l l' : list A) (a : A) :
  NoDup (l ++ l') -> In a l -> ~ In a l'.
Proof.
  induction l as [|x l IH]; simpl; [tauto|].
  intros Hnd [->|Hin] Hin'.
  - inversion Hnd as [|? ? Hnot _]; subst. apply Hnot, in_or_app. now right.
  - inversion Hnd; subst. now apply IH.
Qed.

Lemma NoDup_map_inj {A B : Type} (f : A -> B) (l : list A) :
  (forall a b, In a l -> In b l -> f a = f b -> a = b) ->
  NoDup l -> NoDup (map f l).
Proof.
  induction l as [|x l IH]; intros Hinj Hnd; simpl; [constructor|].
  inversion Hnd as [|? ? Hnot Hnd']; subst. constructor.
  - intros H. apply in_map_iff in H. destruct H as [y [Hy Hin]].
    apply Hnot. rewrite <- (Hinj y x); auto; [now right | now left].
  - apply IH; [|assumption].
    intros a b Ha Hb. apply Hinj; now right.
Qed.

Lemma NoDup_flat_map {A B : Type} (f : A -> list B) (l : list A) :
  NoDup l ->
  (forall a, In a l -> NoDup (f a)) ->
  (forall a a' b, In a l -> In a' l -> In b (f a) -> In b (f a') -> a = a') ->
  NoDup (flat_map f l).
Proof.
  induction l as [|x l IH]; intros Hnd Hf Htag; simpl; [constructor|].
  inversion Hnd as [|? ? Hnot Hnd']; subst.
  apply NoDup_app.
  - apply Hf. now left.
  - apply IH; [assumption | |].
    + intros a Ha. apply Hf. now right.
    + intros a a' b Ha Ha'. apply Htag; now right.
  - intros b Hb Hb'. apply in_flat_map in Hb'. destruct Hb' as [a [Ha Hba]].
    apply Hnot. rewrite (Htag x a b); auto; [now left | now right].
Qed.

End PyFacts.

(** ** pagerank.py: the transition model *)

Module PagerankProofs.

Import PyFacts Pagerank.

Lemma Qsum_const {A : Type} (b : Q) (l : list A) :
  Qsum (map (fun _ => b) l) == b * len l.
Proof.
  induction l as [|x l IH]; simpl.
  - unfold len. simpl. ring.
  - rewrite IH. pose proof (len_cons x l) as Hl. rewrite Hl. ring.
Qed.

Lemma values_tabulate {V : Type} (f : string -> V) (ks : list string) :
  values (tabulate f ks) = map f ks.
Proof.
  unfold values, tabulate. rewrite map_map. reflexivity.
Qed.

Lemma len_keys {V : Type} (d : dict V) : len (keys d) = len d.
Proof. apply len_eq. unfold keys. apply length_map. Qed.

Lemma wf_get (corpus : corpus_t) (page : string) :
  wf_corpus corpus -> In page (keys corpus) ->
  exists links, get corpus page = Ok links /\ In (page, links) corpus.
Proof.
  intros _ Hin. destruct (in_keys_get corpus page Hin) as [links Hg].
  exists links. split; [assumption | now apply get_ok_in].
Qed.

(** A loop that rewrites the value of every page of [ls] by [op]. *)
Lemma update_each_tabulate (op : Q -> Q) (ks ls : list string)
  (f : string -> Q) :
  NoDup ks -> NoDup ls -> incl ls ks ->
  for_each (fun m new_page =>
              v <- get m new_page ;; Ok (set new_page (op v) m))
    ls (tabulate f ks)
  = Ok (tabulate (fun x => if mem x ls then op (f x) else f x) ks).
Proof.
  intros Hk. revert f. induction ls as [|l ls IH]; intros f Hl Hincl; simpl.
  - reflexivity.
  - inversion Hl as [|? ? Hnot Hl']; subst.
    assert (Hin : In l ks) by (apply Hincl; now left).
    rewrite get_tabulate by assumption. simpl.
    rewrite set_tabulate by assumption.
    rewrite IH; [| assumption | intros x Hx; apply Hincl; now right].
    f_equal. apply tabulate_ext. intros x Hx.
    destruct (String.eqb_spec x l) as [->|Hne]; [|reflexivity].
    apply mem_false in Hnot. now rewrite Hnot.
Qed.

Lemma transition_model_closed (corpus : corpus_t) (page : string) (d : Q)
  (links : list string) :
  wf_corpus corpus -> get corpus page = Ok links ->
  transition_model corpus page d = Ok (model_of corpus links).
Proof.
  intros [Hnd Hwf] Hget. unfold transition_model, model_of.
  rewrite Hget. simpl.
  destruct (Hwf page links (get_ok_in _ _ _ Hget)) as [Hl Hincl].
  rewrite (fold_set_init (fun _ => 0)) by assumption.
  destruct (Nat.eqb_spec (List.length links) 0) as [H0|H0]; simpl.
  - rewrite fold_set_tabulate by (assumption || apply incl_refl).
    f_equal. apply tabulate_ext. intros x Hx.
    apply mem_In in Hx. now rewrite Hx.
  - rewrite fold_set_tabulate by assumption.
    rewrite (update_each_tabulate (fun v => v + (1 - DAMPING) / len corpus))
      by (assumption || apply incl_refl).
    f_equal. apply tabulate_ext. intros x Hx.
    apply mem_In in Hx. now rewrite Hx.
Qed.

(** The argument [damping_factor] has no influence on the result. *)
Lemma transition_model_ignores_damping (corpus : corpus_t) (page : string)
  (d d' : Q) :
  transition_model corpus page d = transition_model corpus page d'.
Proof. reflexivity. Qed.

Lemma model_of_sum (corpus : corpus_t) (page : string) (links : list string) :
  wf_corpus corpus -> In (page, links) corpus ->
  Qsum (values (model_of corpus links)) == 1.
Proof.
  intros [Hnd Hwf] Hin. destruct (Hwf page links Hin) as [Hl Hincl].
  assert (Hpos : 0 < len corpus).
  { apply len_pos. intros ->. destruct Hin. }
  unfold model_of. rewrite values_tabulate.
  destruct (Nat.eqb_spec (List.length links) 0) as [H0|H0].
  - rewrite Qsum_const, len_keys. field. lra.
  - rewrite Qsum_const_filter, len_keys.
    rewrite (len_eq (filter (fun x => mem x links) (keys corpus)) links)
      by now apply filter_mem_length.
    assert (Hlp : 0 < len links).
    { apply len_pos. intros ->. now apply H0. }
    field. split; lra.
Qed.

(** C9: for a corpus that satisfies the corpus invariant and any page of
    it, [transition_model] returns a distribution over exactly the pages of
    the corpus whose values sum to 1, whatever damping factor is passed; the
    page may have outgoing links or none. *)
Theorem transition_model_sums_to_one (corpus : corpus_t) (page : string)
  (damping_factor : Q) :
  wf_corpus corpus -> In page (keys corpus) ->
  exists model,
    transition_model corpus page damping_factor = Ok model /\
    keys model = keys corpus /\
    Qsum (values model) == 1.
Proof.
  intros Hwf Hin. destruct (wf_get corpus page Hwf Hin) as [links [Hg Hl]].
  exists (model_of corpus links). split; [|split].
  - now apply transition_model_closed.
  - unfold model_of. apply keys_tabulate.
  - eapply model_of_sum; eauto.
Qed.

Lemma wf_ex_pair : wf_corpus ex_pair.
Proof.
  split.
  - simpl. repeat constructor; simpl; intuition discriminate.
  - intros p ls H. simpl in H.
    destruct H as [H|[H|[]]]; injection H as <- <-; split;
      try (repeat constructor; simpl; intuition discriminate);
      intros q [<-|[]]; simpl; auto.
Qed.

Lemma wf_ex_chain : wf_corpus ex_chain.
Proof.
  split.
  - simpl. repeat constructor; simpl; intuition discriminate.
  - intros p ls H. simpl in H.
    destruct H as [H|[H|[]]]; injection H as <- <-; split;
      try (repeat constructor; simpl; intuition discriminate);
      simpl; intuition (subst; auto).
Qed.

(** The theorem at a page with a link ([ex_pair]) and at a dangling page
    ([ex_chain]). *)
Lemma transition_model_sums_to_one_witness :
  (exists model,
      transition_model ex_pair "1.html" (85 # 100) = Ok model /\
      keys model = keys ex_pair /\ Qsum (values model) == 1) /\
  (exists model,
      transition_model ex_chain "2.html" (85 # 100) = Ok model /\
      keys model = keys ex_chain /\ Qsum (values model) == 1).
Proof.
  split.
  - apply (transition_model_sums_to_one ex_pair "1.html" (85 # 100)).
    + exact wf_ex_pair.
    + simpl. auto.
  - apply (transition_model_sums_to_one ex_chain "2.html" (85 # 100)).
    + exact wf_ex_chain.
    + simpl. auto.
Defined.

(** C3: with damping factor 1/2, page "1.html" of [ex_pair] has one link, to
    "2.html"; the specification gives "2.html" the probability 1/2 + (1/2)/2 = 3/4,
    the program gives 0.85 + 0.15/2 = 37/40, as it does for every damping
    factor. *)
Theorem transition_model_uses_constant :
  exists model v,
    transition_model ex_pair "1.html" (1 # 2) = Ok model /\
    get model "2.html" = Ok v /\
    v == 37 # 40 /\
    ~ v == (1 # 2) / 1 + (1 - (1 # 2)) / 2 /\
    transition_model ex_pair "1.html" (1 # 2)
    = transition_model ex_pair "1.html" DAMPING.
Proof.
  eexists. eexists. split; [|split; [|split; [|split]]].
  - vm_compute. reflexivity.
  - vm_compute. reflexivity.
  - reflexivity.
  - intros H. vm_compute in H. discriminate.
  - reflexivity.
Qed.

(** X3: What the program computes: with the constant 0.85 in the place of the
    damping factor, a linked page gets 0.85/k + 0.15/N, a page that is not
    linked 0.15/N, and every page 1/N when the current page has no links. *)
Lemma transition_model_values (corpus : corpus_t) (page : string) (d : Q)
  (links : list string) (x : string) :
  wf_corpus corpus -> get corpus page = Ok links -> In x (keys corpus) ->
  exists model,
    transition_model corpus page d = Ok model /\
    get model x
    = Ok (if Nat.eqb (List.length links) 0 then 1 / len corpus
          else (if mem x links then DAMPING / len links else 0)
               + (1 - DAMPING) / len corpus).
Proof.
  intros Hwf Hget Hx. exists (model_of corpus links). split.
  - now apply transition_model_closed.
  - unfold model_of. now rewrite get_tabulate.
Qed.

(** ** pagerank.py: the sampler *)

Lemma fold_append {A : Type} (ks acc : list A) :
  fold_left (fun l page => l ++ [page]) ks acc = acc ++ ks.
Proof.
  revert acc. induction ks as [|k ks IH]; intros acc; simpl.
  - now rewrite app_nil_r.
  - rewrite IH, <- app_assoc. reflexivity.
Qed.

Lemma collect_values (m : dict Q) (f : string -> Q) (ls : list string)
  (acc : list Q) :
  (forall p, In p ls -> get m p = Ok (f p)) ->
  for_each (fun prob page2 => v <- get m page2 ;; Ok (prob ++ [v])) ls acc
  = Ok (acc ++ map f ls).
Proof.
  revert acc. induction ls as [|l ls IH]; intros acc H; simpl.
  - now rewrite app_nil_r.
  - rewrite H by now left. simpl.
    rewrite IH by (intros; apply H; now right).
    now rewrite <- app_assoc.
Qed.

Lemma length_accumulate (acc : Q) (ws : list Q) :
  List.length (accumulate acc ws) = List.length ws.
Proof.
  revert acc. induction ws as [|w ws IH]; intros acc; simpl;
    [reflexivity | now rewrite IH].
Qed.

Lemma last_accumulate (acc : Q) (ws : list Q) :
  ws <> [] -> last (accumulate acc ws) 0 == acc + Qsum ws.
Proof.
  revert acc. induction ws as [|w ws IH]; intros acc Hne; [congruence|].
  destruct ws as [|w' ws].
  - simpl. ring.
  - change (last (accumulate acc (w :: w' :: ws)) 0)
      with (last (accumulate (acc + w) (w' :: ws)) 0).
    rewrite IH by discriminate. simpl. ring.
Qed.

Lemma bisect_le (cum : list Q) (x : Q) (hi : nat) : (bisect cum x hi <= hi)%nat.
Proof.
  revert cum. induction hi as [|hi IH]; intros [|c cum]; simpl; try lia.
  destruct (Qlt_le_dec x c); [lia|]. specialize (IH cum). lia.
Qed.

Lemma random_choices_in (population : list string) (weights : list Q) (u : Q) :
  population <> [] ->
  List.length weights = List.length population ->
  0 < Qsum weights ->
  exists page, random_choices population weights u = Ok page /\
               In page population.
Proof.
  intros Hne Hlen Hpos. unfold random_choices.
  rewrite length_accumulate, Hlen, Nat.eqb_refl. simpl.
  destruct population as [|a population]; [congruence|].
  assert (Hw : weights <> []) by (intros ->; discriminate).
  pose proof (last_accumulate 0 weights Hw) as Hlast.
  destruct (Qle_bool (last (accumulate 0 weights) 0) 0) eqn:E.
  - apply Qle_bool_iff in E. lra.
  - eexists. split; [reflexivity|]. apply nth_In.
    pose proof (bisect_le (accumulate 0 weights)
                  (u * last (accumulate 0 weights) 0)
                  (List.length (a :: population) - 1)).
    simpl in *. lia.
Qed.

Lemma Qsum_values_set (d : dict Q) (k : string) (c v : Q) :
  get d k = Ok c -> Qsum (values (set k v d)) == Qsum (values d) - c + v.
Proof.
  induction d as [|[k' v'] d IH]; simpl; [discriminate|].
  destruct (String.eqb_spec k k') as [->|Hne].
  - intros [= ->]. simpl. ring.
  - intros H. simpl. rewrite IH by assumption. ring.
Qed.

Lemma dict_as_tabulate (d : dict Q) :
  NoDup (keys d) ->
  d = tabulate (fun k => match get d k with Ok v => v | Raise _ => 0 end)
        (keys d).
Proof.
  induction d as [|[k v] d IH]; intros Hnd; simpl; [reflexivity|].
  simpl in Hnd. inversion Hnd as [|? ? Hnot Hnd']; subst.
  rewrite String.eqb_refl. f_equal.
  rewrite IH at 1 by assumption. apply tabulate_ext. intros x Hx.
  destruct (String.eqb_spec x k); [congruence | reflexivity].
Qed.

Lemma sample_step_ok (corpus : corpus_t) (d : Q) (r : rng) (page : string)
  (page_rank : dict Q) (i : nat) :
  wf_corpus corpus -> In page (keys corpus) ->
  keys page_rank = keys corpus ->
  exists page' page_rank',
    sample_step corpus d (keys corpus) r (page, page_rank) i
    = Ok (page', page_rank') /\
    In page' (keys corpus) /\
    keys page_rank' = keys corpus /\
    Qsum (values page_rank') == Qsum (values page_rank) + 1.
Proof.
  intros Hwf Hpage Hkeys.
  destruct (wf_get corpus page Hwf Hpage) as [links [Hget Hin]].
  unfold sample_step.
  rewrite (transition_model_closed corpus page d links Hwf Hget). simpl.
  unfold model_of at 1.
  rewrite (collect_values _ _ (keys corpus) [])
    by (intros p Hp; now apply get_tabulate).
  simpl.
  destruct (random_choices_in (keys corpus)
              (map (fun x =>
                      if Nat.eqb (List.length links) 0 then 1 / len corpus
                      else (if mem x links then DAMPING / len links else 0)
                           + (1 - DAMPING) / len corpus) (keys corpus))
              (r (S i))) as [page' [Hch Hin']].
  - intros H. rewrite H in Hpage. destruct Hpage.
  - apply length_map.
  - pose proof (model_of_sum corpus page links Hwf Hin) as Hs.
    unfold model_of in Hs. rewrite values_tabulate in Hs. rewrite Hs.
    reflexivity.
  - rewrite Hch. simpl.
    destruct (in_keys_get page_rank page') as [c Hc]; [now rewrite Hkeys|].
    rewrite Hc. simpl. exists page', (set page' (c + 1) page_rank).
    split; [reflexivity|]. split; [assumption|]. split.
    + rewrite keys_set_in; [assumption | now rewrite Hkeys].
    + rewrite (Qsum_values_set _ _ c) by assumption. ring.
Qed.

Lemma sample_loop_ok (corpus : corpus_t) (d : Q) (r : rng) (steps : list nat)
  (page : string) (page_rank : dict Q) :
  wf_corpus corpus -> In page (keys corpus) ->
  keys page_rank = keys corpus ->
  exists st,
    for_each (sample_step corpus d (keys corpus) r) steps (page, page_rank)
    = Ok st /\
    keys (snd st) = keys corpus /\
    Qsum (values (snd st)) == Qsum (values page_rank) + len steps.
Proof.
  intros Hwf. revert page page_rank.
  induction steps as [|i steps IH]; intros page page_rank Hpage Hkeys.
  - exists (page, page_rank). split; [reflexivity|]. split; [assumption|].
    unfold len. simpl. ring.
  - destruct (sample_step_ok corpus d r page page_rank i Hwf Hpage Hkeys)
      as [page' [pr' [Hstep [Hin' [Hk' Hsum']]]]].
    destruct (IH page' pr' Hin' Hk') as [st [Hrest [Hk Hsum]]].
    exists st. cbn [for_each]. rewrite Hstep. simpl. split; [assumption|].
    split; [assumption|].
    rewrite Hsum, Hsum'. pose proof (len_cons i steps) as Hl. rewrite Hl. ring.
Qed.

Lemma random_choice_in {A : Type} (seq : list A) (u : Q) :
  seq <> [] -> exists a, random_choice seq u = Ok a /\ In a seq.
Proof.
  destruct seq as [|a0 seq]; [congruence|]. intros _.
  eexists. split; [reflexivity|]. apply nth_In. simpl. lia.
Qed.

(** The sampling half of C6: for a non-empty corpus that satisfies the
    invariant, any number of samples [n >= 1] and any stream of random
    draws, [sample_pagerank] returns a rank for every page and the ranks sum
    to 1 exactly. *)
Theorem sample_pagerank_sums_to_one (corpus : corpus_t) (d : Q) (n : nat)
  (r : rng) :
  wf_corpus corpus -> corpus <> [] -> (1 <= n)%nat ->
  exists ranks,
    sample_pagerank corpus d n r = Ok ranks /\
    keys ranks = keys corpus /\
    Qsum (values ranks) == 1.
Proof.
  intros Hwf Hne Hn. pose proof Hwf as [Hnd _]. unfold sample_pagerank.
  rewrite (fold_set_init (fun _ => 0)) by assumption.
  rewrite fold_append. simpl app.
  destruct (random_choice_in corpus (r O) Hne) as [item [Hrc Hin]].
  rewrite Hrc. cbn [bind].
  assert (Hitem : In (fst item) (keys corpus)).
  { unfold keys. now apply in_map. }
  rewrite get_tabulate by assumption. cbn [bind].
  assert (Hfirst : Qsum (values (set (fst item) (0 + 1)
                                   (tabulate (fun _ => 0) (keys corpus))))
                   == 1).
  { rewrite (Qsum_values_set _ _ 0)
      by now apply (get_tabulate (fun _ => 0)).
    rewrite values_tabulate, Qsum_const. ring. }
  rewrite set_tabulate in Hfirst |- * by assumption.
  destruct (sample_loop_ok corpus d r (seq 0 (n - 1)) (fst item)
              (tabulate (fun x => if String.eqb x (fst item) then 0 + 1 else 0)
                 (keys corpus)) Hwf Hitem (keys_tabulate _ _))
    as [[page pr] [Hloop [Hk Hsum]]].
  rewrite Hloop. cbn [bind snd]. simpl snd in Hk, Hsum.
  rewrite (for_each_ext _
             (fun m page0 => v <- get m page0 ;;
                             Ok (set page0 (v / inject_Z (Z.of_nat n)) m))).
  2:{ intros m x _. destruct (Nat.eqb_spec n 0); [lia | reflexivity]. }
  assert (Htotal : Qsum (values pr) == inject_Z (Z.of_nat n)).
  { rewrite Hsum, Hfirst. unfold len. rewrite length_seq.
    replace (Z.of_nat n) with (1 + Z.of_nat (n - 1))%Z by lia.
    rewrite inject_Z_plus. reflexivity. }
  rewrite (dict_as_tabulate pr) in Htotal |- * by now rewrite Hk.
  rewrite keys_tabulate, Hk in *.
  rewrite (update_each_tabulate (fun v => v / inject_Z (Z.of_nat n)))
    by (assumption || apply incl_refl).
  eexists. split; [reflexivity|]. split; [apply keys_tabulate|].
  rewrite values_tabulate in *.
  rewrite (Qsum_map_ext _
             (fun x => match get pr x with Ok v => v | Raise _ => 0 end
                       * / inject_Z (Z.of_nat n))).
  2:{ intros x Hx. apply mem_In in Hx. rewrite Hx. reflexivity. }
  rewrite Qsum_scale_r, Htotal. field.
  change 0 with (inject_Z 0). rewrite inject_Z_injective. lia.
Qed.

(** ** pagerank.py: the inverted link relation *)

Lemma in_set_add (p x : string) (s : list string) :
  In p (set_add x s) -> In p s \/ p = x.
Proof.
  unfold set_add. destruct (mem x s); [auto|].
  intros H. apply in_app_or in H. destruct H as [H|[H|[]]]; auto.
Qed.

Lemma in_keys_set {V : Type} (d : dict V) (k x : string) (v : V) :
  In x (keys (set k v d)) <-> x = k \/ In x (keys d).
Proof.
  induction d as [|[k' v'] d IH]; simpl.
  - intuition congruence.
  - destruct (String.eqb_spec k k') as [->|Hne]; simpl.
    + intuition congruence.
    + rewrite IH. intuition congruence.
Qed.

Lemma in_keys_fold_set {V : Type} (c : V) (ks : list string) (d : dict V)
  (x : string) :
  In x (keys (fold_left (fun m k => set k c m) ks d))
  <-> In x ks \/ In x (keys d).
Proof.
  revert d. induction ks as [|k ks IH]; intros d; simpl.
  - tauto.
  - rewrite IH, in_keys_set. intuition congruence.
Qed.

Lemma get_fold_set {V : Type} (c : V) (ks : list string) (d : dict V)
  (q : string) (v : V) :
  get (fold_left (fun m k => set k c m) ks d) q = Ok v ->
  v = c \/ get d q = Ok v.
Proof.
  revert d. induction ks as [|k ks IH]; intros d; simpl; [auto|].
  intros H. apply IH in H. destruct H as [H|H]; [auto|].
  destruct (String.eqb_spec k q) as [->|Hne].
  - rewrite get_set_same in H. left. congruence.
  - rewrite get_set_other in H by assumption. auto.
Qed.

Lemma build_page_link_sound (corpus : corpus_t) (pl : dict (list string)) :
  build_page_link corpus = Ok pl -> parents_link corpus pl.
Proof.
  unfold build_page_link. apply for_each_inv.
  - intros s page s' _ HP Hbody.
    destruct (get corpus page) as [links|] eqn:Hlinks; simpl in Hbody;
      [|discriminate].
    revert Hbody. apply for_each_inv; [|exact HP].
    clear s s' HP. intros s page2 s' Hin2 HP Hstep.
    destruct (get s page2) as [s0|] eqn:Hs0; simpl in Hstep; [|discriminate].
    injection Hstep as <-. intros q parents p Hq Hp.
    destruct (String.eqb_spec page2 q) as [->|Hne].
    + rewrite get_set_same in Hq. injection Hq as <-.
      apply in_set_add in Hp. destruct Hp as [Hp| ->].
      * eapply HP; eauto.
      * exists links. auto.
    + rewrite get_set_other in Hq by assumption. eapply HP; eauto.
  - intros q parents p Hq Hp. apply get_fold_set in Hq.
    destruct Hq as [->|Hq]; [destruct Hp | discriminate].
Qed.

Lemma build_page_link_total (corpus : corpus_t) :
  wf_corpus corpus -> exists pl, build_page_link corpus = Ok pl.
Proof.
  intros [Hnd Hwf]. unfold build_page_link.
  set (K := fun pl : dict (list string) =>
              forall k, In k (keys corpus) -> In k (keys pl)).
  destruct (for_each_total K
              (fun pl page =>
                 links <- get corpus page ;;
                 for_each (fun pl page2 =>
                             s <- get pl page2 ;;
                             Ok (set page2 (set_add page s) pl))
                   links pl)
              (keys corpus)
              (fold_left (fun m page => set page [] m) (keys corpus) []))
    as [pl [Hpl _]].
  - intros s page Hpage HK.
    destruct (in_keys_get corpus page Hpage) as [links Hlinks].
    rewrite Hlinks. simpl.
    destruct (Hwf page links (get_ok_in _ _ _ Hlinks)) as [_ Hincl].
    apply for_each_total; [|exact HK].
    intros s0 page2 Hin2 HK0.
    destruct (in_keys_get s0 page2 (HK0 _ (Hincl _ Hin2))) as [ps Hps].
    rewrite Hps. simpl. eexists. split; [reflexivity|].
    intros k Hk. apply in_keys_set. right. now apply HK0.
  - intros k Hk. apply in_keys_fold_set. now left.
  - now exists pl.
Qed.

Lemma parent_sum_get_ext (corpus : corpus_t) (n : Q) (r r' : dict Q)
  (parents : list string) :
  (forall p, In p parents -> get r p = get r' p) ->
  parent_sum corpus n r parents = parent_sum corpus n r' parents.
Proof.
  intros H. unfold parent_sum. apply for_each_ext.
  intros s p Hp. now rewrite H.
Qed.

(** C10: whenever [iterate_pagerank] gets past the construction of
    [page_link] (which it does for every corpus satisfying the invariant),
    each page [p] recorded in [page_link[q]] has [q] among its links, hence
    at least one outgoing link; so the parent loop never takes the
    zero-out-degree branch (it computes the same sum as the loop without that
    branch), a page without links is a parent of no page, and no new rank
    depends on the rank a page without links holds. *)
Theorem dangling_branch_unreachable (corpus : corpus_t) :
  (wf_corpus corpus -> exists pl, build_page_link corpus = Ok pl) /\
  forall page_link, build_page_link corpus = Ok page_link ->
    (forall q parents p, get page_link q = Ok parents -> In p parents ->
       exists links,
         get corpus p = Ok links /\ In q links /\ (1 <= List.length links)%nat) /\
    (forall q parents n page_rank, get page_link q = Ok parents ->
       parent_sum corpus n page_rank parents
       = parent_sum_linked corpus page_rank parents) /\
    (forall q parents p, get page_link q = Ok parents ->
       get corpus p = Ok [] -> ~ In p parents) /\
    (forall q p d n page_rank v, get corpus p = Ok [] ->
       new_rank_of corpus page_link d n (set p v page_rank) q
       = new_rank_of corpus page_link d n page_rank q).
Proof.
  split; [apply build_page_link_total|].
  intros pl Hbuild. pose proof (build_page_link_sound corpus pl Hbuild) as HS.
  assert (Hdang : forall q parents p, get pl q = Ok parents ->
                    get corpus p = Ok [] -> ~ In p parents).
  { intros q parents p Hq Hp Hin.
    destruct (HS q parents p Hq Hin) as [links [Hl Hql]].
    rewrite Hp in Hl. injection Hl as <-. destruct Hql. }
  split; [|split; [|split]].
  - intros q parents p Hq Hp.
    destruct (HS q parents p Hq Hp) as [links [Hl Hin]].
    exists links. repeat split; try assumption.
    destruct links; [destruct Hin | simpl; lia].
  - intros q parents n page_rank Hq.
    unfold parent_sum, parent_sum_linked. apply for_each_ext.
    intros s p Hp. destruct (HS q parents p Hq Hp) as [links [Hl Hin]].
    rewrite Hl. simpl. destruct links; [destruct Hin | reflexivity].
  - exact Hdang.
  - intros q p d n page_rank v Hp. unfold new_rank_of.
    destruct (get pl q) as [parents|] eqn:Hq; simpl; [|reflexivity].
    rewrite (parent_sum_get_ext corpus n (set p v page_rank) page_rank);
      [reflexivity|].
    intros x Hx. apply get_set_other. intros ->.
    exact (Hdang q parents x Hq Hp Hx).
Qed.

(** The theorem on [ex_chain], whose page "2.html" has no links. *)
Lemma dangling_branch_unreachable_witness :
  exists pl,
    build_page_link ex_chain = Ok pl /\
    (forall q parents p, get pl q = Ok parents -> In p parents ->
       exists links,
         get ex_chain p = Ok links /\ In q links /\ (1 <= List.length links)%nat) /\
    (forall q d n page_rank v,
       new_rank_of ex_chain pl d n (set "2.html" v page_rank) q
       = new_rank_of ex_chain pl d n page_rank q).
Proof.
  destruct (dangling_branch_unreachable ex_chain) as [_ H].
  exists [("1.html", []); ("2.html", ["1.html"])].
  specialize (H [("1.html", []); ("2.html", ["1.html"])] eq_refl).
  destruct H as [H1 [_ [_ H4]]].
  split; [reflexivity|]. split; [exact H1|].
  intros q d n page_rank v. apply H4. reflexivity.
Defined.

(** ** pagerank.py: the sweep *)

#[local] Arguments sweep_step : simpl never.

Lemma sweep_step_inv (corpus : corpus_t) (pl : dict (list string)) (d n : Q)
  (ok ok' : bool) (r r' : dict Q) (page : string) :
  sweep_step corpus pl d n (ok, r) page = Ok (ok', r') ->
  exists v, new_rank_of corpus pl d n r page = Ok v /\ r' = set page v r.
Proof.
  unfold sweep_step.
  destruct (new_rank_of corpus pl d n r page) as [v|]; simpl; [|discriminate].
  destruct (get r page) as [old|]; simpl; [|discriminate].
  intros H. injection H as _ <-. now exists v.
Qed.

(** A run of the loop body leaves the pages it does not visit alone. *)
Lemma sweep_untouched (corpus : corpus_t) (pl : dict (list string)) (d n : Q)
  (xs : list string) (st st' : bool * dict Q) :
  for_each (sweep_step corpus pl d n) xs st = Ok st' ->
  forall p, ~ In p xs -> get (snd st') p = get (snd st) p.
Proof.
  revert st. induction xs as [|x xs IH]; intros [ok r]; simpl.
  - intros [= <-]. reflexivity.
  - destruct (sweep_step corpus pl d n (ok, r) x) as [[ok1 r1]|] eqn:Hstep;
      simpl; [|discriminate].
    intros Hrest p Hp. rewrite (IH _ Hrest) by tauto. simpl.
    apply sweep_step_inv in Hstep. destruct Hstep as [v [_ ->]].
    apply get_set_other. tauto.
Qed.

(** C2, as the program has it: a sweep overwrites the rank dictionary in
    place.  When page [q] is reached, the pages before it in the corpus order
    already hold the ranks they will have at the end of the sweep, the other
    pages still hold the ranks of the previous sweep, and the new rank of [q]
    is computed from that mixed dictionary. *)
Theorem sweep_updates_in_place (corpus : corpus_t) (pl : dict (list string))
  (d n : Q) (rank rank1 rank2 : dict Q) (ok1 ok2 : bool)
  (pre post : list string) (q : string) :
  NoDup (keys corpus) ->
  keys corpus = pre ++ q :: post ->
  for_each (sweep_step corpus pl d n) pre (true, rank) = Ok (ok1, rank1) ->
  sweep corpus pl d n rank = Ok (ok2, rank2) ->
  (forall p, In p pre -> get rank1 p = get rank2 p) /\
  (forall p, ~ In p pre -> get rank1 p = get rank p) /\
  exists v, new_rank_of corpus pl d n rank1 q = Ok v /\ get rank2 q = Ok v.
Proof.
  intros Hnd Hkeys Hpre Hsweep. unfold sweep in Hsweep.
  rewrite Hkeys, for_each_app, Hpre in Hsweep. simpl in Hsweep.
  rewrite Hkeys in Hnd.
  destruct (sweep_step corpus pl d n (ok1, rank1) q) as [[okq rankq]|] eqn:Hq;
    simpl in Hsweep; [|discriminate].
  apply sweep_step_inv in Hq. destruct Hq as [v [Hv ->]].
  pose proof (sweep_untouched _ _ _ _ _ _ _ Hsweep) as Hpost. simpl in Hpost.
  pose proof (sweep_untouched _ _ _ _ _ _ _ Hpre) as Hbefore. simpl in Hbefore.
  assert (Hqpost : ~ In q post).
  { apply NoDup_remove_2 in Hnd. intros H. apply Hnd, in_or_app. now right. }
  split; [|split].
  - intros p Hp.
    assert (Hpq : p <> q).
    { intros ->. apply NoDup_remove_2 in Hnd. apply Hnd, in_or_app. now left. }
    assert (Hppost : ~ In p post).
    { apply NoDup_remove_1 in Hnd. now apply (NoDup_app_disjoint pre post). }
    rewrite Hpost by assumption. symmetry. apply get_set_other. congruence.
  - exact Hbefore.
  - exists v. split; [assumption|].
    rewrite Hpost by assumption. apply get_set_same.
Qed.

(** The theorem on [ex_chain] at its second page: "2.html" is computed from
    the rank "1.html" has just received. *)
Lemma sweep_updates_in_place_witness :
  exists ok1 rank1 ok2 rank2,
    for_each (sweep_step ex_chain ex_chain_links DAMPING 2) ["1.html"]
      (true, ex_chain_rank0) = Ok (ok1, rank1) /\
    sweep ex_chain ex_chain_links DAMPING 2 ex_chain_rank0 = Ok (ok2, rank2) /\
    exists v,
      new_rank_of ex_chain ex_chain_links DAMPING 2 rank1 "2.html" = Ok v /\
      get rank2 "2.html" = Ok v.
Proof.
  assert (H1 : { st | for_each (sweep_step ex_chain ex_chain_links DAMPING 2)
                        ["1.html"] (true, ex_chain_rank0) = Ok st })
    by (eexists; vm_compute; reflexivity).
  assert (H2 : { st | sweep ex_chain ex_chain_links DAMPING 2 ex_chain_rank0
                      = Ok st })
    by (eexists; vm_compute; reflexivity).
  destruct H1 as [[ok1 rank1] H1]. destruct H2 as [[ok2 rank2] H2].
  exists ok1, rank1, ok2, rank2. split; [exact H1|]. split; [exact H2|].
  apply (sweep_updates_in_place ex_chain ex_chain_links DAMPING 2
           ex_chain_rank0 rank1 rank2 ok1 ok2 ["1.html"] [] "2.html").
  - exact (proj1 wf_ex_chain).
  - reflexivity.
  - exact H1.
  - exact H2.
Defined.

(** C2 fails: on [ex_chain] one sweep of the program gives "2.html" the rank
    111/800, read from the rank "1.html" received in the same sweep, where
    the synchronous sweep gives 1/2; and on [ex_three] with damping 1/2 the
    solver's result differs from the double-buffered reference and changes
    when the pages are inserted in the opposite order. *)
Lemma sweep_not_synchronous :
  (exists ok r ok' r' a b,
      sweep ex_chain ex_chain_links DAMPING 2 ex_chain_rank0 = Ok (ok, r) /\
      sync_sweep ex_chain ex_chain_links DAMPING 2 ex_chain_rank0
      = Ok (ok', r') /\
      get r "2.html" = Ok a /\ get r' "2.html" = Ok b /\
      a == 111 # 800 /\ b == 1 # 2) /\
  (exists r s t a b c,
      iterate_pagerank 20 ex_three (1 # 2) = Some (Ok r) /\
      sync_iterate_pagerank 20 ex_three (1 # 2) = Some (Ok s) /\
      iterate_pagerank 20 ex_three_rev (1 # 2) = Some (Ok t) /\
      get r "1.html" = Ok a /\ get s "1.html" = Ok b /\
      get t "1.html" = Ok c /\
      ~ a == b /\ ~ a == c).
Proof.
  split.
  - do 6 eexists. repeat split; try (vm_compute; reflexivity).
  - do 6 eexists.
    split; [vm_compute; reflexivity|].
    split; [vm_compute; reflexivity|].
    split; [vm_compute; reflexivity|].
    split; [vm_compute; reflexivity|].
    split; [vm_compute; reflexivity|].
    split; [vm_compute; reflexivity|].
    split; intros H; vm_compute in H; discriminate.
Qed.

(** C1: on [ex_chain] ("1.html" links to "2.html", which has no links) the
    first sweep gives "1.html" the rank (1-d)/2 = 3/40; the rule of the
    specification adds the share d * rank["2.html"]/2 of the page without
    links and gives 23/80. *)
Theorem sweep_drops_dangling_mass :
  build_page_link ex_chain = Ok ex_chain_links /\
  fold_left (fun m page => set page (1 / len ex_chain) m) (keys ex_chain) []
  = ex_chain_rank0 /\
  exists v w,
    new_rank_of ex_chain ex_chain_links DAMPING 2 ex_chain_rank0 "1.html"
    = Ok v /\
    spec_new_rank ex_chain DAMPING 2 ex_chain_rank0 "1.html" = Ok w /\
    v == 3 # 40 /\ w == 23 # 80 /\ ~ v == w.
Proof.
  split; [reflexivity|]. split; [vm_compute; reflexivity|].
  do 2 eexists.
  split; [vm_compute; reflexivity|].
  split; [vm_compute; reflexivity|].
  split; [vm_compute; reflexivity|].
  split; [vm_compute; reflexivity|].
  intros H; vm_compute in H; discriminate.
Qed.

(** C6: on [ex_chain] with damping 0.85 the iterative solver stops after two
    sweeps with ranks 3/40 and 111/800, whose sum 171/800 is not within
    1e-3 of 1. *)
Theorem iterate_pagerank_sum_not_one :
  exists r,
    iterate_pagerank 2 ex_chain DAMPING = Some (Ok r) /\
    Qsum (values r) == 171 # 800 /\
    1 # 1000 < Qabs (Qsum (values r) - 1).
Proof.
  eexists.
  split; [vm_compute; reflexivity|].
  split; vm_compute; reflexivity.
Qed.

End PagerankProofs.

(** ** heredity.py: the joint probability *)

Module HeredityProofs.

Import PyFacts Heredity.

Lemma mem_reflect (s : list string) (p : string) (b : bool) (P : Prop) :
  (In p s <-> P) -> (P <-> b = true) -> mem p s = b.
Proof.
  intros H1 H2. apply eq_true_iff_eq. rewrite mem_In. tauto.
Qed.

Lemma person_prob_spec (one_gene two_genes have_trait : list string)
  (g : string -> nat) (t : string -> bool) (person : string) (rec : person_t) :
  (mother rec = None <-> father rec = None) ->
  (forall p, In p one_gene <-> g p = 1%nat) ->
  (forall p, In p two_genes <-> g p = 2%nat) ->
  (forall p, In p have_trait <-> t p = true) ->
  person_prob one_gene two_genes have_trait person rec
  == spec_gene_factor g person rec * spec_trait_factor g t person.
Proof.
  intros Hpair Hone Htwo Htrait.
  assert (M1 : forall p, mem p one_gene = Nat.eqb (g p) 1).
  { intros p. apply (mem_reflect _ _ _ _ (Hone p)). now rewrite Nat.eqb_eq. }
  assert (M2 : forall p, mem p two_genes = Nat.eqb (g p) 2).
  { intros p. apply (mem_reflect _ _ _ _ (Htwo p)). now rewrite Nat.eqb_eq. }
  assert (M3 : forall p, mem p have_trait = t p).
  { intros p. apply (mem_reflect _ _ _ _ (Htrait p)). tauto. }
  unfold person_prob, spec_gene_factor, spec_trait_factor, gene_in, opt_mem.
  rewrite M3.
  destruct (mother rec) as [m|] eqn:Hm.
  - destruct (father rec) as [f|] eqn:Hf.
    + rewrite !M1, !M2.
      destruct (g m) as [|[|[|?]]]; destruct (g f) as [|[|[|?]]];
        destruct (g person) as [|[|[|?]]]; simpl; reflexivity.
    + exfalso. destruct Hpair as [_ H]. specialize (H eq_refl). discriminate.
  - rewrite !M1, !M2.
    destruct (g person) as [|[|[|?]]]; simpl; reflexivity.
Qed.

Lemma joint_fold_spec (one_gene two_genes have_trait : list string)
  (g : string -> nat) (t : string -> bool) (people : people_t) (a : Q) :
  (forall person rec, In (person, rec) people ->
     person_prob one_gene two_genes have_trait person rec
     == spec_gene_factor g person rec * spec_trait_factor g t person) ->
  fold_left (fun final_prob '(person, rec) =>
               final_prob * person_prob one_gene two_genes have_trait person rec)
    people a
  == a * spec_joint people g t.
Proof.
  revert a. induction people as [|[person rec] people IH]; intros a H; simpl.
  - ring.
  - rewrite IH by (intros; apply H; now right).
    rewrite (H person rec) by now left. ring.
Qed.

(** C4: when the sets [one_gene], [two_genes] and [have_trait] represent a
    gene assignment [g] and a trait assignment [t] (so the two gene sets are
    disjoint) and parents are recorded in pairs, [joint_probability] is the
    product over all persons of the gene factor and the trait factor of the
    specification: the prior for a person without parents, the combination
    of the parents' transmission probabilities [pass] otherwise, times the
    conditional probability of the trait given the gene count. *)
Theorem joint_probability_spec (people : people_t)
  (one_gene two_genes have_trait : list string)
  (g : string -> nat) (t : string -> bool) :
  parents_paired people ->
  (forall p, In p one_gene <-> g p = 1%nat) ->
  (forall p, In p two_genes <-> g p = 2%nat) ->
  (forall p, In p have_trait <-> t p = true) ->
  joint_probability people one_gene two_genes have_trait
  == spec_joint people g t.
Proof.
  intros Hpair Hone Htwo Htrait. unfold joint_probability.
  rewrite (joint_fold_spec one_gene two_genes have_trait g t).
  - ring.
  - intros person rec Hin. apply person_prob_spec; auto.
    exact (Hpair person rec Hin).
Qed.

Lemma ex_family_paired : parents_paired ex_family.
Proof.
  intros person rec H. simpl in H.
  destruct H as [H|[H|[H|[]]]]; injection H as <- <-; simpl;
    split; intros; (discriminate || reflexivity).
Qed.

(** The theorem on the family of three, in the world where Harry has one
    copy, James two copies and the trait, and Lily neither. *)
Lemma joint_probability_spec_witness :
  joint_probability ex_family ["Harry"] ["James"] ["James"]
  == spec_joint ex_family ex_g ex_t.
Proof.
  apply (joint_probability_spec ex_family ["Harry"] ["James"] ["James"]
           ex_g ex_t).
  - exact ex_family_paired.
  - intros p. unfold ex_g. simpl.
    destruct (String.eqb_spec p "Harry"); destruct (String.eqb_spec p "James");
      subst; intuition (discriminate || congruence).
  - intros p. unfold ex_g. simpl.
    destruct (String.eqb_spec p "Harry"); destruct (String.eqb_spec p "James");
      subst; intuition (discriminate || congruence).
  - intros p. unfold ex_t. simpl.
    destruct (String.eqb_spec p "James"); subst;
      intuition (discriminate || congruence).
Defined.

(** ** heredity.py: the enumeration *)

Lemma flat_map_map {A B C : Type} (f : B -> list C) (g : A -> B) (l : list A) :
  flat_map f (map g l) = flat_map (fun x => f (g x)) l.
Proof.
  induction l as [|x l IH]; simpl; [reflexivity | now rewrite IH].
Qed.

Lemma map_flat_map {A B C : Type} (g : B -> C) (f : A -> list B) (l : list A) :
  map g (flat_map f l) = flat_map (fun x => map g (f x)) l.
Proof.
  induction l as [|x l IH]; simpl; [reflexivity|].
  now rewrite map_app, IH.
Qed.

Lemma Permutation_flat_map_app {A B : Type} (f g : A -> list B) (l : list A) :
  Permutation (flat_map (fun x => f x ++ g x) l) (flat_map f l ++ flat_map g l).
Proof.
  induction l as [|x l IH]; simpl; [constructor|].
  rewrite IH, <- !app_assoc. apply Permutation_app_head.
  apply Permutation_app_swap_app.
Qed.

Lemma combinations_0 {A : Type} (l : list A) : combinations l 0 = [[]].
Proof. now destruct l. Qed.

Lemma combinations_large {A : Type} (l : list A) (r : nat) :
  (List.length l < r)%nat -> combinations l r = [].
Proof.
  revert r. induction l as [|x l IH]; intros r Hr; simpl in *.
  - destruct r; [lia | reflexivity].
  - destruct r as [|r]; [lia|].
    rewrite (IH r) by lia. rewrite (IH (S r)) by lia. reflexivity.
Qed.

Lemma powerset_cons {A : Type} (x : A) (xs : list A) :
  Permutation (powerset (x :: xs)) (map (cons x) (powerset xs) ++ powerset xs).
Proof.
  unfold powerset. simpl List.length.
  set (n := List.length xs).
  replace (S n + 1)%nat with (S (n + 1)) by lia.
  assert (Hrest : [[]] ++ flat_map (fun r => combinations xs (S r))
                            (seq 0 (n + 1))
                  = flat_map (combinations xs) (seq 0 (n + 1))).
  { transitivity (flat_map (combinations xs) (seq 0 (S (n + 1)))).
    - simpl seq. rewrite <- seq_shift. simpl flat_map.
      rewrite combinations_0, flat_map_map. reflexivity.
    - rewrite seq_S, flat_map_app. simpl.
      rewrite (combinations_large xs (n + 1)) by (unfold n; lia).
      now rewrite !app_nil_r. }
  simpl seq. rewrite <- seq_shift. simpl flat_map. rewrite flat_map_map.
  change (fun x0 : nat => combinations (x :: xs) (S x0))
    with (fun r : nat => map (cons x) (combinations xs r)
                         ++ combinations xs (S r)).
  rewrite Permutation_flat_map_app, <- map_flat_map, <- Hrest.
  apply Permutation_middle.
Qed.

Lemma powerset_subseqs {A : Type} (l : list A) :
  Permutation (powerset l) (subseqs l).
Proof.
  induction l as [|x l IH].
  - reflexivity.
  - rewrite powerset_cons. simpl.
    apply Permutation_app; [apply Permutation_map|]; exact IH.
Qed.

Lemma subseqs_incl {A : Type} (l s : list A) :
  In s (subseqs l) -> incl s l.
Proof.
  revert s. induction l as [|x l IH]; intros s; simpl.
  - intros [<-|[]]. apply incl_refl.
  - intros H. apply in_app_or in H. destruct H as [H|H].
    + apply in_map_iff in H. destruct H as [s' [<- Hs']].
      intros y [<-|Hy]; [now left | right; now apply (IH s')].
    + apply incl_tl. now apply IH.
Qed.

Lemma subseqs_NoDup {A : Type} (l : list A) :
  NoDup l -> NoDup (subseqs l).
Proof.
  induction l as [|x l IH]; intros Hnd; simpl.
  - repeat constructor. intros [].
  - inversion Hnd as [|? ? Hnot Hnd']; subst.
    apply NoDup_app.
    + apply NoDup_map_inj; [|auto].
      intros a b _ _ H. now injection H.
    + auto.
    + intros s H1 H2. apply in_map_iff in H1. destruct H1 as [s' [<- _]].
      apply Hnot. apply (subseqs_incl l (x :: s') H2). now left.
Qed.

Lemma subseqs_length {A : Type} (l : list A) :
  List.length (subseqs l) = (2 ^ List.length l)%nat.
Proof.
  induction l as [|x l IH]; simpl; [reflexivity|].
  rewrite length_app, length_map, IH. lia.
Qed.

Lemma filter_in_subseqs {A : Type} (f : A -> bool) (l : list A) :
  In (filter f l) (subseqs l).
Proof.
  induction l as [|x l IH]; simpl; [now left|].
  apply in_or_app. destruct (f x); [left | right; exact IH].
  now apply in_map.
Qed.

Lemma subseqs_filter (l s : list string) :
  NoDup l -> In s (subseqs l) -> s = filter (fun x => mem x s) l.
Proof.
  revert s. induction l as [|x l IH]; intros s Hnd; simpl.
  - intros [<-|[]]. reflexivity.
  - inversion Hnd as [|? ? Hnot Hnd']; subst.
    intros H. apply in_app_or in H. destruct H as [H|H].
    + apply in_map_iff in H. destruct H as [s' [<- Hs']].
      simpl. rewrite String.eqb_refl. f_equal.
      rewrite (IH s' Hnd' Hs') at 1. apply filter_ext_in.
      intros y Hy. destruct (String.eqb_spec y x); [congruence | reflexivity].
    + assert (Hx : mem x s = false).
      { apply mem_false. intros Hin. apply Hnot.
        exact (subseqs_incl l s H x Hin). }
      rewrite Hx. now apply IH.
Qed.

Lemma powerset_NoDup {A : Type} (l : list A) : NoDup l -> NoDup (powerset l).
Proof.
  intros H. apply (Permutation_NoDup (l := subseqs l)).
  - symmetry. apply powerset_subseqs.
  - now apply subseqs_NoDup.
Qed.

Lemma powerset_In {A : Type} (l s : list A) :
  In s (powerset l) <-> In s (subseqs l).
Proof.
  split; apply Permutation_in; [|symmetry]; apply powerset_subseqs.
Qed.

Lemma powerset_length {A : Type} (l : list A) :
  List.length (powerset l) = (2 ^ List.length l)%nat.
Proof.
  rewrite (Permutation_length (powerset_subseqs l)). apply subseqs_length.
Qed.

Lemma mem_filter (f : string -> bool) (l : list string) (p : string) :
  mem p (filter f l) = f p && mem p l.
Proof.
  apply eq_true_iff_eq. rewrite andb_true_iff, !mem_In, filter_In. tauto.
Qed.

Lemma filter_filter_and {A : Type} (f h : A -> bool) (l : list A) :
  filter f (filter h l) = filter (fun x => h x && f x) l.
Proof.
  induction l as [|x l IH]; simpl; [reflexivity|].
  destruct (h x); simpl; [destruct (f x)|]; now rewrite IH.
Qed.

Lemma In_partitions (names og tg : list string) :
  In (og, tg) (gene_partitions names)
  <-> In og (powerset names) /\ In tg (powerset (set_diff names og)).
Proof.
  unfold gene_partitions. rewrite in_flat_map. split.
  - intros [og' [Hog H]]. apply in_map_iff in H.
    destruct H as [tg' [[= <- <-] Htg]]. auto.
  - intros [Hog Htg]. exists og. split; [assumption|].
    apply in_map_iff. now exists tg.
Qed.

Lemma NoDup_partitions (names : list string) :
  NoDup names -> NoDup (gene_partitions names).
Proof.
  intros Hnd. unfold gene_partitions. apply NoDup_flat_map.
  - now apply powerset_NoDup.
  - intros og _. apply NoDup_map_inj.
    + intros a b _ _ [= ->]. reflexivity.
    + apply powerset_NoDup. unfold set_diff. now apply NoDup_filter.
  - intros a a' [og tg] _ _ H H'.
    apply in_map_iff in H. destruct H as [? [[= <- _] _]].
    apply in_map_iff in H'. destruct H' as [? [[= <- _] _]]. reflexivity.
Qed.

Lemma In_worlds (people : people_t) (ht og tg : list string) :
  In (ht, og, tg) (worlds people)
  <-> In ht (powerset (keys people)) /\ fails_evidence people ht = false /\
      In (og, tg) (gene_partitions (keys people)).
Proof.
  unfold worlds. rewrite in_flat_map. split.
  - intros [ht' [Hht H]]. destruct (fails_evidence people ht') eqn:Hf.
    + destruct H.
    + apply in_map_iff in H. destruct H as [[og' tg'] [[= <- <- <-] Hp]]. auto.
  - intros [Hht [Hf Hp]]. exists ht. split; [assumption|].
    rewrite Hf. apply in_map_iff. now exists (og, tg).
Qed.

Lemma NoDup_worlds (people : people_t) :
  NoDup (keys people) -> NoDup (worlds people).
Proof.
  intros Hnd. unfold worlds. apply NoDup_flat_map.
  - now apply powerset_NoDup.
  - intros ht _. destruct (fails_evidence people ht); [constructor|].
    apply NoDup_map_inj.
    + intros [a1 a2] [b1 b2] _ _ [= -> ->]. reflexivity.
    + now apply NoDup_partitions.
  - intros a a' [[ht og] tg] _ _ H H'.
    destruct (fails_evidence people a); [destruct H|].
    destruct (fails_evidence people a'); [destruct H'|].
    apply in_map_iff in H. destruct H as [[? ?] [[= <- _ _] _]].
    apply in_map_iff in H'. destruct H' as [[? ?] [[= <- _ _] _]].
    reflexivity.
Qed.

Lemma fails_evidence_false (people : people_t) (ht : list string) :
  fails_evidence people ht = false
  <-> consistent people (fun p => mem p ht).
Proof.
  unfold fails_evidence, consistent. split.
  - intros H person rec b Hin Hb.
    destruct (mem person ht) eqn:Hm; destruct b; try reflexivity; exfalso;
      (assert (Hex : existsb
                 (fun '(person, rec) =>
                    match trait rec with
                    | Some t => negb (Bool.eqb t (mem person ht))
                    | None => false
                    end) people = true);
       [apply existsb_exists; exists (person, rec); split; [assumption|];
        rewrite Hb, Hm; reflexivity
       | unfold dict in *; congruence]).
  - intros H. destruct (existsb _ people) eqn:Hex; [|reflexivity].
    apply existsb_exists in Hex. destruct Hex as [[person rec] [Hin Hx]].
    destruct (trait rec) as [b|] eqn:Hb; [|discriminate].
    rewrite (H person rec b Hin Hb) in Hx.
    rewrite Bool.eqb_reflx in Hx. discriminate.
Qed.

Lemma in_keys {V : Type} (d : dict V) (k : string) (v : V) :
  In (k, v) d -> In k (keys d).
Proof.
  intros H. unfold keys. change k with (fst (k, v)). now apply in_map.
Qed.

(** The world of an assignment that agrees with the evidence is visited. *)
Lemma world_of_In (people : people_t) (g : string -> nat) (t : string -> bool) :
  consistent people t -> In (world_of (keys people) g t) (worlds people).
Proof.
  intros Hc. unfold world_of. apply In_worlds. split; [|split].
  - apply powerset_In, filter_in_subseqs.
  - apply fails_evidence_false. intros person rec b Hin Hb.
    rewrite mem_filter, (Hc person rec b Hin Hb).
    destruct b; [|reflexivity]. simpl. apply mem_In. eapply in_keys; eauto.
  - apply In_partitions. split; [apply powerset_In, filter_in_subseqs|].
    apply powerset_In. unfold set_diff.
    replace (filter (fun x => Nat.eqb (g x) 2) (keys people))
      with (filter (fun x => Nat.eqb (g x) 2)
              (filter (fun x =>
                         negb (mem x (filter (fun y => Nat.eqb (g y) 1)
                                        (keys people))))
                 (keys people))).
    + apply filter_in_subseqs.
    + rewrite filter_filter_and. apply filter_ext_in. intros x Hx.
      rewrite mem_filter.
      destruct (Nat.eqb_spec (g x) 2) as [H2|H2]; [|apply andb_false_r].
      rewrite H2. reflexivity.
Qed.

(** Every visited world is the world of the assignments it encodes, and
    these agree with the evidence. *)
Lemma In_worlds_world_of (people : people_t) (w : world) :
  NoDup (keys people) -> In w (worlds people) ->
  w = world_of (keys people) (world_gene w) (world_trait w) /\
  consistent people (world_trait w).
Proof.
  intros Hnd. destruct w as [[ht og] tg]. intros H.
  apply In_worlds in H. destruct H as [Hht [Hf Hp]].
  apply In_partitions in Hp. destruct Hp as [Hog Htg].
  apply powerset_In in Hht, Hog, Htg.
  split; [|now apply fails_evidence_false].
  unfold world_of. simpl.
  assert (Hnd' : NoDup (set_diff (keys people) og))
    by (unfold set_diff; now apply NoDup_filter).
  f_equal; [f_equal|].
  - now apply subseqs_filter.
  - rewrite (subseqs_filter _ og Hnd Hog) at 1.
    apply filter_ext. intros x. unfold gene_in.
    destruct (mem x og); [reflexivity|]. now destruct (mem x tg).
  - rewrite (subseqs_filter _ tg Hnd' Htg) at 1.
    unfold set_diff. rewrite filter_filter_and.
    apply filter_ext. intros x. unfold gene_in.
    destruct (mem x og); [reflexivity|]. now destruct (mem x tg).
Qed.

(** *** Counting the worlds *)

Lemma length_flat_map_sum {A B : Type} (f : A -> list B) (l : list A) :
  List.length (flat_map f l) = list_sum (map (fun a => List.length (f a)) l).
Proof.
  induction l as [|x l IH]; simpl; [reflexivity|].
  now rewrite length_app, IH.
Qed.

Lemma list_sum_perm (l l' : list nat) :
  Permutation l l' -> list_sum l = list_sum l'.
Proof.
  induction 1; simpl; lia.
Qed.

Lemma set_diff_cons_in (x : string) (xs og : list string) :
  ~ In x xs -> set_diff (x :: xs) (x :: og) = set_diff xs og.
Proof.
  intros Hx. unfold set_diff. simpl. rewrite String.eqb_refl. simpl.
  apply filter_ext_in. intros y Hy.
  destruct (String.eqb_spec y x); [congruence | reflexivity].
Qed.

Lemma set_diff_cons_out (x : string) (xs og : list string) :
  ~ In x og -> set_diff (x :: xs) og = x :: set_diff xs og.
Proof.
  intros Hx. unfold set_diff. simpl.
  apply mem_false in Hx. now rewrite Hx.
Qed.

Lemma partitions_sum (l : list string) :
  NoDup l ->
  list_sum (map (fun og => (2 ^ List.length (set_diff l og))%nat) (subseqs l))
  = (3 ^ List.length l)%nat.
Proof.
  induction l as [|x l IH]; intros Hnd; [reflexivity|].
  inversion Hnd as [|? ? Hnot Hnd']; subst.
  simpl subseqs. rewrite map_app, list_sum_app, map_map.
  rewrite (map_ext_in _ (fun og => (2 ^ List.length (set_diff l og))%nat)).
  2:{ intros og _. now rewrite set_diff_cons_in. }
  rewrite (map_ext_in (fun og => (2 ^ List.length (set_diff (x :: l) og))%nat)
             (fun og => (2 * 2 ^ List.length (set_diff l og))%nat)).
  2:{ intros og Hog. rewrite set_diff_cons_out; [reflexivity|].
      intros Hin. apply Hnot. exact (subseqs_incl l og Hog x Hin). }
  assert (Hdouble : forall (f : list string -> nat) (L : list (list string)),
             list_sum (map (fun og => (2 * f og)%nat) L)
             = (2 * list_sum (map f L))%nat).
  { intros f L. induction L as [|a L IHL]; simpl in *; lia. }
  rewrite Hdouble, IH by assumption.
  simpl List.length. rewrite Nat.pow_succ_r'. lia.
Qed.

Lemma partitions_length (names : list string) :
  NoDup names ->
  List.length (gene_partitions names) = (3 ^ List.length names)%nat.
Proof.
  intros Hnd. unfold gene_partitions. rewrite length_flat_map_sum.
  rewrite (map_ext _ (fun og => (2 ^ List.length (set_diff names og))%nat)).
  2:{ intros og. now rewrite length_map, powerset_length. }
  rewrite (list_sum_perm _ _
             (Permutation_map _ (powerset_subseqs names))).
  now apply partitions_sum.
Qed.

Lemma length_flat_map_if {A B : Type} (p : A -> bool) (h : A -> list B)
  (n : nat) (l : list A) :
  (forall a, List.length (h a) = n) ->
  List.length (flat_map (fun a => if p a then [] else h a) l)
  = (List.length (filter (fun a => negb (p a)) l) * n)%nat.
Proof.
  intros Hn. induction l as [|a l IH]; simpl; [reflexivity|].
  rewrite length_app, IH. destruct (p a); simpl; [reflexivity|].
  now rewrite Hn.
Qed.

Lemma worlds_length (people : people_t) :
  List.length (worlds people)
  = (List.length (filter (fun ht => negb (fails_evidence people ht))
                    (powerset (keys people)))
     * List.length (gene_partitions (keys people)))%nat.
Proof.
  unfold worlds. apply length_flat_map_if.
  intros ht. apply length_map.
Qed.

(** *** The accumulators *)

Lemma fold_left_flat_map {A B C : Type} (f : C -> B -> C) (g : A -> list B)
  (l : list A) (c : C) :
  fold_left f (flat_map g l) c
  = fold_left (fun c x => fold_left f (g x) c) l c.
Proof.
  revert c. induction l as [|x l IH]; intros c; simpl; [reflexivity|].
  now rewrite fold_left_app, IH.
Qed.

Lemma fold_left_map {A B C : Type} (f : C -> B -> C) (h : A -> B)
  (l : list A) (c : C) :
  fold_left f (map h l) c = fold_left (fun c x => f c (h x)) l c.
Proof.
  revert c. induction l as [|x l IH]; intros c; simpl; [reflexivity|].
  now rewrite IH.
Qed.

Lemma fold_left_ext {A C : Type} (f g : C -> A -> C) (l : list A) (c : C) :
  (forall c x, f c x = g c x) -> fold_left f l c = fold_left g l c.
Proof.
  intros H. revert c. induction l as [|x l IH]; intros c; simpl;
    [reflexivity|]. now rewrite H, IH.
Qed.

(** The three nested loops visit [worlds people] in order. *)
Lemma main_loop_worlds (people : people_t) :
  main_loop people
  = fold_left (record people) (worlds people) (init_probabilities people).
Proof.
  unfold main_loop, worlds. rewrite fold_left_flat_map.
  apply fold_left_ext. intros probs ht.
  destruct (fails_evidence people ht); [reflexivity|].
  rewrite fold_left_map. unfold gene_partitions.
  rewrite fold_left_flat_map. apply fold_left_ext. intros probs' og.
  rewrite fold_left_map. reflexivity.
Qed.

Lemma keys_record (people : people_t) (ws : list world)
  (probs : probabilities_t) :
  keys (fold_left (record people) ws probs) = keys probs.
Proof.
  revert probs. induction ws as [|[[ht og] tg] ws IH]; intros probs; simpl;
    [reflexivity|].
  rewrite IH. unfold update, keys. rewrite map_map. apply map_ext.
  now intros [person d].
Qed.

Lemma gene_acc_add (g k : nat) (p : Q) (t : bool) (d : dist) :
  (g <= 2)%nat -> (k <= 2)%nat ->
  gene_acc (add_trait t p (add_gene g p d)) k
  = if Nat.eqb g k then gene_acc d k + p else gene_acc d k.
Proof.
  intros Hg Hk.
  destruct g as [|[|[|?]]]; [| | |lia]; destruct k as [|[|[|?]]];
    try lia; destruct t; reflexivity.
Qed.

Lemma trait_acc_add (g : nat) (p : Q) (t b : bool) (d : dist) :
  trait_acc (add_trait t p (add_gene g p d)) b
  = if Bool.eqb t b then trait_acc d b + p else trait_acc d b.
Proof.
  destruct g as [|[|?]]; destruct t; destruct b; reflexivity.
Qed.

Lemma gene_in_le (og tg : list string) (p : string) : (gene_in og tg p <= 2)%nat.
Proof.
  unfold gene_in. destruct (mem p og); [lia|]. destruct (mem p tg); lia.
Qed.

Lemma record_fold_person (people : people_t) (ws : list world)
  (probs : probabilities_t) (person : string) (d' : dist) :
  In (person, d') (fold_left (record people) ws probs) ->
  exists d,
    In (person, d) probs /\
    (forall k, (k <= 2)%nat ->
       gene_acc d' k
       = fold_left (fun acc w =>
                      if Nat.eqb (world_gene w person) k
                      then acc + joint people w else acc)
           ws (gene_acc d k)) /\
    (forall b,
       trait_acc d' b
       = fold_left (fun acc w =>
                      if Bool.eqb (world_trait w person) b
                      then acc + joint people w else acc)
           ws (trait_acc d b)).
Proof.
  revert probs. induction ws as [|[[ht og] tg] ws IH]; intros probs; simpl.
  - intros H. exists d'. auto.
  - intros H. apply IH in H. destruct H as [d1 [Hin [Hg Ht]]].
    unfold update in Hin. apply in_map_iff in Hin.
    destruct Hin as [[person0 d] [Heq Hin]]. injection Heq as -> <-.
    exists d. split; [assumption|]. split.
    + intros k Hk. rewrite (Hg k Hk).
      now rewrite gene_acc_add by (apply gene_in_le || assumption).
    + intros b. rewrite (Ht b). now rewrite trait_acc_add.
Qed.

Lemma keys_main_loop (people : people_t) :
  keys (main_loop people) = keys people.
Proof.
  rewrite main_loop_worlds, keys_record.
  unfold init_probabilities, keys. rewrite map_map. apply map_ext.
  now intros [person rec].
Qed.

Lemma main_loop_masses (people : people_t) (person : string) (d : dist) :
  In (person, d) (main_loop people) ->
  (forall k, (k <= 2)%nat ->
     gene_acc d k = gene_mass people (worlds people) person k) /\
  (forall b, trait_acc d b = trait_mass people (worlds people) person b).
Proof.
  rewrite main_loop_worlds. intros H.
  apply record_fold_person in H. destruct H as [d0 [Hin [Hg Ht]]].
  unfold init_probabilities in Hin. apply in_map_iff in Hin.
  destruct Hin as [[p0 rec] [[= _ <-] _]]. split.
  - intros k Hk. rewrite (Hg k Hk). now destruct k as [|[|?]].
  - intros b. rewrite (Ht b). now destruct b.
Qed.

(** C5: for a population with unique names, the loops of [main] reach
    [update] with the world of every gene assignment and every trait
    assignment that agrees with the evidence exactly once, and with nothing
    else; there are 3^n gene partitions, each paired with every consistent
    trait subset; and every person's accumulators hold, bucket by bucket, the
    joint probabilities of the visited worlds that assign this bucket, each
    added once. *)
Theorem enumeration_exactly_once (people : people_t) :
  NoDup (keys people) ->
  (forall g t, consistent people t ->
     count_occ world_eq_dec (worlds people) (world_of (keys people) g t)
     = 1%nat) /\
  (forall w, In w (worlds people) ->
     w = world_of (keys people) (world_gene w) (world_trait w) /\
     consistent people (world_trait w)) /\
  List.length (gene_partitions (keys people))
  = (3 ^ List.length (keys people))%nat /\
  List.length (worlds people)
  = (List.length (filter (fun ht => negb (fails_evidence people ht))
                    (powerset (keys people)))
     * 3 ^ List.length (keys people))%nat /\
  main_loop people
  = fold_left (record people) (worlds people) (init_probabilities people) /\
  keys (main_loop people) = keys people /\
  (forall person d, In (person, d) (main_loop people) ->
     (forall k, (k <= 2)%nat ->
        gene_acc d k = gene_mass people (worlds people) person k) /\
     (forall b, trait_acc d b = trait_mass people (worlds people) person b)).
Proof.
  intros Hnd. repeat split.
  - intros g t Hc. apply NoDup_count_occ'.
    + now apply NoDup_worlds.
    + now apply world_of_In.
  - now apply In_worlds_world_of.
  - now apply In_worlds_world_of.
  - now apply partitions_length.
  - rewrite worlds_length, partitions_length by assumption. reflexivity.
  - apply main_loop_worlds.
  - apply keys_main_loop.
  - now apply main_loop_masses.
  - now apply main_loop_masses.
Qed.

(** The theorem on the family of three: the world of [ex_g] and [ex_t] is
    visited exactly once among the 27 gene partitions. *)
Lemma enumeration_exactly_once_witness :
  count_occ world_eq_dec (worlds ex_family)
    (world_of (keys ex_family) ex_g ex_t) = 1%nat /\
  List.length (gene_partitions (keys ex_family)) = 27%nat /\
  keys (main_loop ex_family) = keys ex_family.
Proof.
  assert (Hnd : NoDup (keys ex_family)).
  { simpl. repeat constructor; simpl; intuition discriminate. }
  destruct (enumeration_exactly_once ex_family Hnd)
    as [H1 [_ [H3 [_ [_ [H6 _]]]]]].
  split; [|split].
  - apply H1. intros person rec b H Hb. simpl in H.
    destruct H as [H|[H|[H|[]]]]; injection H as <- <-; simpl in Hb;
      try discriminate; injection Hb as <-; reflexivity.
  - exact H3.
  - exact H6.
Defined.

(** ** heredity.py: normalization *)

Lemma person_prob_pos (one_gene two_genes have_trait : list string)
  (person : string) (rec : person_t) :
  0 < person_prob one_gene two_genes have_trait person rec.
Proof.
  unfold person_prob, gene_in, PROBS_mutation.
  destruct (mother rec); destruct (mem person one_gene);
    destruct (mem person two_genes); destruct (mem person have_trait);
    try destruct (opt_mem (Some s) one_gene);
    try destruct (opt_mem (Some s) two_genes);
    try destruct (opt_mem (father rec) one_gene);
    try destruct (opt_mem (father rec) two_genes);
    reflexivity.
Qed.

Lemma joint_probability_pos (people : people_t)
  (one_gene two_genes have_trait : list string) :
  0 < joint_probability people one_gene two_genes have_trait.
Proof.
  unfold joint_probability.
  assert (H : forall a, 0 < a ->
            0 < fold_left (fun final_prob '(person, rec) =>
                             final_prob
                             * person_prob one_gene two_genes have_trait
                                 person rec) people a).
  { induction people as [|[person rec] people IH]; intros a Ha; simpl;
      [exact Ha|].
    apply IH. apply Qmult_lt_0_compat; [exact Ha | apply person_prob_pos]. }
  apply H. reflexivity.
Qed.

Lemma joint_pos (people : people_t) (w : world) : 0 < joint people w.
Proof.
  destruct w as [[ht og] tg]. apply joint_probability_pos.
Qed.

(** The totals of a person's two tables after a list of worlds. *)
Lemma record_fold_totals (people : people_t) (ws : list world)
  (probs : probabilities_t) (person : string) (d' : dist) :
  In (person, d') (fold_left (record people) ws probs) ->
  exists d,
    In (person, d) probs /\
    0 + gene0 d' + gene1 d' + gene2 d'
    == (gene0 d + gene1 d + gene2 d) + Qsum (map (joint people) ws) /\
    trait_false d' + trait_true d'
    == (trait_false d + trait_true d) + Qsum (map (joint people) ws).
Proof.
  revert probs. induction ws as [|[[ht og] tg] ws IH]; intros probs; simpl.
  - intros H. exists d'. split; [assumption|]. split; ring.
  - intros H. apply IH in H. destruct H as [d1 [Hin [Hg Ht]]].
    unfold update in Hin. apply in_map_iff in Hin.
    destruct Hin as [[person0 d] [Heq Hin]]. injection Heq as -> <-.
    exists d. split; [assumption|]. rewrite Hg, Ht. clear.
    split.
    + destruct (gene_in og tg person) as [|[|?]];
        destruct (mem person ht); simpl; ring.
    + destruct (gene_in og tg person) as [|[|?]];
        destruct (mem person ht); simpl; ring.
Qed.

Lemma Qsum_pos (l : list Q) :
  l <> [] -> (forall x, In x l -> 0 < x) -> 0 < Qsum l.
Proof.
  induction l as [|x l IH]; [congruence|]. intros _ H. simpl.
  assert (Hx : 0 < x) by (apply H; now left).
  destruct l as [|y l]; [simpl; lra|].
  assert (0 < Qsum (y :: l)).
  { apply IH; [discriminate|]. intros z Hz. apply H. now right. }
  lra.
Qed.

(** Some world agrees with any evidence: the persons observed with the
    trait have it, nobody has the gene. *)
Lemma consistent_exists (people : people_t) :
  NoDup (keys people) -> exists t, consistent people t.
Proof.
  intros Hnd.
  exists (fun p => match get people p with
                   | Ok rec => match trait rec with
                               | Some b => b
                               | None => false
                               end
                   | Raise _ => false
                   end).
  intros person rec b Hin Hb.
  now rewrite (in_get_nodup people person rec Hnd Hin), Hb.
Qed.

Lemma worlds_nonempty (people : people_t) :
  NoDup (keys people) -> worlds people <> [].
Proof.
  intros Hnd. destruct (consistent_exists people Hnd) as [t Ht].
  pose proof (world_of_In people (fun _ => 0%nat) t Ht) as H.
  intros Hnil. rewrite Hnil in H. destruct H.
Qed.

Lemma mass_pos (people : people_t) :
  NoDup (keys people) -> 0 < Qsum (map (joint people) (worlds people)).
Proof.
  intros Hnd. apply Qsum_pos.
  - intros H. apply map_eq_nil in H. now apply (worlds_nonempty people).
  - intros x Hx. apply in_map_iff in Hx. destruct Hx as [w [<- _]].
    apply joint_pos.
Qed.

Lemma main_loop_totals (people : people_t) (person : string) (d : dist) :
  In (person, d) (main_loop people) ->
  0 + gene0 d + gene1 d + gene2 d == Qsum (map (joint people) (worlds people))
  /\ trait_false d + trait_true d == Qsum (map (joint people) (worlds people)).
Proof.
  rewrite main_loop_worlds. intros H.
  apply record_fold_totals in H. destruct H as [d0 [Hin [Hg Ht]]].
  unfold init_probabilities in Hin. apply in_map_iff in Hin.
  destruct Hin as [[p0 rec] [[= _ <-] _]].
  rewrite Hg, Ht. simpl. split; ring.
Qed.

Lemma inverse_ok (x : Q) : ~ x == 0 -> inverse x = Ok (1 / x).
Proof.
  intros H. unfold inverse. destruct (Qeq_bool x 0) eqn:E; [|reflexivity].
  apply Qeq_bool_eq in E. contradiction.
Qed.

Lemma inverse_zero (x : Q) : x == 0 -> inverse x = Raise ZeroDivisionError.
Proof.
  intros H. unfold inverse. now rewrite (Qeq_eq_bool _ _ H).
Qed.

Lemma normalize_dist_error (d : dist) (e : exn) :
  normalize_dist d = Raise e -> e = ZeroDivisionError.
Proof.
  unfold normalize_dist, inverse.
  destruct (Qeq_bool (0 + gene0 d + gene1 d + gene2 d) 0); simpl.
  - now intros [= <-].
  - destruct (Qeq_bool (trait_false d + trait_true d) 0); simpl.
    + now intros [= <-].
    + discriminate.
Qed.

Lemma normalize_error (probs : probabilities_t) (e : exn) :
  normalize probs = Raise e -> e = ZeroDivisionError.
Proof.
  induction probs as [|[person d] probs IH]; simpl; [discriminate|].
  destruct (normalize_dist d) eqn:Hd; simpl.
  - destruct (normalize probs) as [rest|e'] eqn:Hrest; simpl; [discriminate|].
    intros [= <-]. now apply IH.
  - intros [= <-]. now apply (normalize_dist_error d).
Qed.

Lemma normalize_zero (probs : probabilities_t) (person : string) (d : dist) :
  In (person, d) probs ->
  0 + gene0 d + gene1 d + gene2 d == 0 \/ trait_false d + trait_true d == 0 ->
  normalize probs = Raise ZeroDivisionError.
Proof.
  intros Hin Hz.
  destruct (normalize probs) as [probs'|e] eqn:Hn.
  - exfalso. revert probs' Hn.
    induction probs as [|[p0 d0] probs IH]; intros probs' Hn; [destruct Hin|].
    simpl in Hn.
    destruct (normalize_dist d0) as [d0'|] eqn:Hd0; simpl in Hn;
      [|discriminate].
    destruct (normalize probs) as [rest'|] eqn:Hrest; simpl in Hn;
      [|discriminate].
    destruct Hin as [[= -> ->]|Hin]; [|now apply (IH Hin rest')].
    unfold normalize_dist in Hd0. destruct Hz as [Hz|Hz].
    + rewrite (inverse_zero _ Hz) in Hd0. discriminate.
    + destruct (inverse (0 + gene0 d + gene1 d + gene2 d)); simpl in Hd0;
        [|discriminate].
      rewrite (inverse_zero _ Hz) in Hd0. discriminate.
  - f_equal. now apply (normalize_error probs).
Qed.

(** Normalization entry by entry. *)
Lemma normalize_ok (probs : probabilities_t) :
  (forall person d, In (person, d) probs ->
     ~ 0 + gene0 d + gene1 d + gene2 d == 0 /\
     ~ trait_false d + trait_true d == 0) ->
  exists probs',
    normalize probs = Ok probs' /\
    keys probs' = keys probs /\
    forall person d', In (person, d') probs' ->
      exists d, In (person, d) probs /\ normalize_dist d = Ok d'.
Proof.
  induction probs as [|[p0 d0] probs IH]; intros H; simpl.
  - exists []. split; [reflexivity|]. split; [reflexivity|]. intros ? ? [].
  - destruct (H p0 d0 (or_introl eq_refl)) as [Hg Ht].
    destruct IH as [rest' [Hrest [Hk Hin]]].
    { intros person d Hd. apply (H person d). now right. }
    unfold normalize_dist at 1.
    rewrite (inverse_ok _ Hg). simpl. rewrite (inverse_ok _ Ht). simpl.
    rewrite Hrest. simpl. eexists. split; [reflexivity|]. split.
    + simpl. now rewrite Hk.
    + intros person d' [[= <- <-]|Hd'].
      * exists d0. split; [now left|].
        unfold normalize_dist.
        rewrite (inverse_ok _ Hg). simpl. now rewrite (inverse_ok _ Ht).
      * destruct (Hin person d' Hd') as [d [Hd Hn]].
        exists d. split; [now right | assumption].
Qed.

Lemma main_loop_positive (people : people_t) (person : string) (d : dist) :
  NoDup (keys people) -> In (person, d) (main_loop people) ->
  0 < 0 + gene0 d + gene1 d + gene2 d /\ 0 < trait_false d + trait_true d.
Proof.
  intros Hnd Hin. pose proof (mass_pos people Hnd) as Hpos.
  destruct (main_loop_totals people person d Hin) as [Hg Ht].
  rewrite Hg, Ht. now split.
Qed.

(** [main] returns: every division of [normalize] has a positive divisor. *)
Lemma main_returns (people : people_t) :
  NoDup (keys people) ->
  exists probabilities,
    main people = Ok probabilities /\
    keys probabilities = keys people /\
    forall person d', In (person, d') probabilities ->
      exists d, In (person, d) (main_loop people) /\ normalize_dist d = Ok d'.
Proof.
  intros Hnd.
  destruct (normalize_ok (main_loop people)) as [probs' [Hn [Hk Hin]]].
  - intros person d Hd.
    destruct (main_loop_positive people person d Hnd Hd) as [Hg Ht].
    split; intros H; rewrite H in *; [now apply (Qlt_irrefl 0) in Hg|
                                      now apply (Qlt_irrefl 0) in Ht].
  - exists probs'. split; [exact Hn|]. split; [|exact Hin].
    now rewrite Hk, keys_main_loop.
Qed.

(** ** heredity.py: populations without parent links *)

Lemma In_choices (evidence : option bool) (g : nat) (t : bool) :
  In (g, t) (choices evidence)
  <-> (g <= 2)%nat /\ In t (trait_choices evidence).
Proof.
  unfold choices. rewrite in_flat_map. split.
  - intros [g' [Hg H]]. apply in_map_iff in H.
    destruct H as [t' [[= <- <-] Ht]]. split; [|assumption].
    simpl in Hg. lia.
  - intros [Hg Ht]. exists g. split.
    + simpl. lia.
    + apply in_map_iff. now exists t.
Qed.

Lemma NoDup_choices (evidence : option bool) : NoDup (choices evidence).
Proof.
  destruct evidence as [[|]|]; unfold choices; simpl;
    repeat constructor; simpl; intuition discriminate.
Qed.

Lemma cons_if_eq (x : string) (a b : list string) (b1 b2 : bool) :
  ~ In x a -> ~ In x b ->
  (if b1 then x :: a else a) = (if b2 then x :: b else b) ->
  b1 = b2 /\ a = b.
Proof.
  intros Ha Hb. destruct b1, b2; intros H.
  - injection H as ->. auto.
  - exfalso. apply Hb. rewrite <- H. now left.
  - exfalso. apply Ha. rewrite H. now left.
  - auto.
Qed.

Lemma canon_sets (people : people_t) (ht og tg : list string) :
  In (ht, og, tg) (canon people) ->
  incl ht (keys people) /\ incl og (keys people) /\ incl tg (keys people).
Proof.
  revert ht og tg. induction people as [|[x rec] rest IH]; intros ht og tg;
    simpl.
  - intros [[= <- <- <-]|[]]. repeat split; apply incl_refl.
  - intros H. apply in_flat_map in H. destruct H as [[[ht' og'] tg'] [Hw H]].
    apply in_map_iff in H. destruct H as [[g t] [Heq _]].
    destruct (IH _ _ _ Hw) as [H1 [H2 H3]].
    simpl in Heq. injection Heq as <- <- <-.
    repeat split.
    + destruct t; [apply incl_cons; [now left|] |]; now apply incl_tl.
    + destruct (Nat.eqb g 1); [apply incl_cons; [now left|] |];
        now apply incl_tl.
    + destruct (Nat.eqb g 2); [apply incl_cons; [now left|] |];
        now apply incl_tl.
Qed.

Lemma extend_inj (x : string) (c c' : nat * bool) (w w' : world)
  (rest : people_t) (evidence : option bool) :
  ~ In x (keys rest) -> In w (canon rest) -> In w' (canon rest) ->
  In c (choices evidence) -> In c' (choices evidence) ->
  extend x c w = extend x c' w' -> c = c' /\ w = w'.
Proof.
  intros Hx Hw Hw' Hc Hc'.
  destruct w as [[ht og] tg], w' as [[ht' og'] tg'], c as [g t], c' as [g' t'].
  destruct (canon_sets _ _ _ _ Hw) as [H1 [H2 H3]].
  destruct (canon_sets _ _ _ _ Hw') as [H1' [H2' H3']].
  apply In_choices in Hc, Hc'. destruct Hc as [Hg _], Hc' as [Hg' _].
  simpl. intros H. injection H as Ht Ho Htw.
  apply cons_if_eq in Ht; [|intros ?; apply Hx; auto ..].
  apply cons_if_eq in Ho; [|intros ?; apply Hx; auto ..].
  apply cons_if_eq in Htw; [|intros ?; apply Hx; auto ..].
  destruct Ht as [-> ->], Ho as [Ho ->], Htw as [Htw ->].
  split; [|reflexivity]. f_equal.
  destruct g as [|[|[|?]]]; destruct g' as [|[|[|?]]]; simpl in *;
    try lia; try discriminate; reflexivity.
Qed.

Lemma NoDup_canon (people : people_t) :
  NoDup (keys people) -> NoDup (canon people).
Proof.
  induction people as [|[x rec] rest IH]; intros Hnd; simpl.
  - repeat constructor. intros [].
  - simpl in Hnd. inversion Hnd as [|? ? Hx Hnd']; subst.
    apply NoDup_flat_map.
    + now apply IH.
    + intros w Hw. apply NoDup_map_inj; [|apply NoDup_choices].
      intros c c' Hc Hc' Heq.
      now destruct (extend_inj x c c' w w rest (trait rec) Hx Hw Hw Hc Hc' Heq).
    + intros w w' b Hw Hw' Hb Hb'.
      apply in_map_iff in Hb. destruct Hb as [c [<- Hc]].
      apply in_map_iff in Hb'. destruct Hb' as [c' [Heq Hc']].
      symmetry in Heq.
      now destruct (extend_inj x c c' w w' rest (trait rec) Hx Hw Hw' Hc Hc' Heq).
Qed.

Lemma world_of_cons (x : string) (names : list string) (g : string -> nat)
  (t : string -> bool) :
  world_of (x :: names) g t = extend x (g x, t x) (world_of names g t).
Proof.
  unfold world_of, extend. simpl.
  destruct (t x), (Nat.eqb (g x) 1), (Nat.eqb (g x) 2); reflexivity.
Qed.

Lemma world_of_ext (names : list string) (g g' : string -> nat)
  (t t' : string -> bool) :
  (forall p, In p names -> g p = g' p /\ t p = t' p) ->
  world_of names g t = world_of names g' t'.
Proof.
  intros H. unfold world_of.
  f_equal; [f_equal|]; apply filter_ext_in; intros p Hp;
    destruct (H p Hp) as [Hg Ht]; congruence.
Qed.

Lemma world_of_canon (people : people_t) (g : string -> nat)
  (t : string -> bool) :
  consistent people t -> (forall p, (g p <= 2)%nat) ->
  In (world_of (keys people) g t) (canon people).
Proof.
  intros Hc Hg. induction people as [|[x rec] rest IH]; simpl.
  - now left.
  - rewrite world_of_cons. apply in_flat_map.
    exists (world_of (keys rest) g t). split.
    + apply IH. intros person rec' b Hin Hb.
      apply (Hc person rec' b); [now right | assumption].
    + apply in_map_iff. exists (g x, t x). split; [reflexivity|].
      apply In_choices. split; [apply Hg|].
      destruct (trait rec) as [b|] eqn:Hb; simpl.
      * left. symmetry. apply (Hc x rec b); [now left | assumption].
      * destruct (t x); auto.
Qed.

Lemma canon_world_of (people : people_t) (w : world) :
  NoDup (keys people) -> In w (canon people) ->
  exists g t, consistent people t /\ w = world_of (keys people) g t.
Proof.
  revert w. induction people as [|[x rec] rest IH]; intros w Hnd; simpl.
  - intros [<-|[]]. exists (fun _ => 0%nat), (fun _ => false).
    split; [intros ? ? ? []|reflexivity].
  - simpl in Hnd. inversion Hnd as [|? ? Hx Hnd']; subst.
    intros H. apply in_flat_map in H. destruct H as [w' [Hw' H]].
    apply in_map_iff in H. destruct H as [[g0 t0] [<- Hc]].
    destruct (IH w' Hnd' Hw') as [g' [t' [Hcons ->]]].
    exists (fun p => if String.eqb p x then g0 else g' p),
           (fun p => if String.eqb p x then t0 else t' p).
    split.
    + intros person rec' b [[= <- <-]|Hin] Hb.
      * rewrite String.eqb_refl. apply In_choices in Hc.
        destruct Hc as [_ Ht]. rewrite Hb in Ht. simpl in Ht.
        destruct Ht as [<-|[]]. reflexivity.
      * destruct (String.eqb_spec person x) as [->|Hne].
        -- exfalso. apply Hx. eapply in_keys; eauto.
        -- now apply (Hcons person rec' b).
    + rewrite world_of_cons, String.eqb_refl. f_equal.
      apply world_of_ext. intros p Hp.
      destruct (String.eqb_spec p x) as [->|Hne]; [contradiction | auto].
Qed.

(** The loops of [main] visit the worlds built person by person, in another
    order. *)
Lemma worlds_canon (people : people_t) :
  NoDup (keys people) -> Permutation (worlds people) (canon people).
Proof.
  intros Hnd. apply NoDup_Permutation.
  - now apply NoDup_worlds.
  - now apply NoDup_canon.
  - intros w. split.
    + intros H. destruct (In_worlds_world_of people w Hnd H) as [Heq Hc].
      rewrite Heq. apply world_of_canon; [assumption|].
      intros p. destruct w as [[ht og] tg]. apply gene_in_le.
    + intros H. destruct (canon_world_of people w Hnd H) as [g [t [Hc ->]]].
      now apply world_of_In.
Qed.

(** *** Sums over worlds *)

Lemma fold_cond_sum {A : Type} (p : A -> bool) (f : A -> Q) (l : list A)
  (a : Q) :
  fold_left (fun acc w => if p w then acc + f w else acc) l a
  == a + Qsum (map (fun w => if p w then f w else 0) l).
Proof.
  revert a. induction l as [|x l IH]; intros a; simpl; [ring|].
  rewrite IH. destruct (p x); ring.
Qed.

Lemma mem_cons_other (q x : string) (s : list string) (b : bool) :
  q <> x -> mem q (if b then x :: s else s) = mem q s.
Proof.
  intros Hne. destruct b; [|reflexivity]. simpl.
  destruct (String.eqb_spec q x); [contradiction | reflexivity].
Qed.

Lemma world_extend_other (x q : string) (c : nat * bool) (w : world) :
  q <> x ->
  world_gene (extend x c w) q = world_gene w q /\
  world_trait (extend x c w) q = world_trait w q.
Proof.
  intros Hne. destruct c as [g t], w as [[ht og] tg]. simpl. unfold gene_in.
  now rewrite !mem_cons_other.
Qed.

Lemma world_extend_self (x : string) (g : nat) (t : bool)
  (ht og tg : list string) :
  ~ In x ht -> ~ In x og -> ~ In x tg -> (g <= 2)%nat ->
  world_gene (extend x (g, t) (ht, og, tg)) x = g /\
  world_trait (extend x (g, t) (ht, og, tg)) x = t.
Proof.
  intros Hh Ho Ht Hg. apply mem_false in Hh, Ho, Ht.
  simpl. unfold gene_in.
  destruct g as [|[|[|?]]]; [| | |lia]; destruct t; simpl;
    rewrite ?String.eqb_refl, ?Hh, ?Ho, ?Ht; auto.
Qed.

Lemma world_prod_extend (h : string -> nat -> bool -> Q) (rest : people_t)
  (x : string) (c : nat * bool) (w : world) :
  ~ In x (keys rest) ->
  world_prod h rest (extend x c w) = world_prod h rest w.
Proof.
  induction rest as [|[q rec] rest IH]; intros Hx; simpl; [reflexivity|].
  simpl in Hx.
  destruct (world_extend_other x q c w) as [-> ->]; [intuition congruence|].
  rewrite IH by tauto. reflexivity.
Qed.

(** The sum over the worlds built person by person of a product over the
    persons is the product of the per-person sums. *)
Lemma canon_factor (h : string -> nat -> bool -> Q) (people : people_t) :
  NoDup (keys people) ->
  Qsum (map (world_prod h people) (canon people)) == person_sums h people.
Proof.
  induction people as [|[x rec] rest IH]; intros Hnd.
  - simpl. ring.
  - simpl in Hnd. inversion Hnd as [|? ? Hx Hnd']; subst.
    cbn [canon person_sums]. rewrite Qsum_flat_map.
    rewrite (Qsum_map_ext _
               (fun w => choice_sum h x (trait rec) * world_prod h rest w)).
    + rewrite Qsum_scale_l, IH by assumption. reflexivity.
    + intros [[ht og] tg] Hw. rewrite map_map.
      destruct (canon_sets _ _ _ _ Hw) as [H1 [H2 H3]].
      unfold choice_sum. rewrite <- Qsum_scale_r.
      apply Qsum_map_ext. intros [g t] Hc.
      apply In_choices in Hc. destruct Hc as [Hg _].
      cbn [world_prod fst snd].
      rewrite world_prod_extend by assumption.
      destruct (world_extend_self x g t ht og tg) as [-> ->];
        auto; reflexivity.
Qed.

Lemma person_prob_founder (og tg ht : list string) (person : string)
  (rec : person_t) :
  mother rec = None ->
  person_prob og tg ht person rec
  = founder_factor (gene_in og tg person) (mem person ht).
Proof.
  intros Hm. unfold person_prob, founder_factor, gene_in. rewrite Hm.
  destruct (mem person og); [reflexivity|].
  destruct (mem person tg); reflexivity.
Qed.

Lemma joint_founders (people : people_t) (w : world) :
  founders_only people ->
  joint people w == world_prod (fun _ => founder_factor) people w.
Proof.
  intros Hf. destruct w as [[ht og] tg]. unfold joint, joint_probability.
  assert (H : forall a,
             fold_left (fun final_prob '(person, rec) =>
                          final_prob * person_prob og tg ht person rec)
               people a
             == a * world_prod (fun _ => founder_factor) people (ht, og, tg)).
  { induction people as [|[person rec] people IH]; intros a; simpl; [ring|].
    rewrite IH.
    - rewrite person_prob_founder; [ring|].
      apply (Hf person rec). now left.
    - intros p r Hin. apply (Hf p r). now right. }
  rewrite H. ring.
Qed.

Lemma world_prod_at (p : string) (k : nat) (people : people_t) (w : world) :
  world_prod (founder_factor_at p k) people w
  == if mem p (keys people) && negb (Nat.eqb (world_gene w p) k) then 0
     else world_prod (fun _ => founder_factor) people w.
Proof.
  induction people as [|[q rec] rest IH]; simpl; [reflexivity|].
  rewrite IH. unfold founder_factor_at.
  rewrite (String.eqb_sym p q).
  destruct (String.eqb_spec q p) as [->|Hne]; simpl.
  - destruct (Nat.eqb (world_gene w p) k); simpl.
    + rewrite andb_false_r. reflexivity.
    + ring.
  - destruct (mem p (keys rest) && negb (Nat.eqb (world_gene w p) k)); ring.
Qed.

(** A person's gene bucket, for a population without parent links. *)
Lemma gene_mass_founders (people : people_t) (p : string) (k : nat) :
  NoDup (keys people) -> founders_only people -> In p (keys people) ->
  gene_mass people (worlds people) p k
  == person_sums (founder_factor_at p k) people.
Proof.
  intros Hnd Hf Hp. unfold gene_mass.
  rewrite (fold_cond_sum (fun w => Nat.eqb (world_gene w p) k)).
  rewrite (Qsum_perm _ _ (Permutation_map _ (worlds_canon people Hnd))).
  rewrite <- (canon_factor _ people Hnd).
  rewrite (Qsum_map_ext _ (world_prod (founder_factor_at p k) people)).
  - ring.
  - intros w _. rewrite world_prod_at.
    apply mem_In in Hp. rewrite Hp. simpl.
    destruct (Nat.eqb (world_gene w p) k); simpl;
      [apply joint_founders; assumption | reflexivity].
Qed.

Lemma choice_sum_self (p : string) (k : nat) (evidence : option bool) :
  (k <= 2)%nat ->
  choice_sum (founder_factor_at p k) p evidence
  == PROBS_gene k * likelihood evidence k.
Proof.
  intros Hk. unfold choice_sum, founder_factor_at, choices.
  destruct evidence as [[|]|]; destruct k as [|[|[|?]]]; try lia;
    simpl; rewrite !String.eqb_refl; simpl; vm_compute; reflexivity.
Qed.

Lemma choice_sum_other (p x : string) (k : nat) (evidence : option bool) :
  x <> p ->
  choice_sum (founder_factor_at p k) x evidence
  = choice_sum (fun _ => founder_factor) x evidence.
Proof.
  intros Hne. unfold choice_sum, founder_factor_at.
  destruct (String.eqb_spec x p); [contradiction | reflexivity].
Qed.

Lemma choice_sum_pos (x : string) (evidence : option bool) :
  0 < choice_sum (fun _ => founder_factor) x evidence.
Proof.
  destruct evidence as [[|]|]; vm_compute; reflexivity.
Qed.

Lemma others_pos (p : string) (people : people_t) : 0 < others p people.
Proof.
  induction people as [|[x rec] rest IH]; simpl; [reflexivity|].
  apply Qmult_lt_0_compat; [|exact IH].
  destruct (String.eqb x p); [reflexivity | apply choice_sum_pos].
Qed.

Lemma person_sums_notin (p : string) (k : nat) (people : people_t) :
  ~ In p (keys people) ->
  person_sums (founder_factor_at p k) people == others p people.
Proof.
  induction people as [|[x rec] rest IH]; intros Hp; simpl; [reflexivity|].
  simpl in Hp. rewrite IH by tauto.
  destruct (String.eqb_spec x p) as [->|Hne]; [tauto|].
  rewrite choice_sum_other by assumption. reflexivity.
Qed.

Lemma person_sums_split (p : string) (rec : person_t) (k : nat)
  (people : people_t) :
  NoDup (keys people) -> In (p, rec) people -> (k <= 2)%nat ->
  person_sums (founder_factor_at p k) people
  == PROBS_gene k * likelihood (trait rec) k * others p people.
Proof.
  intros Hnd Hin Hk. induction people as [|[x rec'] rest IH]; [destruct Hin|].
  simpl in Hnd. inversion Hnd as [|? ? Hx Hnd']; subst. simpl.
  destruct Hin as [[= -> ->]|Hin].
  - rewrite String.eqb_refl, choice_sum_self by assumption.
    rewrite person_sums_notin by assumption. ring.
  - destruct (String.eqb_spec x p) as [->|Hne].
    + exfalso. apply Hx. eapply in_keys; eauto.
    + rewrite choice_sum_other by assumption.
      rewrite IH by assumption. ring.
Qed.

Lemma normalize_dist_inv (d d' : dist) :
  normalize_dist d = Ok d' ->
  ~ 0 + gene0 d + gene1 d + gene2 d == 0 /\
  forall k, (k <= 2)%nat ->
    gene_acc d' k
    = gene_acc d k * (1 / (0 + gene0 d + gene1 d + gene2 d)).
Proof.
  unfold normalize_dist, inverse.
  destruct (Qeq_bool (0 + gene0 d + gene1 d + gene2 d) 0) eqn:E; simpl;
    [discriminate|].
  destruct (Qeq_bool (trait_false d + trait_true d) 0); simpl;
    [discriminate|].
  intros [= <-]. split.
  - intros H. apply Qeq_eq_bool in H. congruence.
  - intros k Hk. destruct k as [|[|[|?]]]; try lia; reflexivity.
Qed.

Lemma bayes_denominator (evidence : option bool) :
  0 < PROBS_gene 0 * likelihood evidence 0
      + PROBS_gene 1 * likelihood evidence 1
      + PROBS_gene 2 * likelihood evidence 2.
Proof.
  destruct evidence as [[|]|]; vm_compute; reflexivity.
Qed.

(** C8, as the program has it: in a population without parent links and
    with unique names, [main] returns for every person the prior re-weighted
    by the likelihood of that person's own trait evidence (Bayes' rule),
    whatever the evidence on the other persons; the gene distribution is the
    prior table 0.96, 0.03, 0.01 exactly for the persons whose own trait is
    unknown. *)
Theorem founders_posterior (people : people_t) (person : string)
  (rec : person_t) :
  NoDup (keys people) -> founders_only people -> In (person, rec) people ->
  exists probabilities d,
    main people = Ok probabilities /\
    get probabilities person = Ok d /\
    gene0 d == bayes (trait rec) 0 /\
    gene1 d == bayes (trait rec) 1 /\
    gene2 d == bayes (trait rec) 2 /\
    (trait rec = None ->
     gene0 d == 96 # 100 /\ gene1 d == 3 # 100 /\ gene2 d == 1 # 100).
Proof.
  intros Hnd Hf Hin.
  destruct (main_returns people Hnd) as [probs [Hmain [Hkeys Hentries]]].
  assert (Hp : In person (keys people)) by (eapply in_keys; eauto).
  destruct (in_keys_get probs person) as [d' Hget]; [now rewrite Hkeys|].
  destruct (Hentries person d' (get_ok_in _ _ _ Hget)) as [d [Hd Hnorm]].
  destruct (normalize_dist_inv d d' Hnorm) as [Hnz Hacc].
  destruct (main_loop_masses people person d Hd) as [Hmass _].
  assert (Hbucket : forall k, (k <= 2)%nat ->
             gene_acc d k
             == PROBS_gene k * likelihood (trait rec) k * others person people).
  { intros k Hk. rewrite (Hmass k Hk).
    rewrite gene_mass_founders by assumption.
    now apply person_sums_split. }
  pose proof (others_pos person people) as HR.
  pose proof (bayes_denominator (trait rec)) as HD.
  assert (Hsum : 0 + gene0 d + gene1 d + gene2 d
                 == (PROBS_gene 0 * likelihood (trait rec) 0
                     + PROBS_gene 1 * likelihood (trait rec) 1
                     + PROBS_gene 2 * likelihood (trait rec) 2)
                    * others person people).
  { pose proof (Hbucket 0%nat ltac:(lia)) as H0.
    pose proof (Hbucket 1%nat ltac:(lia)) as H1.
    pose proof (Hbucket 2%nat ltac:(lia)) as H2.
    simpl gene_acc in H0, H1, H2. rewrite H0, H1, H2. ring. }
  assert (Hbayes : forall k, (k <= 2)%nat -> gene_acc d' k == bayes (trait rec) k).
  { intros k Hk. rewrite (Hacc k Hk), Hsum, (Hbucket k Hk).
    unfold bayes. field. split; lra. }
  exists probs, d'. split; [exact Hmain|]. split; [exact Hget|].
  pose proof (Hbayes 0%nat ltac:(lia)) as B0.
  pose proof (Hbayes 1%nat ltac:(lia)) as B1.
  pose proof (Hbayes 2%nat ltac:(lia)) as B2.
  simpl gene_acc in B0, B1, B2.
  split; [exact B0|]. split; [exact B1|]. split; [exact B2|].
  intros Hnone. rewrite Hnone in B0, B1, B2.
  rewrite B0, B1, B2. repeat split; vm_compute; reflexivity.
Qed.

(** The theorem on two founders: Harry, whose trait is unknown, keeps the
    prior although James is observed with the trait. *)
Lemma founders_posterior_witness :
  exists probabilities d,
    main ex_founders = Ok probabilities /\
    get probabilities "Harry" = Ok d /\
    gene0 d == 96 # 100 /\ gene1 d == 3 # 100 /\ gene2 d == 1 # 100.
Proof.
  destruct (founders_posterior ex_founders "Harry"
              (mkPerson "Harry" None None None))
    as [probs [d [H1 [H2 [_ [_ [_ H]]]]]]].
  - simpl. repeat constructor; simpl; intuition discriminate.
  - intros person rec Hin. simpl in Hin.
    destruct Hin as [Hin|[Hin|[]]]; injection Hin as <- <-; split; reflexivity.
  - now left.
  - exists probs, d. split; [exact H1|]. split; [exact H2|].
    apply H. reflexivity.
Defined.

(** C8 fails: one founder observed with the trait has no parent links, and
    the gene distribution [main] returns gives 96/329 to zero copies, not the
    prior 0.96. *)
Lemma founder_with_evidence_not_prior :
  founders_only ex_harry_true /\
  exists probabilities d,
    main ex_harry_true = Ok probabilities /\
    get probabilities "Harry" = Ok d /\
    gene0 d == 96 # 329 /\
    ~ gene0 d == 96 # 100.
Proof.
  split.
  - intros person rec Hin. simpl in Hin.
    destruct Hin as [Hin|[]]; injection Hin as <- <-; split; reflexivity.
  - do 2 eexists.
    split; [vm_compute; reflexivity|].
    split; [vm_compute; reflexivity|].
    split; [vm_compute; reflexivity|].
    intros H. vm_compute in H. discriminate.
Qed.

End HeredityProofs.

(** ** Dictionaries and loops: further facts *)

Module PyMore.

Import PyFacts.

Lemma fold_left_inv {A S : Type} (P : S -> Prop) (f : S -> A -> S)
  (l : list A) (s : S) :
  P s -> (forall s x, In x l -> P s -> P (f s x)) -> P (fold_left f l s).
Proof.
  revert s. induction l as [|x l IH]; intros s Hs Hstep; simpl; [exact Hs|].
  apply IH.
  - apply Hstep; [now left | exact Hs].
  - intros s' y Hy. apply Hstep. now right.
Qed.

Lemma get_missing {V : Type} (d : dict V) (k : string) :
  ~ In k (keys d) -> get d k = Raise KeyError.
Proof.
  induction d as [|[k' v] d IH]; simpl; [reflexivity|].
  intros H. destruct (String.eqb_spec k k') as [->|Hne]; [tauto|].
  apply IH. tauto.
Qed.

Lemma NoDup_keys_set {V : Type} (d : dict V) (k : string) (v : V) :
  NoDup (keys d) -> NoDup (keys (set k v d)).
Proof.
  intros Hnd. destruct (in_dec string_dec k (keys d)) as [Hin|Hout].
  - now rewrite keys_set_in.
  - rewrite keys_set_notin by assumption. apply NoDup_app; auto.
    + repeat constructor. intros [].
    + intros a Ha [<-|[]]. contradiction.
Qed.

Lemma in_set {V : Type} (d : dict V) (k p : string) (v w : V) :
  In (p, w) (set k v d) -> (p = k /\ w = v) \/ In (p, w) d.
Proof.
  induction d as [|[k' v'] d IH]; simpl.
  - intros [[= <- <-]|[]]. now left.
  - destruct (String.eqb_spec k k') as [->|Hne]; simpl.
    + intros [[= <- <-]|H]; auto.
    + intros [H|H]; [now right; left|].
      destruct (IH H) as [?|?]; auto.
Qed.

Lemma set_fresh {V : Type} (d : dict V) (k : string) (v : V) :
  ~ In k (keys d) -> set k v d = d ++ [(k, v)].
Proof.
  induction d as [|[k' v'] d IH]; simpl; [reflexivity|].
  intros H. destruct (String.eqb_spec k k') as [->|Hne]; [tauto|].
  f_equal. apply IH. tauto.
Qed.

Lemma get_map_values {V W : Type} (g : string -> V -> W) (d : dict V)
  (k : string) :
  get (map (fun '(k, v) => (k, g k v)) d) k = (v <- get d k ;; Ok (g k v)).
Proof.
  induction d as [|[k' v'] d IH]; simpl; [reflexivity|].
  destruct (String.eqb_spec k k') as [->|Hne]; [reflexivity | exact IH].
Qed.

Lemma Forall_values_set {V : Type} (P : V -> Prop) (d : dict V) (k : string)
  (v : V) :
  Forall P (values d) -> P v -> Forall P (values (set k v d)).
Proof.
  intros Hd Hv. induction d as [|[k' v'] d IH]; simpl.
  - now constructor.
  - simpl in Hd. inversion Hd; subst.
    destruct (String.eqb_spec k k'); simpl; constructor; auto.
Qed.

Lemma get_Forall {V : Type} (P : V -> Prop) (d : dict V) (k : string) (c : V) :
  Forall P (values d) -> get d k = Ok c -> P c.
Proof.
  intros Hd Hg. apply get_ok_in in Hg.
  rewrite Forall_forall in Hd. apply Hd.
  unfold values. change c with (snd (k, c)). now apply in_map.
Qed.

(** A loop invariant indexed by the part of the list already walked. *)
Lemma for_each_prefix_inv {A S : Type} (P : list A -> S -> Prop)
  (body : S -> A -> result S) (xs : list A) (s0 s1 : S) :
  P [] s0 ->
  (forall pre x s s', incl (pre ++ [x]) xs -> P pre s -> body s x = Ok s' ->
     P (pre ++ [x]) s') ->
  for_each body xs s0 = Ok s1 -> P xs s1.
Proof.
  intros H0 Hstep.
  assert (H : forall rest pre s, pre ++ rest = xs -> P pre s ->
                for_each body rest s = Ok s1 -> P xs s1).
  { induction rest as [|x rest IH]; intros pre s Heq HP; simpl.
    - intros [= <-]. rewrite app_nil_r in Heq. now subst.
    - destruct (body s x) as [s'|] eqn:Hb; simpl; [|discriminate].
      apply (IH (pre ++ [x])).
      + now rewrite <- app_assoc.
      + apply (Hstep pre x s s'); auto.
        rewrite <- Heq. intros y Hy. apply in_app_or in Hy.
        apply in_or_app. destruct Hy as [Hy|[<-|[]]]; [now left|].
        right. now left. }
  apply (H xs [] s0); auto.
Qed.

End PyMore.

(** ** pagerank.py: further properties *)

Module PagerankExtra.

Import PyFacts PyMore Pagerank PagerankProofs.

Lemma NoDup_set_add (x : string) (s : list string) :
  NoDup s -> NoDup (set_add x s).
Proof.
  intros Hnd. unfold set_add. destruct (mem x s) eqn:Hm; [assumption|].
  apply mem_false in Hm. apply NoDup_app; auto.
  - repeat constructor. intros [].
  - intros a Ha [<-|[]]. contradiction.
Qed.

Lemma NoDup_to_set (l : list string) : NoDup (to_set l).
Proof.
  unfold to_set. apply fold_left_inv; [constructor|].
  intros s x _. apply NoDup_set_add.
Qed.

Lemma in_set_add_iff (p x : string) (s : list string) :
  In p (set_add x s) <-> In p s \/ p = x.
Proof.
  split; [apply in_set_add|].
  unfold set_add. intros [H| ->].
  - destruct (mem x s); [assumption | apply in_or_app; now left].
  - destruct (mem x s) eqn:Hm; [now apply mem_In|].
    apply in_or_app. right. now left.
Qed.

Lemma in_to_set (l : list string) (x : string) : In x (to_set l) <-> In x l.
Proof.
  unfold to_set.
  assert (H : forall acc, In x (fold_left (fun s y => set_add y s) l acc)
                          <-> In x acc \/ In x l).
  { induction l as [|y l IH]; intros acc; simpl; [tauto|].
    rewrite IH, in_set_add_iff. intuition congruence. }
  rewrite H. simpl. tauto.
Qed.

Lemma crawl_extract_entries (listing : list (string * list string)) :
  NoDup (keys (crawl_extract listing)) /\
  forall p ls, In (p, ls) (crawl_extract listing) ->
    endswith p ".html" = true /\
    exists links, In (p, links) listing /\ ls = cleaned p links.
Proof.
  unfold crawl_extract.
  apply (fold_left_inv
           (fun pages : corpus_t =>
              NoDup (keys pages) /\
              forall p ls, In (p, ls) pages ->
                endswith p ".html" = true /\
                exists links, In (p, links) listing /\ ls = cleaned p links)).
  - split; [constructor | intros ? ? []].
  - intros pages [filename links] Hin [Hnd Hent].
    destruct (endswith filename ".html") eqn:He; simpl; [|now split].
    split; [now apply NoDup_keys_set|].
    intros p ls H. apply in_set in H. destruct H as [[-> ->]|H]; [|auto].
    split; [assumption|]. now exists links.
Qed.

Lemma crawl_restrict_keys (pages : corpus_t) :
  keys (crawl_restrict pages) = keys pages.
Proof.
  unfold crawl_restrict, keys. rewrite map_map. apply map_ext.
  now intros [filename links].
Qed.

Lemma crawl_items (listing : list (string * list string)) (p : string)
  (ls : list string) :
  In (p, ls) (crawl listing) ->
  exists ls0, In (p, ls0) (crawl_extract listing) /\
              ls = filter (fun link => mem link (keys (crawl_extract listing)))
                     ls0.
Proof.
  intros H. unfold crawl, crawl_restrict in H.
  apply in_map_iff in H. destruct H as [[f ls0] [[= <- <-] H]].
  now exists ls0.
Qed.

Lemma crawl_wf (listing : list (string * list string)) :
  wf_corpus (crawl listing).
Proof.
  destruct (crawl_extract_entries listing) as [Hnd Hent]. split.
  - unfold crawl. now rewrite crawl_restrict_keys.
  - intros p ls H. destruct (crawl_items listing p ls H) as [ls0 [H0 ->]].
    destruct (Hent p ls0 H0) as [_ [links [_ ->]]]. split.
    + apply NoDup_filter. unfold cleaned. apply NoDup_filter, NoDup_to_set.
    + intros q Hq. apply filter_In in Hq. destruct Hq as [_ Hq].
      unfold crawl. rewrite crawl_restrict_keys. now apply mem_In.
Qed.

Lemma crawl_keys (listing : list (string * list string)) (f : string) :
  In f (keys (crawl listing)) <->
  In f (map fst listing) /\ endswith f ".html" = true.
Proof.
  unfold crawl. rewrite crawl_restrict_keys. unfold crawl_extract.
  assert (H : forall d : corpus_t,
            In f (keys (fold_left
                          (fun pages '(filename, links) =>
                             if negb (endswith filename ".html") then pages
                             else set filename
                                    (filter (fun x => negb (String.eqb x filename))
                                       (to_set links))
                                    pages)
                          listing d))
            <-> In f (keys d) \/
                (In f (map fst listing) /\ endswith f ".html" = true)).
  { induction listing as [|[g links] listing IH]; intros d; simpl.
    - tauto.
    - rewrite IH. destruct (endswith g ".html") eqn:He; simpl.
      + rewrite in_keys_set. intuition congruence.
      + intuition congruence. }
  rewrite H. simpl. tauto.
Qed.

(** X1: for a directory whose [.html] entries are readable files, given
    with the hrefs found in them, [crawl] establishes the corpus invariant,
    whatever names and hrefs occur: the pages are exactly the [.html]
    entries, each once, and every link set is duplicate-free, contains no
    link of a page to itself, and contains only pages of the corpus. *)
Theorem crawl_corpus_invariant (listing : list (string * list string)) :
  wf_corpus (crawl listing) /\
  (forall f, In f (keys (crawl listing)) <->
             In f (map fst listing) /\ endswith f ".html" = true) /\
  forall p ls, In (p, ls) (crawl listing) -> ~ In p ls.
Proof.
  split; [apply crawl_wf|]. split; [apply crawl_keys|].
  destruct (crawl_extract_entries listing) as [_ Hent].
  intros p ls H. destruct (crawl_items listing p ls H) as [ls0 [H0 ->]].
  destruct (Hent p ls0 H0) as [_ [links [_ ->]]].
  intros Hp. apply filter_In in Hp. destruct Hp as [Hp _].
  unfold cleaned in Hp. apply filter_In in Hp. destruct Hp as [_ Hp].
  now rewrite String.eqb_refl in Hp.
Qed.

Lemma crawl_corpus_invariant_example :
  crawl ex_listing = [("1.html", ["2.html"]); ("2.html", [])].
Proof. reflexivity. Qed.

Lemma crawl_extract_closed (listing : list (string * list string))
  (d : corpus_t) :
  NoDup (map fst listing) ->
  (forall f, In f (map fst listing) -> ~ In f (keys d)) ->
  fold_left (fun pages '(filename, links) =>
               if negb (endswith filename ".html") then pages
               else set filename
                      (filter (fun x => negb (String.eqb x filename))
                         (to_set links))
                      pages)
    listing d
  = d ++ map (fun '(f, links) => (f, cleaned f links))
           (filter (fun '(f, _) => endswith f ".html") listing).
Proof.
  revert d. induction listing as [|[f links] listing IH]; intros d Hnd Hfresh;
    simpl.
  - now rewrite app_nil_r.
  - simpl in Hnd. inversion Hnd as [|? ? Hf Hnd']; subst.
    destruct (endswith f ".html"); simpl.
    + rewrite IH; [|assumption|].
      * rewrite set_fresh by (apply Hfresh; now left).
        now rewrite <- app_assoc.
      * intros g Hg Hin. apply in_keys_set in Hin. destruct Hin as [->|Hin].
        -- contradiction.
        -- apply (Hfresh g); [now right | assumption].
    + apply IH; [assumption|]. intros g Hg. apply Hfresh. now right.
Qed.

(** X2: What [crawl] keeps, for a directory listing without repeated names:
    the pages are the [.html] entries in listing order, and page [p] links
    to [q] exactly when [q] occurs among the hrefs of [p], is not [p] itself
    and is an [.html] entry of the directory. *)
Theorem crawl_links (listing : list (string * list string)) :
  NoDup (map fst listing) ->
  keys (crawl listing)
  = filter (fun f => endswith f ".html") (map fst listing) /\
  forall p links, In (p, links) listing -> endswith p ".html" = true ->
    exists ls,
      get (crawl listing) p = Ok ls /\
      forall q, In q ls <->
                In q links /\ q <> p /\
                In q (map fst listing) /\ endswith q ".html" = true.
Proof.
  intros Hnd.
  assert (Hext : crawl_extract listing
                 = map (fun '(f, links) => (f, cleaned f links))
                     (filter (fun '(f, _) => endswith f ".html") listing)).
  { unfold crawl_extract. rewrite crawl_extract_closed; auto. }
  assert (Hkeys : keys (crawl_extract listing)
                  = filter (fun f => endswith f ".html") (map fst listing)).
  { rewrite Hext. unfold keys. rewrite map_map. clear.
    induction listing as [|[f l] listing IH]; simpl; [reflexivity|].
    destruct (endswith f ".html"); simpl; now rewrite IH. }
  split.
  - unfold crawl. now rewrite crawl_restrict_keys.
  - intros p links Hin He.
    assert (Hget : get (crawl_extract listing) p = Ok (cleaned p links)).
    { apply in_get_nodup.
      - rewrite Hkeys. now apply NoDup_filter.
      - rewrite Hext. apply in_map_iff. exists (p, links). split; [reflexivity|].
        apply filter_In. now split. }
    unfold crawl, crawl_restrict.
    rewrite (get_map_values
               (fun _ ls => filter (fun link =>
                                      mem link (keys (crawl_extract listing)))
                              ls)).
    rewrite Hget. simpl. eexists. split; [reflexivity|].
    intros q. rewrite filter_In, mem_In, Hkeys, filter_In.
    unfold cleaned. rewrite filter_In, in_to_set.
    destruct (String.eqb_spec q p) as [->|Hne]; simpl;
      intuition congruence.
Qed.

Lemma crawl_links_witness :
  exists ls,
    get (crawl ex_listing) "1.html" = Ok ls /\
    forall q, In q ls <->
              In q ["2.html"; "1.html"; "2.html"; "http://example.org/"] /\
              q <> "1.html" /\
              In q (map fst ex_listing) /\ endswith q ".html" = true.
Proof.
  assert (Hnd : NoDup (map fst ex_listing)).
  { simpl. repeat constructor; simpl; intuition discriminate. }
  destruct (crawl_links ex_listing Hnd) as [_ H].
  apply (H "1.html"); [now left | reflexivity].
Defined.

(** *** The transition model *)

Lemma transition_model_values_witness :
  exists model,
    transition_model ex_chain "1.html" (1 # 2) = Ok model /\
    get model "2.html"
    = Ok ((if mem "2.html" ["2.html"] then DAMPING / len ["2.html"] else 0)
          + (1 - DAMPING) / len ex_chain).
Proof.
  apply (transition_model_values ex_chain "1.html" (1 # 2) ["2.html"] "2.html").
  - exact wf_ex_chain.
  - reflexivity.
  - simpl. auto.
Defined.

(** X4: A page that is not a key of the corpus makes [transition_model] fail
    with [KeyError] at [corpus[page]], for any corpus. *)
Theorem transition_model_missing_page (corpus : corpus_t) (page : string)
  (d : Q) :
  ~ In page (keys corpus) -> transition_model corpus page d = Raise KeyError.
Proof.
  intros H. unfold transition_model. now rewrite get_missing.
Qed.

Lemma transition_model_missing_page_witness :
  transition_model ex_pair "3.html" (85 # 100) = Raise KeyError.
Proof.
  apply (transition_model_missing_page ex_pair "3.html" (85 # 100)).
  simpl. intuition discriminate.
Defined.

Lemma len_ge_1 {A : Type} (l : list A) : l <> [] -> 1 <= len l.
Proof.
  destruct l as [|a l]; [congruence|]. intros _.
  pose proof (len_cons a l). pose proof (len_nonneg l). lra.
Qed.

Lemma div_bounds (a k : Q) :
  0 < a -> 1 <= k -> 0 < a / k /\ a / k <= a.
Proof.
  intros Ha Hk. split.
  - apply Qlt_shift_div_l; lra.
  - apply Qle_shift_div_r; [lra|]. nra.
Qed.

(** X5: For a corpus that satisfies the invariant, every probability of the
    returned distribution is positive and at most 1, so the sampler's
    weights are always valid. *)
Theorem transition_model_positive (corpus : corpus_t) (page : string) (d : Q) :
  wf_corpus corpus -> In page (keys corpus) ->
  exists model,
    transition_model corpus page d = Ok model /\
    forall x v, get model x = Ok v -> 0 < v /\ v <= 1.
Proof.
  intros Hwf Hin. destruct (wf_get corpus page Hwf Hin) as [links [Hg Hl]].
  exists (model_of corpus links). split; [now apply transition_model_closed|].
  intros x v Hx.
  assert (Hk : In x (keys corpus)).
  { apply get_ok_in_keys in Hx. unfold model_of in Hx.
    now rewrite keys_tabulate in Hx. }
  unfold model_of in Hx. rewrite get_tabulate in Hx by assumption.
  injection Hx as <-.
  assert (HN : 1 <= len corpus).
  { apply len_ge_1. intros ->. destruct Hl. }
  destruct (Nat.eqb_spec (List.length links) 0) as [H0|H0].
  - destruct (div_bounds 1 (len corpus)); [reflexivity | assumption | auto].
  - assert (HK : 1 <= len links).
    { apply len_ge_1. intros ->. now apply H0. }
    destruct (div_bounds (1 - DAMPING) (len corpus)) as [B1 B2];
      [reflexivity | assumption |].
    destruct (div_bounds DAMPING (len links)) as [L1 L2];
      [reflexivity | assumption |].
    assert (HD : DAMPING == 85 # 100) by reflexivity.
    destruct (mem x links); split; lra.
Qed.

Lemma transition_model_positive_witness :
  exists model,
    transition_model ex_chain "2.html" (85 # 100) = Ok model /\
    forall x v, get model x = Ok v -> 0 < v /\ v <= 1.
Proof.
  apply (transition_model_positive ex_chain "2.html" (85 # 100)).
  - exact wf_ex_chain.
  - simpl. auto.
Defined.

(** *** The sampler *)

(** X6: The two ways [sample_pagerank] fails: [random.choice] raises
    [IndexError] on an empty corpus, and with [n = 0] the division by [n]
    raises [ZeroDivisionError] after the first page has been drawn. *)
Theorem sample_pagerank_errors :
  (forall d n r, sample_pagerank [] d n r = Raise IndexError) /\
  (forall corpus d r, wf_corpus corpus -> corpus <> [] ->
     sample_pagerank corpus d 0 r = Raise ZeroDivisionError).
Proof.
  split; [reflexivity|].
  intros corpus d r Hwf Hne. pose proof Hwf as [Hnd _]. unfold sample_pagerank.
  rewrite (fold_set_init (fun _ => 0)) by assumption.
  destruct (random_choice_in corpus (r O) Hne) as [item [Hrc Hin]].
  rewrite Hrc. cbn [bind].
  assert (Hitem : In (fst item) (keys corpus)).
  { unfold keys. now apply in_map. }
  rewrite get_tabulate by assumption. cbn [bind].
  rewrite set_tabulate by assumption.
  cbn [Nat.sub seq for_each bind snd]. rewrite keys_tabulate.
  destruct (keys corpus) as [|k ks] eqn:Hk; [destruct Hitem|].
  cbn [for_each tabulate map get]. rewrite String.eqb_refl. reflexivity.
Qed.

Lemma sample_pagerank_errors_witness :
  sample_pagerank ex_pair (85 # 100) 0 (fun _ => 1 # 3)
  = Raise ZeroDivisionError.
Proof.
  apply (proj2 sample_pagerank_errors ex_pair (85 # 100) (fun _ => 1 # 3)).
  - exact wf_ex_pair.
  - discriminate.
Defined.

Lemma sample_step_inv (corpus : corpus_t) (d : Q) (pageList : list string)
  (r : rng) (page page' : string) (pr pr' : dict Q) (i : nat) :
  sample_step corpus d pageList r (page, pr) i = Ok (page', pr') ->
  exists c, get pr page' = Ok c /\ pr' = set page' (c + 1) pr.
Proof.
  unfold sample_step.
  destruct (transition_model corpus page d) as [model|]; simpl; [|discriminate].
  destruct (for_each _ pageList []) as [prob|]; simpl; [|discriminate].
  destruct (random_choices pageList prob (r (S i))) as [p|]; simpl;
    [|discriminate].
  destruct (get pr p) as [c|] eqn:Hc; simpl; [|discriminate].
  intros [= <- <-]. now exists c.
Qed.

Lemma is_count_succ (c : Q) : is_count c -> is_count (c + 1).
Proof.
  intros [k Hk]. exists (S k). rewrite Hk, Nat2Z.inj_succ.
  unfold Z.succ. rewrite inject_Z_plus. reflexivity.
Qed.

Lemma sample_loop_counts (corpus : corpus_t) (d : Q) (pageList : list string)
  (r : rng) (steps : list nat) (st st' : string * dict Q) :
  for_each (sample_step corpus d pageList r) steps st = Ok st' ->
  Forall is_count (values (snd st)) -> Forall is_count (values (snd st')).
Proof.
  intros Hloop Hst.
  apply (for_each_inv (fun s => Forall is_count (values (snd s)))
           (sample_step corpus d pageList r) steps st st'); auto.
  intros [page pr] i [page' pr'] _ HP Hstep. simpl in *.
  apply sample_step_inv in Hstep. destruct Hstep as [c [Hc ->]].
  apply Forall_values_set; [assumption|].
  apply is_count_succ. eapply get_Forall; eauto.
Qed.

Lemma Qsum_bound (l : list Q) (v : Q) :
  Forall (fun x => 0 <= x) l -> In v l -> v <= Qsum l.
Proof.
  induction l as [|x l IH]; intros Hl Hin; [destruct Hin|].
  inversion Hl as [|? ? Hx Hl']; subst. simpl.
  assert (0 <= Qsum l).
  { clear -Hl'. induction l as [|y l IHl]; simpl; [lra|].
    inversion Hl'; subst. specialize (IHl H2). lra. }
  destruct Hin as [->|Hin]; [lra|]. specialize (IH Hl' Hin). lra.
Qed.

Lemma is_count_nonneg (v : Q) : is_count v -> 0 <= v.
Proof.
  intros [k ->]. change 0 with (inject_Z 0). rewrite <- Zle_Qle. lia.
Qed.

Lemma sample_pagerank_counts (corpus : corpus_t) (d : Q) (n : nat) (r : rng) :
  wf_corpus corpus -> corpus <> [] -> (1 <= n)%nat ->
  exists ranks,
    sample_pagerank corpus d n r = Ok ranks /\
    forall page v, get ranks page = Ok v ->
      exists k : nat,
        (k <= n)%nat /\
        v == inject_Z (Z.of_nat k) / inject_Z (Z.of_nat n) /\
        0 <= v /\ v <= 1.
Proof.
  intros Hwf Hne Hn. pose proof Hwf as [Hnd _]. unfold sample_pagerank.
  rewrite (fold_set_init (fun _ => 0)) by assumption.
  rewrite fold_append. simpl app.
  destruct (random_choice_in corpus (r O) Hne) as [item [Hrc Hin]].
  rewrite Hrc. cbn [bind].
  assert (Hitem : In (fst item) (keys corpus)).
  { unfold keys. now apply in_map. }
  rewrite get_tabulate by assumption. cbn [bind].
  assert (Hfirst : Qsum (values (set (fst item) (0 + 1)
                                   (tabulate (fun _ => 0) (keys corpus))))
                   == 1).
  { rewrite (Qsum_values_set _ _ 0)
      by now apply (get_tabulate (fun _ => 0)).
    rewrite values_tabulate, Qsum_const. ring. }
  assert (Hcount0 : Forall is_count
                      (values (set (fst item) (0 + 1)
                                 (tabulate (fun _ => 0) (keys corpus))))).
  { apply Forall_values_set.
    - rewrite values_tabulate. apply Forall_forall. intros x Hx.
      apply in_map_iff in Hx. destruct Hx as [? [<- _]]. now exists 0%nat.
    - now exists 1%nat. }
  rewrite set_tabulate in Hfirst, Hcount0 |- * by assumption.
  destruct (sample_loop_ok corpus d r (seq 0 (n - 1)) (fst item)
              (tabulate (fun x => if String.eqb x (fst item) then 0 + 1 else 0)
                 (keys corpus)) Hwf Hitem (keys_tabulate _ _))
    as [[page pr] [Hloop [Hk Hsum]]].
  pose proof (sample_loop_counts _ _ _ _ _ _ _ Hloop Hcount0) as Hcounts.
  rewrite Hloop. cbn [bind snd]. simpl snd in Hk, Hsum, Hcounts.
  rewrite (for_each_ext _
             (fun m page0 => v <- get m page0 ;;
                             Ok (set page0 (v / inject_Z (Z.of_nat n)) m))).
  2:{ intros m x _. destruct (Nat.eqb_spec n 0); [lia | reflexivity]. }
  assert (Htotal : Qsum (values pr) == inject_Z (Z.of_nat n)).
  { rewrite Hsum, Hfirst. unfold len. rewrite length_seq.
    replace (Z.of_nat n) with (1 + Z.of_nat (n - 1))%Z by lia.
    rewrite inject_Z_plus. reflexivity. }
  assert (Hnpos : 0 < inject_Z (Z.of_nat n)).
  { change 0 with (inject_Z 0). rewrite <- Zlt_Qlt. lia. }
  rewrite (dict_as_tabulate pr) by now rewrite Hk.
  rewrite keys_tabulate, Hk.
  rewrite (update_each_tabulate (fun v => v / inject_Z (Z.of_nat n)))
    by (assumption || apply incl_refl).
  eexists. split; [reflexivity|].
  intros x v Hx.
  assert (Hxk : In x (keys corpus)).
  { apply get_ok_in_keys in Hx. now rewrite keys_tabulate in Hx. }
  rewrite get_tabulate in Hx by assumption.
  apply mem_In in Hxk. rewrite Hxk in Hx. apply mem_In in Hxk.
  injection Hx as <-.
  destruct (in_keys_get pr x) as [c Hc]; [now rewrite Hk|].
  rewrite Hc.
  assert (Hcc : is_count c) by (eapply get_Forall; eauto).
  assert (Hle : c <= inject_Z (Z.of_nat n)).
  { rewrite <- Htotal. apply Qsum_bound.
    - apply Forall_forall. intros y Hy. apply is_count_nonneg.
      rewrite Forall_forall in Hcounts. now apply Hcounts.
    - apply get_ok_in in Hc. unfold values.
      change c with (snd (x, c)). now apply in_map. }
  pose proof (is_count_nonneg c Hcc) as Hc0.
  destruct Hcc as [k Hkc]. exists k.
  assert (Hkn : (k <= n)%nat).
  { rewrite Hkc in Hle. rewrite <- Zle_Qle in Hle. lia. }
  split; [exact Hkn|]. split; [now rewrite Hkc|]. split.
  - apply Qle_shift_div_l; lra.
  - apply Qle_shift_div_r; lra.
Qed.

(** X7: For a non-empty corpus that satisfies the invariant, any [n >= 1] and
    any stream of draws, [sample_pagerank] returns a rank for exactly the
    pages of the corpus; every rank is a visit count between 0 and [n]
    divided by [n], hence lies between 0 and 1, and the ranks add up to 1. *)
Theorem sample_pagerank_ranks (corpus : corpus_t) (d : Q) (n : nat) (r : rng) :
  wf_corpus corpus -> corpus <> [] -> (1 <= n)%nat ->
  exists ranks,
    sample_pagerank corpus d n r = Ok ranks /\
    keys ranks = keys corpus /\
    Qsum (values ranks) == 1 /\
    forall page v, get ranks page = Ok v ->
      exists k : nat,
        (k <= n)%nat /\
        v == inject_Z (Z.of_nat k) / inject_Z (Z.of_nat n) /\
        0 <= v /\ v <= 1.
Proof.
  intros Hwf Hne Hn.
  destruct (sample_pagerank_sums_to_one corpus d n r Hwf Hne Hn)
    as [ranks [Hrun [Hk Hsum]]].
  destruct (sample_pagerank_counts corpus d n r Hwf Hne Hn)
    as [ranks' [Hrun' Hcounts]].
  assert (E : ranks' = ranks) by congruence. subst ranks'.
  now exists ranks.
Qed.

Lemma sample_pagerank_ranks_witness :
  exists ranks,
    sample_pagerank ex_pair (85 # 100) 3 (fun _ => 1 # 3) = Ok ranks /\
    keys ranks = keys ex_pair /\
    Qsum (values ranks) == 1 /\
    forall page v, get ranks page = Ok v ->
      exists k : nat,
        (k <= 3)%nat /\
        v == inject_Z (Z.of_nat k) / inject_Z (Z.of_nat 3) /\
        0 <= v /\ v <= 1.
Proof.
  apply (sample_pagerank_ranks ex_pair (85 # 100) 3 (fun _ => 1 # 3)).
  - exact wf_ex_pair.
  - discriminate.
  - lia.
Defined.

(** *** The inverted link relation *)

Lemma inverted_inner (corpus : corpus_t) (pre : list string) (x : string)
  (links : list string) (pl pl' : dict (list string)) :
  inverted_upto corpus pre pl ->
  for_each (fun pl page2 =>
              s <- get pl page2 ;; Ok (set page2 (set_add x s) pl))
    links pl = Ok pl' ->
  inverted_upto corpus pre pl' /\
  forall q parents, In q links -> get pl' q = Ok parents -> In x parents.
Proof.
  intros Hinv.
  apply (for_each_prefix_inv
           (fun done s =>
              inverted_upto corpus pre s /\
              forall q parents, In q done -> get s q = Ok parents ->
                In x parents)).
  - split; [assumption | intros ? ? []].
  - intros done page2 s s' _ [[Hk [Hnd Hc]] Hdone] Hstep.
    destruct (get s page2) as [s0|] eqn:Hs0; simpl in Hstep; [|discriminate].
    injection Hstep as <-.
    assert (Hget : forall q parents,
               get (set page2 (set_add x s0) s) q = Ok parents ->
               (q = page2 /\ parents = set_add x s0) \/
               (q <> page2 /\ get s q = Ok parents)).
    { intros q parents Hq.
      destruct (String.eqb_spec page2 q) as [->|Hne].
      - rewrite get_set_same in Hq. injection Hq as <-. now left.
      - rewrite get_set_other in Hq by assumption. right. split; congruence. }
    split; [split; [|split]|].
    + rewrite keys_set_in; [assumption|]. eapply get_ok_in_keys; eauto.
    + intros q parents Hq. destruct (Hget q parents Hq) as [[-> ->]|[_ Hq']].
      * apply NoDup_set_add. eapply Hnd; eauto.
      * eapply Hnd; eauto.
    + intros p ls q parents Hp Hls Hq Hgq.
      destruct (Hget q parents Hgq) as [[-> ->]|[_ Hq']].
      * apply in_set_add_iff. left. eapply Hc; eauto.
      * eapply Hc; eauto.
    + intros q parents Hq Hgq.
      destruct (Hget q parents Hgq) as [[-> ->]|[Hne Hq']].
      * apply in_set_add_iff. now right.
      * apply in_app_or in Hq. destruct Hq as [Hq|[Hq|[]]]; [|congruence].
        eapply Hdone; eauto.
Qed.

Lemma build_page_link_complete (corpus : corpus_t) (pl : dict (list string)) :
  NoDup (keys corpus) -> build_page_link corpus = Ok pl ->
  inverted_upto corpus (keys corpus) pl.
Proof.
  intros Hnd. unfold build_page_link.
  apply (for_each_prefix_inv (inverted_upto corpus)).
  - split; [|split].
    + rewrite (fold_set_init (fun _ => [])) by assumption.
      apply keys_tabulate.
    + intros q parents Hq. apply get_fold_set in Hq.
      destruct Hq as [->|Hq]; [constructor | discriminate].
    + intros ? ? ? ? [].
  - intros pre x s s' _ Hinv Hbody.
    destruct (get corpus x) as [links|] eqn:Hlinks; simpl in Hbody;
      [|discriminate].
    destruct (inverted_inner corpus pre x links s s' Hinv Hbody)
      as [[Hk [Hn Hc]] Hx].
    split; [assumption|]. split; [assumption|].
    intros p ls q parents Hp Hls Hq Hgq.
    apply in_app_or in Hp. destruct Hp as [Hp|[<-|[]]].
    + eapply Hc; eauto.
    + rewrite Hlinks in Hls. injection Hls as <-. eapply Hx; eauto.
Qed.

(** X8: For a corpus that satisfies the invariant, the dictionary built at the
    start of [iterate_pagerank] is exactly the inverse of the link relation:
    it has the pages of the corpus as keys, and the set it holds for [q]
    lists, without repetition, the pages that link to [q]. *)
Theorem build_page_link_inverse (corpus : corpus_t) :
  wf_corpus corpus ->
  exists pl,
    build_page_link corpus = Ok pl /\
    keys pl = keys corpus /\
    forall q parents, get pl q = Ok parents ->
      NoDup parents /\
      forall p, In p parents <->
                exists links, get corpus p = Ok links /\ In q links.
Proof.
  intros Hwf. destruct (build_page_link_total corpus Hwf) as [pl Hpl].
  destruct (build_page_link_complete corpus pl (proj1 Hwf) Hpl)
    as [Hk [Hnd Hc]].
  pose proof (build_page_link_sound corpus pl Hpl) as Hs.
  exists pl. split; [assumption|]. split; [assumption|].
  intros q parents Hq. split; [eapply Hnd; eauto|].
  intros p. split.
  - intros Hp. eapply Hs; eauto.
  - intros [links [Hl Hin]]. eapply Hc; eauto.
    eapply get_ok_in_keys; eauto.
Qed.

Lemma build_page_link_inverse_witness :
  exists pl,
    build_page_link ex_three = Ok pl /\
    keys pl = keys ex_three /\
    forall q parents, get pl q = Ok parents ->
      NoDup parents /\
      forall p, In p parents <->
                exists links, get ex_three p = Ok links /\ In q links.
Proof.
  apply (build_page_link_inverse ex_three). split.
  - simpl. repeat constructor; simpl; intuition discriminate.
  - intros p ls H. simpl in H.
    destruct H as [H|[H|[H|[]]]]; injection H as <- <-; split;
      try (repeat constructor; simpl; intuition discriminate);
      simpl; intuition (subst; auto).
Defined.

(** *** The iterative solver *)

#[local] Arguments sweep_step : simpl never.

Lemma sweep_step_full_inv (corpus : corpus_t) (pl : dict (list string))
  (d n : Q) (ok ok' : bool) (r r' : dict Q) (page : string) :
  sweep_step corpus pl d n (ok, r) page = Ok (ok', r') ->
  exists new old,
    new_rank_of corpus pl d n r page = Ok new /\
    get r page = Ok old /\
    r' = set page new r /\
    ok' = if Qlt_le_dec (1 # 1000) (Qabs (old - new)) then false else ok.
Proof.
  unfold sweep_step.
  destruct (new_rank_of corpus pl d n r page) as [new|]; simpl; [|discriminate].
  destruct (get r page) as [old|]; simpl; [|discriminate].
  intros H. injection H as <- <-. now exists new, old.
Qed.

Lemma parent_sum_total (corpus : corpus_t) (n : Q) (rank : dict Q)
  (parents : list string) :
  (forall p, In p parents -> In p (keys corpus) /\ In p (keys rank)) ->
  exists s, parent_sum corpus n rank parents = Ok s.
Proof.
  intros H. unfold parent_sum.
  destruct (for_each_total (fun _ : Q => True)
              (fun s parent_page =>
                 links <- get corpus parent_page ;;
                 let num_links := List.length links in
                 r <- get rank parent_page ;;
                 if negb (Nat.eqb num_links 0) then Ok (s + r / len links)
                 else Ok (s + r / n))
              parents 0) as [s [Hs _]]; auto.
  - intros s p Hp _. destruct (H p Hp) as [Hc Hr].
    destruct (in_keys_get corpus p Hc) as [links ->].
    destruct (in_keys_get rank p Hr) as [v ->]. simpl.
    destruct (negb (Nat.eqb (List.length links) 0)); eauto.
  - now exists s.
Qed.

Lemma sweep_total (corpus : corpus_t) (pl : dict (list string)) (d n : Q)
  (rank : dict Q) :
  keys pl = keys corpus -> parents_link corpus pl ->
  keys rank = keys corpus ->
  exists ok rank',
    sweep corpus pl d n rank = Ok (ok, rank') /\ keys rank' = keys corpus.
Proof.
  intros Hpl Hs Hr. unfold sweep.
  destruct (for_each_total (fun st : bool * dict Q => keys (snd st) = keys corpus)
              (sweep_step corpus pl d n) (keys corpus) (true, rank))
    as [[ok r'] [Hrun Hk]]; auto.
  - intros [ok r] page Hpage Hkr. simpl in Hkr. unfold sweep_step, new_rank_of.
    destruct (in_keys_get pl page) as [parents Hparents];
      [now rewrite Hpl|].
    rewrite Hparents. simpl.
    destruct (parent_sum_total corpus n r parents) as [s Hsum].
    { intros p Hp. destruct (Hs page parents p Hparents Hp) as [links [Hl _]].
      apply get_ok_in_keys in Hl. rewrite Hkr. auto. }
    rewrite Hsum. simpl.
    destruct (in_keys_get r page) as [old Hold]; [now rewrite Hkr|].
    rewrite Hold. simpl. eexists. split; [reflexivity|]. simpl.
    rewrite keys_set_in; [assumption | now rewrite Hkr].
  - now exists ok, r'.
Qed.

Lemma iterate_pagerank_start (corpus : corpus_t) :
  wf_corpus corpus ->
  exists pl,
    build_page_link corpus = Ok pl /\
    keys pl = keys corpus /\ parents_link corpus pl /\
    keys (fold_left (fun m page => set page (1 / len corpus) m)
            (keys corpus) []) = keys corpus.
Proof.
  intros Hwf. destruct (build_page_link_total corpus Hwf) as [pl Hpl].
  destruct (build_page_link_complete corpus pl (proj1 Hwf) Hpl) as [Hk _].
  exists pl. split; [assumption|]. split; [assumption|].
  split; [now apply build_page_link_sound|].
  rewrite (fold_set_init (fun _ => 1 / len corpus)) by apply Hwf.
  apply keys_tabulate.
Qed.

Lemma iterate_loop_no_raise (corpus : corpus_t) (pl : dict (list string))
  (d n : Q) (fuel : nat) (rank : dict Q) (res : result (dict Q)) :
  keys pl = keys corpus -> parents_link corpus pl ->
  keys rank = keys corpus ->
  iterate_loop fuel corpus pl d n rank = Some res ->
  exists ranks, res = Ok ranks /\ keys ranks = keys corpus.
Proof.
  intros Hk Hs. revert rank.
  induction fuel as [|fuel IH]; intros rank Hr; simpl; [discriminate|].
  destruct (sweep_total corpus pl d n rank Hk Hs Hr)
    as [ok [rank' [Hsw Hk']]].
  rewrite Hsw. destruct ok.
  - intros [= <-]. now exists rank'.
  - now apply IH.
Qed.

(** X9: For a corpus that satisfies the invariant, [iterate_pagerank] never
    raises: whenever the loop stops, it returns a rank for exactly the pages
    of the corpus. *)
Theorem iterate_pagerank_no_error (corpus : corpus_t) (d : Q) (fuel : nat)
  (res : result (dict Q)) :
  wf_corpus corpus ->
  iterate_pagerank fuel corpus d = Some res ->
  exists ranks, res = Ok ranks /\ keys ranks = keys corpus.
Proof.
  intros Hwf. unfold iterate_pagerank.
  destruct (iterate_pagerank_start corpus Hwf) as [pl [Hpl [Hk [Hs H0]]]].
  rewrite Hpl. now apply iterate_loop_no_raise.
Qed.

Lemma iterate_pagerank_no_error_witness :
  exists res ranks,
    iterate_pagerank 2 ex_chain DAMPING = Some res /\
    res = Ok ranks /\ keys ranks = keys ex_chain.
Proof.
  assert (H : { res | iterate_pagerank 2 ex_chain DAMPING = Some res })
    by (eexists; vm_compute; reflexivity).
  destruct H as [res H].
  destruct (iterate_pagerank_no_error ex_chain DAMPING 2 res wf_ex_chain H)
    as [ranks [H1 H2]].
  now exists res, ranks.
Defined.

Lemma sweep_run_converged (corpus : corpus_t) (pl : dict (list string))
  (d n : Q) (xs : list string) (ok0 : bool) (r0 r1 : dict Q) :
  NoDup xs ->
  for_each (sweep_step corpus pl d n) xs (ok0, r0) = Ok (true, r1) ->
  ok0 = true /\
  forall p v v', In p xs -> get r0 p = Ok v -> get r1 p = Ok v' ->
    Qabs (v - v') <= 1 # 1000.
Proof.
  revert ok0 r0. induction xs as [|x xs IH]; intros ok0 r0 Hnd; simpl.
  - intros [= -> ->]. split; [reflexivity | intros ? ? ? []].
  - inversion Hnd as [|? ? Hx Hnd']; subst.
    destruct (sweep_step corpus pl d n (ok0, r0) x) as [[okx rx]|] eqn:Hstep;
      simpl; [|discriminate].
    intros Hrest.
    destruct (IH okx rx Hnd' Hrest) as [Hokx Hsmall].
    pose proof (sweep_untouched _ _ _ _ _ _ _ Hrest) as Hun. simpl in Hun.
    apply sweep_step_full_inv in Hstep.
    destruct Hstep as [new [old [Hnew [Hold [-> Hok]]]]].
    revert Hokx. rewrite Hok.
    destruct (Qlt_le_dec (1 # 1000) (Qabs (old - new))) as [Hbig|Hle];
      [discriminate|].
    intros Hokx. split; [assumption|].
    intros p v v' [<-|Hp] Hv Hv'.
    + rewrite Hun in Hv' by assumption. rewrite get_set_same in Hv'.
      rewrite Hold in Hv. injection Hv as <-. injection Hv' as <-.
      exact Hle.
    + apply (Hsmall p v v' Hp); [|assumption].
      rewrite get_set_other; [assumption|]. intros ->. contradiction.
Qed.

Lemma iterate_loop_last_sweep (corpus : corpus_t) (pl : dict (list string))
  (d n : Q) (fuel : nat) (rank r : dict Q) :
  iterate_loop fuel corpus pl d n rank = Some (Ok r) ->
  exists prev, sweep corpus pl d n prev = Ok (true, r).
Proof.
  revert rank. induction fuel as [|fuel IH]; intros rank; simpl;
    [discriminate|].
  destruct (sweep corpus pl d n rank) as [[ok rank']|] eqn:Hsw;
    [|discriminate].
  destruct ok.
  - intros [= <-]. now exists rank.
  - apply IH.
Qed.

(** X10: What the stopping test guarantees: the ranks [iterate_pagerank] returns
    are the outcome of one more in-place sweep over some rank dictionary
    [prev], and that sweep moved no page by more than 0.001. *)
Theorem iterate_pagerank_converged (corpus : corpus_t) (d : Q) (fuel : nat)
  (r : dict Q) :
  NoDup (keys corpus) ->
  iterate_pagerank fuel corpus d = Some (Ok r) ->
  exists pl prev,
    build_page_link corpus = Ok pl /\
    sweep corpus pl d (len corpus) prev = Ok (true, r) /\
    forall p v v', In p (keys corpus) ->
      get prev p = Ok v -> get r p = Ok v' -> Qabs (v - v') <= 1 # 1000.
Proof.
  intros Hnd. unfold iterate_pagerank.
  destruct (build_page_link corpus) as [pl|] eqn:Hpl; [|discriminate].
  intros Hloop. apply iterate_loop_last_sweep in Hloop.
  destruct Hloop as [prev Hprev]. exists pl, prev.
  split; [reflexivity|]. split; [assumption|].
  unfold sweep in Hprev.
  now destruct (sweep_run_converged _ _ _ _ _ _ _ _ Hnd Hprev).
Qed.

Lemma iterate_pagerank_converged_witness :
  exists r pl prev,
    iterate_pagerank 2 ex_chain DAMPING = Some (Ok r) /\
    build_page_link ex_chain = Ok pl /\
    sweep ex_chain pl DAMPING (len ex_chain) prev = Ok (true, r) /\
    forall p v v', In p (keys ex_chain) ->
      get prev p = Ok v -> get r p = Ok v' -> Qabs (v - v') <= 1 # 1000.
Proof.
  assert (H : { r | iterate_pagerank 2 ex_chain DAMPING = Some (Ok r) })
    by (eexists; vm_compute; reflexivity).
  destruct H as [r H].
  destruct (iterate_pagerank_converged ex_chain DAMPING 2 r
              (proj1 wf_ex_chain) H) as [pl [prev H']].
  exists r, pl, prev. split; [exact H | exact H'].
Defined.

Lemma parent_sum_nonneg (corpus : corpus_t) (n : Q) (rank : dict Q)
  (parents : list string) (s : Q) :
  0 < n -> Forall (fun x => 0 <= x) (values rank) ->
  parent_sum corpus n rank parents = Ok s -> 0 <= s.
Proof.
  intros Hn Hrank. unfold parent_sum.
  apply (for_each_inv (fun s : Q => 0 <= s)); [|lra].
  intros s0 p s1 _ Hs0.
  destruct (get corpus p) as [links|]; simpl; [|discriminate].
  destruct (get rank p) as [r|] eqn:Hr; simpl; [|discriminate].
  assert (Hr0 : 0 <= r) by (eapply (get_Forall (fun x => 0 <= x)); eauto).
  destruct (Nat.eqb_spec (List.length links) 0) as [H0|H0]; simpl;
    intros [= <-].
  - assert (0 <= r / n) by (apply Qle_shift_div_l; lra). lra.
  - assert (Hl : 0 < len links).
    { apply len_pos. intros ->. now apply H0. }
    assert (0 <= r / len links) by (apply Qle_shift_div_l; lra). lra.
Qed.

Lemma new_rank_floor (corpus : corpus_t) (pl : dict (list string)) (d n : Q)
  (rank : dict Q) (page : string) (v : Q) :
  0 <= d -> 0 < n -> Forall (fun x => 0 <= x) (values rank) ->
  new_rank_of corpus pl d n rank page = Ok v -> (1 - d) / n <= v.
Proof.
  intros Hd Hn Hrank. unfold new_rank_of.
  destruct (get pl page) as [parents|]; simpl; [|discriminate].
  destruct (parent_sum corpus n rank parents) as [s|] eqn:Hs; simpl;
    [|discriminate].
  intros [= <-]. apply parent_sum_nonneg in Hs; auto.
  pose proof (Qmult_le_0_compat d s Hd Hs). lra.
Qed.

Lemma sweep_floor (corpus : corpus_t) (pl : dict (list string)) (d n : Q)
  (xs : list string) (st st' : bool * dict Q) :
  0 <= d -> d <= 1 -> 0 < n ->
  Forall (fun x => 0 <= x) (values (snd st)) ->
  for_each (sweep_step corpus pl d n) xs st = Ok st' ->
  Forall (fun x => 0 <= x) (values (snd st')) /\
  forall p v, In p xs -> get (snd st') p = Ok v -> (1 - d) / n <= v.
Proof.
  intros Hd Hd1 Hn Hst.
  assert (Hbase : 0 <= (1 - d) / n) by (apply Qle_shift_div_l; lra).
  apply (for_each_prefix_inv
           (fun pre s =>
              Forall (fun x => 0 <= x) (values (snd s)) /\
              forall p v, In p pre -> get (snd s) p = Ok v ->
                (1 - d) / n <= v)).
  - split; [assumption | intros ? ? []].
  - intros pre x [ok r] [ok' r'] _ [Hnn Hpre] Hstep. simpl in *.
    apply sweep_step_full_inv in Hstep.
    destruct Hstep as [new [old [Hnew [_ [-> _]]]]].
    pose proof (new_rank_floor _ _ _ _ _ _ _ Hd Hn Hnn Hnew) as Hfloor.
    split.
    + apply Forall_values_set; [assumption | lra].
    + intros p v Hp Hv. destruct (String.eqb_spec x p) as [->|Hne].
      * rewrite get_set_same in Hv. now injection Hv as <-.
      * rewrite get_set_other in Hv by assumption.
        apply in_app_or in Hp. destruct Hp as [Hp|[Hp|[]]]; [|congruence].
        now apply (Hpre p v).
Qed.

Lemma iterate_loop_floor (corpus : corpus_t) (pl : dict (list string))
  (d : Q) (fuel : nat) (rank r : dict Q) :
  0 <= d -> d <= 1 -> corpus <> [] ->
  Forall (fun x => 0 <= x) (values rank) ->
  iterate_loop fuel corpus pl d (len corpus) rank = Some (Ok r) ->
  forall p v, In p (keys corpus) -> get r p = Ok v ->
    (1 - d) / len corpus <= v.
Proof.
  intros Hd Hd1 Hne. revert rank.
  induction fuel as [|fuel IH]; intros rank Hrank; simpl; [discriminate|].
  destruct (sweep corpus pl d (len corpus) rank) as [[ok rank']|] eqn:Hsw;
    [|discriminate].
  destruct (sweep_floor corpus pl d (len corpus) (keys corpus)
              (true, rank) (ok, rank') Hd Hd1 (len_pos corpus Hne) Hrank Hsw)
    as [Hnn Hfl].
  destruct ok.
  - intros [= <-]. exact Hfl.
  - now apply IH.
Qed.

(** X11: With a damping factor between 0 and 1, every rank [iterate_pagerank]
    returns for a page of the corpus is at least the baseline
    [(1 - d) / N]. *)
Theorem iterate_pagerank_floor (corpus : corpus_t) (d : Q) (fuel : nat)
  (r : dict Q) :
  0 <= d -> d <= 1 ->
  iterate_pagerank fuel corpus d = Some (Ok r) ->
  forall p v, In p (keys corpus) -> get r p = Ok v ->
    (1 - d) / len corpus <= v.
Proof.
  intros Hd Hd1. unfold iterate_pagerank.
  destruct (build_page_link corpus) as [pl|]; [|discriminate].
  intros Hloop p v Hp.
  assert (Hne : corpus <> []) by (intros ->; destruct Hp).
  revert p v Hp.
  refine (iterate_loop_floor corpus pl d fuel _ r Hd Hd1 Hne _ Hloop).
  apply (fold_left_inv (fun m : dict Q => Forall (fun x => 0 <= x) (values m)));
    [constructor|].
  intros m x _ Hm. apply Forall_values_set; [assumption|].
  pose proof (len_pos corpus Hne). apply Qle_shift_div_l; lra.
Qed.

Lemma iterate_pagerank_floor_witness :
  exists r,
    iterate_pagerank 2 ex_chain DAMPING = Some (Ok r) /\
    forall p v, In p (keys ex_chain) -> get r p = Ok v ->
      (1 - DAMPING) / len ex_chain <= v.
Proof.
  assert (H : { r | iterate_pagerank 2 ex_chain DAMPING = Some (Ok r) })
    by (eexists; vm_compute; reflexivity).
  destruct H as [r H]. exists r. split; [exact H|].
  apply (iterate_pagerank_floor ex_chain DAMPING 2 r); [| |exact H].
  - unfold DAMPING. lra.
  - unfold DAMPING. lra.
Defined.

(** *** The run of [main] *)

Lemma SAMPLES_pos : (1 <= SAMPLES)%nat.
Proof. apply Nat.leb_le. vm_compute. reflexivity. Qed.

(** X12: What [main] gets from its three calls.  For a directory without
    an [.html] entry (no file is opened) the corpus is empty and the sampler
    stops the program with [IndexError].  For a directory with at least one
    [.html] entry, all of them readable files given with their hrefs, the
    sampler returns ranks for exactly the crawled pages, adding up to 1, for
    any stream of draws, and the iterative solver raises nothing on the
    crawled corpus. *)
Theorem main_on_directory (listing : list (string * list string)) (r : rng) :
  ((forall f links, In (f, links) listing -> endswith f ".html" = false) ->
   crawl listing = [] /\
   sample_pagerank (crawl listing) DAMPING SAMPLES r = Raise IndexError) /\
  ((exists f links, In (f, links) listing /\ endswith f ".html" = true) ->
   (exists ranks,
      sample_pagerank (crawl listing) DAMPING SAMPLES r = Ok ranks /\
      keys ranks = keys (crawl listing) /\
      Qsum (values ranks) == 1) /\
   (forall fuel res,
      iterate_pagerank fuel (crawl listing) DAMPING = Some res ->
      exists ranks, res = Ok ranks /\ keys ranks = keys (crawl listing))).
Proof.
  split.
  - intros Hno.
    assert (E : crawl listing = []).
    { destruct (crawl listing) as [|[f ls] c] eqn:Hc; [reflexivity|].
      assert (Hf : In f (keys (crawl listing))) by (rewrite Hc; now left).
      apply crawl_keys in Hf. destruct Hf as [Hf He].
      apply in_map_iff in Hf. destruct Hf as [[f' links] [Hfst Hin]].
      simpl in Hfst. subst f'. rewrite (Hno f links Hin) in He.
      discriminate. }
    split; [assumption|]. now rewrite E.
  - intros [f [links [Hin He]]].
    assert (Hne : crawl listing <> []).
    { intros E.
      assert (Hf : In f (keys (crawl listing))).
      { apply crawl_keys. split; [|assumption].
        change f with (fst (f, links)). now apply in_map. }
      rewrite E in Hf. destruct Hf. }
    split.
    + apply sample_pagerank_sums_to_one;
        [apply crawl_wf | assumption | apply SAMPLES_pos].
    + intros fuel res. unfold iterate_pagerank.
      destruct (iterate_pagerank_start (crawl listing) (crawl_wf listing))
        as [pl [Hpl [Hk [Hs H0]]]].
      rewrite Hpl. now apply iterate_loop_no_raise.
Qed.

Lemma main_on_directory_witness :
  (exists ranks,
     sample_pagerank (crawl ex_listing) DAMPING SAMPLES (fun _ => 1 # 3)
     = Ok ranks /\
     keys ranks = keys (crawl ex_listing) /\
     Qsum (values ranks) == 1) /\
  (forall fuel res,
     iterate_pagerank fuel (crawl ex_listing) DAMPING = Some res ->
     exists ranks, res = Ok ranks /\ keys ranks = keys (crawl ex_listing)).
Proof.
  apply (proj2 (main_on_directory ex_listing (fun _ => 1 # 3))).
  exists "1.html", ["2.html"; "1.html"; "2.html"; "http://example.org/"].
  split; [now left | reflexivity].
Defined.

End PagerankExtra.

(** ** heredity.py: further properties *)

Module HeredityExtra.

Import PyFacts PyMore Heredity HeredityProofs.

(** *** Loading the data *)

Lemma load_data_get_later (rows : list row_t) (data : people_t) (k : string) :
  (forall r, In r rows -> row_name r <> k) ->
  get (fold_left (fun data row => set (row_name row) (to_person row) data)
         rows data) k
  = get data k.
Proof.
  revert data. induction rows as [|r rows IH]; intros data H; simpl;
    [reflexivity|].
  rewrite IH by (intros; apply H; now right).
  apply get_set_other. apply H. now left.
Qed.

Lemma load_data_NoDup (rows : list row_t) : NoDup (keys (load_data rows)).
Proof.
  unfold load_data.
  apply (fold_left_inv (fun data : people_t => NoDup (keys data)));
    [constructor|].
  intros data row _. apply NoDup_keys_set.
Qed.

(** X13: [load_data] keeps one record per name: the names are distinct, every
    record carries its key as its name and comes from a row, and the record
    found under a name is the one of the last row with that name. *)
Theorem load_data_table (rows : list row_t) :
  NoDup (keys (load_data rows)) /\
  (forall k rec, In (k, rec) (load_data rows) ->
     name rec = k /\ exists row, In row rows /\ rec = to_person row) /\
  (forall pre row post, rows = pre ++ row :: post ->
     (forall r, In r post -> row_name r <> row_name row) ->
     get (load_data rows) (row_name row) = Ok (to_person row)).
Proof.
  split; [apply load_data_NoDup|]. split.
  - unfold load_data.
    apply (fold_left_inv
             (fun data : people_t =>
                forall k rec, In (k, rec) data ->
                  name rec = k /\
                  exists row, In row rows /\ rec = to_person row)).
    + intros ? ? [].
    + intros data row Hrow Hd k rec Hin. apply in_set in Hin.
      destruct Hin as [[-> ->]|Hin]; [|auto].
      split; [reflexivity|]. now exists row.
  - intros pre row post -> Hpost. unfold load_data.
    rewrite fold_left_app. simpl.
    rewrite load_data_get_later by assumption. apply get_set_same.
Qed.

Lemma load_data_table_witness :
  get (load_data ex_rows) "James"
  = Ok (to_person (mkRow "James" "" "" "1")).
Proof.
  destruct (load_data_table ex_rows) as [_ [_ H]].
  apply (H [mkRow "Harry" "Lily" "James" ""] (mkRow "James" "" "" "1")
           [mkRow "Lily" "" "" "0"]).
  - reflexivity.
  - intros r [<-|[]]. discriminate.
Defined.

(** X14: Whatever rows the file holds, the run of [main] on the loaded data
    raises nothing: it returns one normalized entry per name. *)
Theorem main_load_data_returns (rows : list row_t) :
  exists probabilities,
    main (load_data rows) = Ok probabilities /\
    keys probabilities = keys (load_data rows).
Proof.
  destruct (main_returns (load_data rows) (load_data_NoDup rows))
    as [probs [H1 [H2 _]]].
  now exists probs.
Qed.

(** *** The enumeration of subsets *)

(** X15: [powerset(s)] of a list of distinct names lists every subset exactly
    once: 2^len(s) entries without repetition, each the sub-list of [s]
    selected by some predicate, and every such sub-list is listed. *)
Theorem powerset_subsets (l : list string) :
  NoDup l ->
  NoDup (powerset l) /\
  List.length (powerset l) = (2 ^ List.length l)%nat /\
  (forall f, In (filter f l) (powerset l)) /\
  (forall s, In s (powerset l) -> s = filter (fun x => mem x s) l).
Proof.
  intros Hnd. split; [now apply powerset_NoDup|].
  split; [apply powerset_length|]. split.
  - intros f. apply powerset_In, filter_in_subseqs.
  - intros s Hs. apply subseqs_filter; [assumption|]. now apply powerset_In.
Qed.

Lemma powerset_subsets_witness :
  NoDup (powerset ["Harry"; "James"; "Lily"]) /\
  List.length (powerset ["Harry"; "James"; "Lily"]) = 8%nat.
Proof.
  destruct (powerset_subsets ["Harry"; "James"; "Lily"]) as [H1 [H2 _]].
  - repeat constructor; simpl; intuition discriminate.
  - split; [exact H1 | exact H2].
Defined.

(** *** The joint probability *)

Lemma person_prob_le_1 (one_gene two_genes have_trait : list string)
  (person : string) (rec : person_t) :
  person_prob one_gene two_genes have_trait person rec <= 1.
Proof.
  unfold person_prob, gene_in, PROBS_mutation.
  destruct (mother rec); destruct (mem person one_gene);
    destruct (mem person two_genes); destruct (mem person have_trait);
    try destruct (opt_mem (Some s) one_gene);
    try destruct (opt_mem (Some s) two_genes);
    try destruct (opt_mem (father rec) one_gene);
    try destruct (opt_mem (father rec) two_genes);
    apply Qle_bool_imp_le; reflexivity.
Qed.

Lemma person_prob_floor (one_gene two_genes have_trait : list string)
  (person : string) (rec : person_t) :
  1 # 1000000 <= person_prob one_gene two_genes have_trait person rec.
Proof.
  unfold person_prob, gene_in, PROBS_mutation.
  destruct (mother rec); destruct (mem person one_gene);
    destruct (mem person two_genes); destruct (mem person have_trait);
    try destruct (opt_mem (Some s) one_gene);
    try destruct (opt_mem (Some s) two_genes);
    try destruct (opt_mem (father rec) one_gene);
    try destruct (opt_mem (father rec) two_genes);
    apply Qle_bool_imp_le; reflexivity.
Qed.

Lemma floor_pow_succ (n : nat) :
  Nat.iter (S n) (Qmult (1 # 1000000)) 1
  = (1 # 1000000) * Nat.iter n (Qmult (1 # 1000000)) 1.
Proof. reflexivity. Qed.

Lemma floor_pow_nonneg (n : nat) : 0 <= Nat.iter n (Qmult (1 # 1000000)) 1.
Proof.
  induction n as [|n IH]; [cbn; lra|]. rewrite floor_pow_succ. nra.
Qed.

Lemma floor_pow_antitone (k n : nat) :
  Nat.iter (k + n) (Qmult (1 # 1000000)) 1
  <= Nat.iter n (Qmult (1 # 1000000)) 1.
Proof.
  induction k as [|k IH]; [apply Qle_refl|].
  change (S k + n)%nat with (S (k + n)). rewrite floor_pow_succ.
  pose proof (floor_pow_nonneg (k + n)). nra.
Qed.

Lemma joint_fold_floor (og tg ht : list string) (people : people_t) (a : Q) :
  0 <= a ->
  a * Nat.iter (List.length people) (Qmult (1 # 1000000)) 1
  <= fold_left (fun final_prob '(person, rec) =>
                  final_prob * person_prob og tg ht person rec) people a.
Proof.
  revert a. induction people as [|[person rec] people IH]; intros a Ha.
  - cbn. lra.
  - cbn [fold_left List.length]. rewrite floor_pow_succ.
    pose proof (person_prob_floor og tg ht person rec) as Hp.
    pose proof (floor_pow_nonneg (List.length people)) as Hf.
    eapply Qle_trans; [|apply IH; nra].
    assert (H1 : a * (1 # 1000000) <= a * person_prob og tg ht person rec)
      by nra.
    nra.
Qed.

(** X16: for a population of at most 50 persons and any three sets,
    [joint_probability] returns a value between 10^-301 and 1: every person
    contributes a factor of at least 10^-6, so the product of the factors
    stays far away from zero.  (The limit on the size is what the statement
    needs to hold of the double-precision product as well; over the
    rationals the product is positive for every population.) *)
Theorem joint_probability_bounds (people : people_t)
  (one_gene two_genes have_trait : list string) :
  (List.length people <= 50)%nat ->
  (1 # 10) ^ 301 <= joint_probability people one_gene two_genes have_trait /\
  joint_probability people one_gene two_genes have_trait <= 1.
Proof.
  intros Hlen. split.
  - unfold joint_probability.
    assert (H50 : (1 # 10) ^ 301 <= Nat.iter 50 (Qmult (1 # 1000000)) 1)
      by (apply Qle_bool_imp_le; vm_compute; reflexivity).
    assert (Hn : Nat.iter 50 (Qmult (1 # 1000000)) 1
                 <= Nat.iter (List.length people) (Qmult (1 # 1000000)) 1).
    { replace 50%nat with ((50 - List.length people) + List.length people)%nat
        by lia.
      apply floor_pow_antitone. }
    pose proof (joint_fold_floor one_gene two_genes have_trait people 1) as Hf.
    eapply Qle_trans; [exact H50|]. eapply Qle_trans; [exact Hn|].
    eapply Qle_trans; [|apply Hf; lra]. lra.
  - unfold joint_probability.
    assert (H : forall a, 0 < a -> a <= 1 ->
              fold_left (fun final_prob '(person, rec) =>
                           final_prob
                           * person_prob one_gene two_genes have_trait
                               person rec) people a <= 1).
    { clear Hlen.
      induction people as [|[person rec] people IH]; intros a Ha Ha1; simpl;
        [exact Ha1|].
      pose proof (person_prob_pos one_gene two_genes have_trait person rec).
      pose proof (person_prob_le_1 one_gene two_genes have_trait person rec).
      apply IH; nra. }
    apply H; lra.
Qed.

Lemma joint_probability_bounds_witness :
  (1 # 10) ^ 301 <= joint_probability ex_family ["Harry"] ["James"] ["James"] /\
  joint_probability ex_family ["Harry"] ["James"] ["James"] <= 1.
Proof.
  apply (joint_probability_bounds ex_family ["Harry"] ["James"] ["James"]).
  simpl. lia.
Defined.

Lemma person_prob_mem_ext (og tg ht og' tg' ht' : list string)
  (person : string) (rec : person_t) :
  (forall p, In p og <-> In p og') ->
  (forall p, In p tg <-> In p tg') ->
  (forall p, In p ht <-> In p ht') ->
  person_prob og tg ht person rec = person_prob og' tg' ht' person rec.
Proof.
  intros H1 H2 H3.
  assert (M : forall s s', (forall p, In p s <-> In p s') ->
                forall p, mem p s = mem p s').
  { intros s s' H p. apply eq_true_iff_eq. rewrite !mem_In. apply H. }
  unfold person_prob, gene_in, opt_mem.
  rewrite (M og og' H1 person), (M tg tg' H2 person), (M ht ht' H3 person).
  destruct (mother rec) as [m|]; [|reflexivity].
  rewrite (M og og' H1 m), (M tg tg' H2 m).
  destruct (father rec) as [f|]; [|reflexivity].
  rewrite (M og og' H1 f), (M tg tg' H2 f). reflexivity.
Qed.

Lemma joint_fold_product (og tg ht : list string) (people : people_t) (a : Q) :
  fold_left (fun final_prob '(person, rec) =>
               final_prob * person_prob og tg ht person rec) people a
  == a * Qprod (map (fun '(person, rec) => person_prob og tg ht person rec)
                  people).
Proof.
  revert a. induction people as [|[person rec] people IH]; intros a; simpl.
  - ring.
  - rewrite IH. ring.
Qed.

Lemma Qprod_perm (l l' : list Q) : Permutation l l' -> Qprod l == Qprod l'.
Proof.
  induction 1; simpl.
  - reflexivity.
  - now rewrite IHPermutation.
  - ring.
  - now rewrite IHPermutation1.
Qed.

(** X17: [joint_probability] reads its three sets only through membership and
    its population only as a collection: listing the members of a set in
    another order or more than once, or the persons in another order, does
    not change the result. *)
Theorem joint_probability_invariant (people people' : people_t)
  (og tg ht og' tg' ht' : list string) :
  (forall p, In p og <-> In p og') ->
  (forall p, In p tg <-> In p tg') ->
  (forall p, In p ht <-> In p ht') ->
  Permutation people people' ->
  joint_probability people og tg ht == joint_probability people' og' tg' ht'.
Proof.
  intros H1 H2 H3 Hperm. unfold joint_probability.
  rewrite !joint_fold_product.
  rewrite (Qprod_perm _ _ (Permutation_map _ Hperm)).
  rewrite (map_ext (fun '(person, rec) => person_prob og tg ht person rec)
             (fun '(person, rec) => person_prob og' tg' ht' person rec)).
  - reflexivity.
  - intros [person rec]. now apply person_prob_mem_ext.
Qed.

Lemma joint_probability_invariant_witness :
  joint_probability ex_family ["Harry"] ["James"] ["James"]
  == joint_probability (rev ex_family) ["Harry"; "Harry"] ["James"]
       ["James"].
Proof.
  apply (joint_probability_invariant ex_family (rev ex_family)).
  - intros p. simpl. tauto.
  - intros p. tauto.
  - intros p. tauto.
  - apply Permutation_rev.
Defined.

(** X18: A person's factor is a conditional distribution: with everybody else's
    assignment fixed (and the person not listed as their own parent), the
    factors of the six ways to assign the person a gene count and a trait
    value add up to 1. *)
Theorem person_prob_distribution (ht og tg : list string) (person : string)
  (rec : person_t) :
  ~ In person ht -> ~ In person og -> ~ In person tg ->
  mother rec <> Some person -> father rec <> Some person ->
  Qsum (map (fun c =>
               let '(ht', og', tg') := extend person c (ht, og, tg) in
               person_prob og' tg' ht' person rec)
          (choices None)) == 1.
Proof.
  intros Hh Ho Ht Hm Hf.
  apply mem_false in Hh, Ho, Ht.
  assert (Hopt : forall (o : option string) (s : list string) (b : bool),
             o <> Some person ->
             opt_mem o (if b then person :: s else s) = opt_mem o s).
  { intros [m|] s b Hne; [|reflexivity]. simpl.
    apply mem_cons_other. congruence. }
  unfold choices, trait_choices. simpl.
  unfold person_prob, gene_in. simpl.
  rewrite !String.eqb_refl, ?Hh, ?Ho, ?Ht.
  rewrite ?(Hopt (mother rec) og true Hm), ?(Hopt (mother rec) tg true Hm),
    ?(Hopt (father rec) og true Hf), ?(Hopt (father rec) tg true Hf).
  unfold PROBS_mutation.
  destruct (mother rec) as [m|]; simpl.
  - destruct (mem m og); destruct (mem m tg);
      destruct (opt_mem (father rec) og); destruct (opt_mem (father rec) tg);
      vm_compute; reflexivity.
  - vm_compute. reflexivity.
Qed.

Lemma person_prob_distribution_witness :
  Qsum (map (fun c =>
               let '(ht', og', tg') :=
                 extend "Harry" c ([], ["Lily"], ["James"]) in
               person_prob og' tg' ht' "Harry"
                 (mkPerson "Harry" (Some "Lily") (Some "James") None))
          (choices None)) == 1.
Proof.
  apply (person_prob_distribution [] ["Lily"] ["James"] "Harry"
           (mkPerson "Harry" (Some "Lily") (Some "James") None));
    simpl; intuition discriminate.
Defined.

(** *** Normalization and the result of [main] *)

Lemma normalize_dist_eq (d d' : dist) :
  normalize_dist d = Ok d' ->
  ~ 0 + gene0 d + gene1 d + gene2 d == 0 /\
  ~ trait_false d + trait_true d == 0 /\
  d' = mkDist (gene0 d * (1 / (0 + gene0 d + gene1 d + gene2 d)))
         (gene1 d * (1 / (0 + gene0 d + gene1 d + gene2 d)))
         (gene2 d * (1 / (0 + gene0 d + gene1 d + gene2 d)))
         (trait_true d * (1 / (trait_false d + trait_true d)))
         (trait_false d * (1 / (trait_false d + trait_true d))).
Proof.
  unfold normalize_dist, inverse.
  destruct (Qeq_bool (0 + gene0 d + gene1 d + gene2 d) 0) eqn:E; simpl;
    [discriminate|].
  destruct (Qeq_bool (trait_false d + trait_true d) 0) eqn:E'; simpl;
    [discriminate|].
  intros [= <-]. repeat split.
  - intros H. apply Qeq_eq_bool in H. congruence.
  - intros H. apply Qeq_eq_bool in H. congruence.
Qed.

(** X19: [normalize] on a table of probability masses: when every
    accumulator lies between 0 and 1 and every person's gene total and trait
    total is at least 10^-300, [normalize] returns; it keeps the names,
    every value of the result lies between 0 and 1, each person's gene
    values and trait values add up to 1, and the proportions are kept: each
    value is the old one divided by the old total.  (The bounds keep the
    double-precision totals and their inverses finite; over the rationals
    non-zero totals are enough.) *)
Theorem normalize_sums_to_one (probabilities : probabilities_t) :
  (forall person d, In (person, d) probabilities ->
     nonneg_dist d /\
     gene0 d <= 1 /\ gene1 d <= 1 /\ gene2 d <= 1 /\
     trait_true d <= 1 /\ trait_false d <= 1 /\
     (1 # 10) ^ 300 <= gene0 d + gene1 d + gene2 d /\
     (1 # 10) ^ 300 <= trait_true d + trait_false d) ->
  exists probabilities',
    normalize probabilities = Ok probabilities' /\
    keys probabilities' = keys probabilities /\
    forall person d', In (person, d') probabilities' ->
      gene0 d' + gene1 d' + gene2 d' == 1 /\
      trait_true d' + trait_false d' == 1 /\
      nonneg_dist d' /\
      gene0 d' <= 1 /\ gene1 d' <= 1 /\ gene2 d' <= 1 /\
      trait_true d' <= 1 /\ trait_false d' <= 1 /\
      exists d,
        In (person, d) probabilities /\
        (forall k, (k <= 2)%nat ->
           gene_acc d' k * (gene0 d + gene1 d + gene2 d) == gene_acc d k) /\
        (forall b,
           trait_acc d' b * (trait_true d + trait_false d) == trait_acc d b).
Proof.
  intros Hmass.
  assert (Heps : 0 < (1 # 10) ^ 300)
    by (apply Qlt_alt; vm_compute; reflexivity).
  revert Hmass Heps. generalize ((1 # 10) ^ 300) as eps. intros eps Hmass Heps.
  destruct (normalize_ok probabilities) as [probs' [Hn [Hk Hin]]].
  { intros person d Hd.
    destruct (Hmass person d Hd) as [_ [_ [_ [_ [_ [_ [Hg Ht]]]]]]].
    split; intros H; lra. }
  exists probs'. split; [assumption|]. split; [assumption|].
  intros person d' Hd'.
  destruct (Hin person d' Hd') as [d [Hd Hnd]].
  destruct (Hmass person d Hd)
    as [[H0 [H1 [H2 [H3 H4]]]] [_ [_ [_ [_ [_ [Hg Ht]]]]]]].
  destruct (normalize_dist_eq d d' Hnd) as [_ [_ ->]].
  assert (Hgp : 0 < 0 + gene0 d + gene1 d + gene2 d) by lra.
  assert (Htp : 0 < trait_false d + trait_true d) by lra.
  assert (Hdiv : forall x t, 0 <= x -> 0 < t -> 0 <= x * (1 / t)).
  { intros x t Hx Hpos. assert (0 <= 1 / t) by (apply Qle_shift_div_l; lra).
    now apply Qmult_le_0_compat. }
  assert (Hsum_g : gene0 d * (1 / (0 + gene0 d + gene1 d + gene2 d))
                   + gene1 d * (1 / (0 + gene0 d + gene1 d + gene2 d))
                   + gene2 d * (1 / (0 + gene0 d + gene1 d + gene2 d)) == 1)
    by (field; lra).
  assert (Hsum_t : trait_true d * (1 / (trait_false d + trait_true d))
                   + trait_false d * (1 / (trait_false d + trait_true d)) == 1)
    by (field; lra).
  pose proof (Hdiv _ _ H0 Hgp). pose proof (Hdiv _ _ H1 Hgp).
  pose proof (Hdiv _ _ H2 Hgp). pose proof (Hdiv _ _ H3 Htp).
  pose proof (Hdiv _ _ H4 Htp).
  unfold nonneg_dist. cbn [gene0 gene1 gene2 trait_true trait_false].
  repeat (split; [lra|]).
  exists d. split; [assumption|]. split.
  - intros k Hk2. destruct k as [|[|[|?]]]; try lia; simpl; field; lra.
  - intros b. destruct b; simpl; field; lra.
Qed.

Lemma normalize_sums_to_one_witness :
  exists probabilities',
    normalize [("Harry", mkDist (1 # 10) (2 # 10) (3 # 10) (1 # 10) (3 # 10))]
    = Ok probabilities' /\
    forall person d', In (person, d') probabilities' ->
      gene0 d' + gene1 d' + gene2 d' == 1 /\
      trait_true d' + trait_false d' == 1.
Proof.
  destruct (normalize_sums_to_one
              [("Harry", mkDist (1 # 10) (2 # 10) (3 # 10) (1 # 10) (3 # 10))])
    as [probs' [Hn [_ Hall]]].
  - intros person d [[= <- <-]|[]]. unfold nonneg_dist.
    cbn [gene0 gene1 gene2 trait_true trait_false].
    repeat split; apply Qle_bool_imp_le; vm_compute; reflexivity.
  - exists probs'. split; [exact Hn|].
    intros person d' H. destruct (Hall person d' H) as [H1 [H2 _]].
    now split.
Defined.

Lemma record_fold_nonneg (people : people_t) (ws : list world)
  (probs : probabilities_t) :
  (forall person d, In (person, d) probs -> nonneg_dist d) ->
  forall person d, In (person, d) (fold_left (record people) ws probs) ->
    nonneg_dist d.
Proof.
  revert probs. induction ws as [|[[ht og] tg] ws IH]; intros probs Hp;
    simpl; [exact Hp|].
  apply IH. intros person d Hin. unfold update in Hin.
  apply in_map_iff in Hin. destruct Hin as [[p0 d0] [[= <- <-] Hin]].
  destruct (Hp p0 d0 Hin) as [H0 [H1 [H2 [H3 H4]]]].
  pose proof (joint_probability_pos people og tg ht) as Hpos.
  unfold nonneg_dist.
  destruct (gene_in og tg p0) as [|[|?]]; destruct (mem p0 ht); simpl;
    repeat split; lra.
Qed.

Lemma main_loop_nonneg (people : people_t) (person : string) (d : dist) :
  In (person, d) (main_loop people) -> nonneg_dist d.
Proof.
  rewrite main_loop_worlds. apply record_fold_nonneg.
  intros p d0 Hin. unfold init_probabilities in Hin.
  apply in_map_iff in Hin. destruct Hin as [[p0 rec] [[= _ <-] _]].
  unfold nonneg_dist. simpl. repeat split; lra.
Qed.

(** X20: For every population with distinct names, [main] returns for every
    person a gene distribution and a trait distribution: all values lie
    between 0 and 1, the three gene values add up to 1 and the two trait
    values add up to 1. *)
Theorem main_distributions_valid (people : people_t) :
  NoDup (keys people) ->
  exists probabilities,
    main people = Ok probabilities /\
    keys probabilities = keys people /\
    forall person d, In (person, d) probabilities ->
      gene0 d + gene1 d + gene2 d == 1 /\
      trait_true d + trait_false d == 1 /\
      nonneg_dist d /\
      gene0 d <= 1 /\ gene1 d <= 1 /\ gene2 d <= 1 /\
      trait_true d <= 1 /\ trait_false d <= 1.
Proof.
  intros Hnd. destruct (main_returns people Hnd) as [probs [Hmain [Hk Hin]]].
  exists probs. split; [assumption|]. split; [assumption|].
  intros person d' Hd'. destruct (Hin person d' Hd') as [d [Hd Hnorm]].
  destruct (main_loop_positive people person d Hnd Hd) as [Hg Ht].
  destruct (main_loop_nonneg people person d Hd) as [H0 [H1 [H2 [H3 H4]]]].
  destruct (normalize_dist_eq d d' Hnorm) as [_ [_ ->]].
  assert (Hdiv : forall x t, 0 <= x -> 0 < t -> 0 <= x * (1 / t)).
  { intros x t Hx Hpos. assert (0 <= 1 / t) by (apply Qle_shift_div_l; lra).
    now apply Qmult_le_0_compat. }
  assert (Hsum_g : gene0 d * (1 / (0 + gene0 d + gene1 d + gene2 d))
                   + gene1 d * (1 / (0 + gene0 d + gene1 d + gene2 d))
                   + gene2 d * (1 / (0 + gene0 d + gene1 d + gene2 d)) == 1)
    by (field; lra).
  assert (Hsum_t : trait_true d * (1 / (trait_false d + trait_true d))
                   + trait_false d * (1 / (trait_false d + trait_true d)) == 1)
    by (field; lra).
  pose proof (Hdiv _ _ H0 Hg). pose proof (Hdiv _ _ H1 Hg).
  pose proof (Hdiv _ _ H2 Hg). pose proof (Hdiv _ _ H3 Ht).
  pose proof (Hdiv _ _ H4 Ht).
  unfold nonneg_dist. simpl. repeat split; lra.
Qed.

Lemma main_distributions_valid_witness :
  exists probabilities,
    main ex_family = Ok probabilities /\
    keys probabilities = keys ex_family /\
    forall person d, In (person, d) probabilities ->
      gene0 d + gene1 d + gene2 d == 1 /\
      trait_true d + trait_false d == 1 /\
      nonneg_dist d /\
      gene0 d <= 1 /\ gene1 d <= 1 /\ gene2 d <= 1 /\
      trait_true d <= 1 /\ trait_false d <= 1.
Proof.
  apply (main_distributions_valid ex_family).
  simpl. repeat constructor; simpl; intuition discriminate.
Defined.

Lemma fold_cond_false {A : Type} (p : A -> bool) (f : A -> Q) (l : list A)
  (a : Q) :
  (forall w, In w l -> p w = false) ->
  fold_left (fun acc w => if p w then acc + f w else acc) l a = a.
Proof.
  revert a. induction l as [|x l IH]; intros a H; simpl; [reflexivity|].
  rewrite (H x) by now left. apply IH. intros w Hw. apply H. now right.
Qed.

(** X21: A person whose trait is recorded gets that trait with probability 1:
    every visited world agrees with the evidence, so the other trait value
    receives no mass. *)
Theorem main_respects_evidence (people : people_t) (person : string)
  (rec : person_t) (b : bool) :
  NoDup (keys people) -> In (person, rec) people -> trait rec = Some b ->
  exists probabilities d,
    main people = Ok probabilities /\
    get probabilities person = Ok d /\
    trait_acc d b == 1 /\ trait_acc d (negb b) == 0.
Proof.
  intros Hnd Hin Hb.
  destruct (main_returns people Hnd) as [probs [Hmain [Hk Hent]]].
  assert (Hp : In person (keys people)) by (eapply in_keys; eauto).
  destruct (in_keys_get probs person) as [d' Hget]; [now rewrite Hk|].
  destruct (Hent person d' (get_ok_in _ _ _ Hget)) as [d [Hd Hnorm]].
  destruct (main_loop_masses people person d Hd) as [_ Hmass].
  destruct (main_loop_positive people person d Hnd Hd) as [_ Ht].
  assert (Hzero : trait_acc d (negb b) = 0).
  { rewrite (Hmass (negb b)). unfold trait_mass.
    apply fold_cond_false. intros w Hw.
    destruct (In_worlds_world_of people w Hnd Hw) as [_ Hc].
    rewrite (Hc person rec b Hin Hb). now destruct b. }
  destruct (normalize_dist_eq d d' Hnorm) as [_ [_ ->]].
  exists probs. eexists. split; [exact Hmain|]. split; [exact Hget|].
  destruct b; simpl in *; rewrite Hzero in *; split; field; lra.
Qed.

Lemma main_respects_evidence_witness :
  exists probabilities d,
    main ex_family = Ok probabilities /\
    get probabilities "Lily" = Ok d /\
    trait_acc d false == 1 /\ trait_acc d (negb false) == 0.
Proof.
  apply (main_respects_evidence ex_family "Lily"
           (mkPerson "Lily" None None (Some false)) false).
  - simpl. repeat constructor; simpl; intuition discriminate.
  - simpl. auto.
  - reflexivity.
Defined.

(** X22: After the loops of [main], every person's three gene sums and two trait
    sums add up to the same number: the total joint probability of the
    visited worlds, which is positive. *)
Theorem main_loop_totals_agree (people : people_t) (person : string)
  (d : dist) :
  NoDup (keys people) -> In (person, d) (main_loop people) ->
  gene0 d + gene1 d + gene2 d == Qsum (map (joint people) (worlds people)) /\
  trait_true d + trait_false d == Qsum (map (joint people) (worlds people)) /\
  0 < Qsum (map (joint people) (worlds people)).
Proof.
  intros Hnd Hin. destruct (main_loop_totals people person d Hin) as [Hg Ht].
  split; [rewrite <- Hg; ring|]. split; [rewrite <- Ht; ring|].
  now apply mass_pos.
Qed.

Lemma main_loop_totals_agree_witness :
  exists d,
    get (main_loop ex_harry_true) "Harry" = Ok d /\
    gene0 d + gene1 d + gene2 d
    == Qsum (map (joint ex_harry_true) (worlds ex_harry_true)) /\
    trait_true d + trait_false d
    == Qsum (map (joint ex_harry_true) (worlds ex_harry_true)) /\
    0 < Qsum (map (joint ex_harry_true) (worlds ex_harry_true)).
Proof.
  assert (H : { d | get (main_loop ex_harry_true) "Harry" = Ok d })
    by (eexists; vm_compute; reflexivity).
  destruct H as [d H]. exists d. split; [exact H|].
  apply (main_loop_totals_agree ex_harry_true "Harry" d).
  - simpl. repeat constructor. intros [].
  - now apply get_ok_in.
Defined.

End HeredityExtra.
